(** * noice: the navigation engine of a terminal directory browser

    A shallow embedding of [noice.c]: the entry lister ([dentfill]), the
    comparator and sort ([entrycmp], [qsort]), the path helpers ([mkpath],
    [dentfind]), repopulation ([populate]) and the key dispatch of
    [browse], with the filesystem, the regex engine and the terminal taken
    as an explicit [World]. *)

From Stdlib Require Import List ZArith Lia Bool Ascii String Permutation Sorted.
Import ListNotations.
Local Open Scope Z_scope.

(** ** C strings

    A C string is the sequence of its bytes before the terminating NUL. *)

Definition cstring := list ascii.

(** A string literal. *)
Definition str (s : string) : cstring := list_ascii_of_string s.

(** The value of a [char] read as [unsigned char]. *)
Definition code (c : ascii) : Z := Z.of_N (N_of_ascii c).

Definition strlen (s : cstring) : Z := Z.of_nat (List.length s).

(** [strcmp] compares byte by byte, as [unsigned char]. The C standard
    fixes only the sign of the result, so the model returns -1, 0 or 1. *)
Fixpoint strcmp (a b : cstring) : Z :=
  match a, b with
  | [], [] => 0
  | [], _ :: _ => -1
  | _ :: _, [] => 1
  | x :: a', y :: b' =>
      if code x =? code y then strcmp a' b'
      else if code x <? code y then -1 else 1
  end.

(** [strchr(s, c) == NULL] is [strchr_null s c = true]. *)
Definition strchr_null (s : cstring) (c : ascii) : bool :=
  negb (existsb (fun x => code x =? code c) s).

(** [limits.h]. *)
Definition PATH_MAX : Z := 4096.

(** Modelled from the spec: [strlcpy], declared in [util.h] and defined
    outside [noice.c]. The join of the spec copies the directory, the
    separator and the name into one buffer; the function is the BSD one
    of that name: the destination of [size] bytes receives at most
    [size - 1] bytes and is always terminated. The model returns the new
    content of the destination. *)
Definition strlcpy (src : cstring) (size : Z) : cstring :=
  firstn (Z.to_nat (size - 1)) src.

(** Modelled from the spec: [strlcat], declared in [util.h] and defined
    outside [noice.c]; the BSD function of that name, which appends as
    much of [src] as the [size] bytes of the destination allow and leaves
    a destination that is already full as it is. *)
Definition strlcat (dst src : cstring) (size : Z) : cstring :=
  if size <=? strlen dst then dst
  else dst ++ firstn (Z.to_nat (size - 1 - strlen dst)) src.

Definition slash : ascii := "/"%char.

(** [name[0] == '/']: the first byte of an empty string is the NUL. *)
Definition absolute (name : cstring) : bool :=
  match name with
  | c :: _ => code c =? code slash
  | [] => false
  end.

(** [mkpath]: lines 569-589. *)
Definition mkpath (dir name : cstring) : cstring :=
  if absolute name then strlcpy name PATH_MAX
  else if strcmp dir (str "/") =? 0
       then strlcat (strlcpy (str "/") PATH_MAX) name PATH_MAX
       else strlcat (strlcat (strlcpy dir PATH_MAX) (str "/") PATH_MAX)
                    name PATH_MAX.

(** ** Machine integers *)

(** Conversion to [int] (32 bits, two's complement). *)
Definition to_int (z : Z) : Z := (z + 2 ^ 31) mod 2 ^ 32 - 2 ^ 31.

(** Conversion to [unsigned long] (64 bits). *)
Definition to_ulong (z : Z) : Z := z mod 2 ^ 64.

(** [MIN]: line 38. *)
Definition MIN (x y : Z) : Z := if x <? y then x else y.

(** ** Entries *)

(** [struct entry]: lines 80-85. *)
Record entry := mkentry {
  name : cstring;
  mode : Z;
  t : Z;
  size : Z
}.

(** [sys/stat.h]: the file type bits and the owner's execute bit. *)
Definition S_IFMT : Z := 61440.   (* 0170000 *)
Definition S_IFSOCK : Z := 49152. (* 0140000 *)
Definition S_IFLNK : Z := 40960.  (* 0120000 *)
Definition S_IFREG : Z := 32768.  (* 0100000 *)
Definition S_IFDIR : Z := 16384.  (* 0040000 *)
Definition S_IFIFO : Z := 4096.   (* 0010000 *)
Definition S_IXUSR : Z := 64.     (* 0100 *)

Definition S_ISDIR (m : Z) : bool := Z.land m S_IFMT =? S_IFDIR.
Definition S_ISLNK (m : Z) : bool := Z.land m S_IFMT =? S_IFLNK.
Definition S_ISSOCK (m : Z) : bool := Z.land m S_IFMT =? S_IFSOCK.
Definition S_ISFIFO (m : Z) : bool := Z.land m S_IFMT =? S_IFIFO.

(** [filemode]: lines 457-474. The result is the character code, 0 when
    no marker applies. *)
Definition filemode (mod_ : Z) : Z :=
  if S_ISDIR mod_ then code "/"%char
  else if S_ISLNK mod_ then code "@"%char
  else if S_ISSOCK mod_ then code "="%char
  else if S_ISFIFO mod_ then code "|"%char
  else if negb (Z.land mod_ S_IXUSR =? 0) then code "*"%char
  else 0.

(** [entrycmp]: lines 264-275. [mtimeorder] is the global of [config.h]
    that the comparator reads. The difference of the two [time_t] is
    returned as [int]. *)
Definition entrycmp (mtimeorder : bool) (a b : entry) : Z :=
  if mtimeorder then to_int (t b - t a)
  else strcmp (name a) (name b).

(** [qsort] belongs to the C library, which fixes only that the result is
    the input reordered along the sign of the comparator. The model is a
    straight insertion sort. *)
Fixpoint qsort_insert (cmp : entry -> entry -> Z) (x : entry)
    (l : list entry) : list entry :=
  match l with
  | [] => [x]
  | y :: l' => if cmp x y <=? 0 then x :: l else y :: qsort_insert cmp x l'
  end.

Fixpoint qsort (cmp : entry -> entry -> Z) (l : list entry) : list entry :=
  match l with
  | [] => []
  | x :: l' => qsort_insert cmp x (qsort cmp l')
  end.

(** [dentfind]: lines 591-613. The loop runs over the first [n] entries. *)
Fixpoint dentfind_loop (ds : list entry) (i : Z) (cwd path : cstring) : Z :=
  match ds with
  | [] => 0
  | d :: ds' =>
      if strcmp (mkpath cwd (name d)) path =? 0 then i
      else dentfind_loop ds' (i + 1) cwd path
  end.

Definition dentfind (dents : list entry) (n : Z) (cwd : cstring)
    (path : option cstring) : Z :=
  match path with
  | None => 0
  | Some p => dentfind_loop (firstn (Z.to_nat n) dents) 0 cwd p
  end.

(** ** Outcomes

    A call either returns, or ends the process through [printerr]
    ([Exit], with the exit status), or reads an array outside its bounds
    ([Undef]). Allocation is taken to succeed. *)

Inductive outcome (A : Type) : Type :=
| Done (a : A)
| Exit (status : Z)
| Undef.

Arguments Done {A} a.
Arguments Exit {A} status.
Arguments Undef {A}.

Definition bind {A B : Type} (o : outcome A) (f : A -> outcome B)
    : outcome B :=
  match o with
  | Done a => f a
  | Exit st => Exit st
  | Undef => Undef
  end.

Notation "x <- o ;; k" := (bind o (fun x => k))
  (at level 61, o at next level, right associativity).

(** ** The world outside the program *)

(** [struct stat], the three fields that are read. *)
Record stat := mkstat {
  st_mode : Z;
  st_mtime : Z;
  st_size : Z
}.

(** A compiled pattern is the predicate [regexec] decides with it. *)
Definition regex_t := cstring -> bool.

(** What the C library, the kernel, curses and [config.h] answer during
    one pass of the loop. [regcomp] is called with
    [REG_NOSUB | REG_EXTENDED | REG_ICASE] throughout; [opendir] gives the
    names [readdir] will deliver, in order; [closedir] tells whether
    closing the stream of a directory returns 0; [open_fstat] is [open]
    with [O_RDONLY | O_NONBLOCK] followed by [fstat] and gives [st_mode],
    or nothing when either call fails. *)
Record World := mkWorld {
  regcomp : cstring -> option regex_t;
  opendir : cstring -> option (list cstring);
  closedir : cstring -> bool;
  lstat : cstring -> option stat;
  open_fstat : cstring -> option Z;
  getenv : cstring -> option cstring;
  LINES : Z;
  assocs : list (cstring * cstring)
}.

(** What is written to the terminal or started, in order. *)
Inductive event : Type :=
| Printmsg (msg : cstring)
| Printwarn
| Regerror (filter : cstring)
| Printprompt (label : cstring)
| Spawn (file : option cstring) (arg : option cstring)
        (dir : option cstring) (args : option cstring).

(** [setfilter]: lines 241-256. The result is the compiled pattern, or
    nothing when [regcomp] returns non-zero; the message is then shown. *)
Definition setfilter (w : World) (filter : cstring)
    : option regex_t * list event :=
  match regcomp w filter with
  | Some re => (Some re, [])
  | None => (None, [Regerror filter])
  end.

(** [visible]: lines 258-262. *)
Definition visible (re : regex_t) (file : cstring) : bool := re file.

(** [canopendir]: lines 445-455. What [closedir] returns is not looked
    at. *)
Definition canopendir (w : World) (path : cstring) : bool :=
  match opendir w path with
  | Some _ => true
  | None => false
  end.

(** [openwith]: lines 220-239. *)
Fixpoint openwith_loop (w : World) (l : list (cstring * cstring))
    (file : cstring) : option cstring :=
  match l with
  | [] => None
  | (regex, bin) :: l' =>
      match regcomp w regex with
      | None => openwith_loop w l' file
      | Some re => if re file then Some bin else openwith_loop w l' file
      end
  end.

Definition openwith (w : World) (file : cstring) : option cstring :=
  openwith_loop w (assocs w) file.

(** [xgetenv]: lines 209-218. *)
Definition xgetenv (w : World) (name : option cstring)
    (fallback : option cstring) : option cstring :=
  match name with
  | None => fallback
  | Some nm =>
      match getenv w nm with
      | Some (c :: v) => Some (c :: v)
      | _ => fallback
      end
  end.

(** ** The entry lister *)

(** The loop of [dentfill], lines 528-549, over the names still to be
    read; [dents] and [totalsize] are the array and the global as built so
    far. A failing [lstat] ends the process. *)
Fixpoint dentfill_loop (w : World) (path : cstring)
    (filter : regex_t -> cstring -> bool) (re : regex_t)
    (names : list cstring) (dents : list entry) (totalsize : Z)
    : outcome (list entry * Z) :=
  match names with
  | [] => Done (dents, totalsize)
  | d_name :: rest =>
      if (strcmp d_name (str ".") =? 0) || (strcmp d_name (str "..") =? 0)
      then dentfill_loop w path filter re rest dents totalsize
      else if filter re d_name
      then
        match lstat w (mkpath path d_name) with
        | None => Exit 1
        | Some sb =>
            let e := {| name := d_name; mode := st_mode sb;
                        t := st_mtime sb; size := to_ulong (st_size sb) |} in
            let totalsize' :=
              if (filemode (st_mode sb) =? 0)
                 || (filemode (st_mode sb) =? code "*"%char)
              then to_ulong (totalsize + st_size sb)
              else totalsize in
            dentfill_loop w path filter re rest (dents ++ [e]) totalsize'
        end
      else dentfill_loop w path filter re rest dents totalsize
  end.

(** [dentfill]: lines 513-557. The array is written from its first
    element on and is an out-parameter: the result is its first [n]
    elements, for the returned count [n], and the global [totalsize].
    When the directory cannot be opened the count is 0. After the loop a
    failing [closedir] ends the process, lines 551-554. *)
Definition dentfill (w : World) (path : cstring)
    (filter : regex_t -> cstring -> bool) (re : regex_t)
    : outcome (list entry * Z) :=
  match opendir w path with
  | None => Done ([], 0)
  | Some names =>
      r <- dentfill_loop w path filter re names [] 0 ;;
      if closedir w path then Done r else Exit 1
  end.

(** ** The global context: lines 87-93 and [mtimeorder] of [config.h]

    [n] is not a field: it is assigned together with [dents] only
    (lines 630-635) and is the number of its elements. *)
Record globals := mkglobals {
  dents : list entry;
  cur : Z;
  path : cstring;
  oldpath : option cstring;
  fltr : cstring;
  totalsize : Z;
  mtimeorder : bool
}.

Definition n (g : globals) : Z := Z.of_nat (List.length (dents g)).

Definition set_cur (g : globals) (c : Z) : globals :=
  mkglobals (dents g) c (path g) (oldpath g) (fltr g) (totalsize g)
            (mtimeorder g).

Definition set_path (g : globals) (p : cstring) : globals :=
  mkglobals (dents g) (cur g) p (oldpath g) (fltr g) (totalsize g)
            (mtimeorder g).

Definition set_oldpath (g : globals) (o : option cstring) : globals :=
  mkglobals (dents g) (cur g) (path g) o (fltr g) (totalsize g)
            (mtimeorder g).

Definition set_fltr (g : globals) (f : cstring) : globals :=
  mkglobals (dents g) (cur g) (path g) (oldpath g) f (totalsize g)
            (mtimeorder g).

Definition set_mtimeorder (g : globals) (b : bool) : globals :=
  mkglobals (dents g) (cur g) (path g) (oldpath g) (fltr g) (totalsize g) b.

(** [dents[cur]]: reading outside the array is undefined. *)
Definition selected (g : globals) : outcome entry :=
  if (0 <=? cur g) && (cur g <? n g)
  then match nth_error (dents g) (Z.to_nat (cur g)) with
       | Some e => Done e
       | None => Undef
       end
  else Undef.

(** [populate]: lines 615-645. The result is the returned value, the
    globals and what was shown. *)
Definition populate (w : World) (g : globals)
    : outcome (Z * globals * list event) :=
  if negb (canopendir w (path g)) then Done (-1, g, [])
  else
    match setfilter w (fltr g) with
    | (None, ev) => Done (-1, g, ev)
    | (Some re, ev) =>
        r <- dentfill w (path g) visible re ;;
        let '(ds, total) := r in
        let ds' := qsort (entrycmp (mtimeorder g)) ds in
        let n' := Z.of_nat (List.length ds') in
        Done (0,
              mkglobals ds' (dentfind ds' n' (path g) (oldpath g)) (path g)
                        None (fltr g) total (mtimeorder g),
              ev)
    end.

(** ** The loop of [browse] *)

(** The part of [redraw] that writes to a global, lines 659-664: trailing
    slashes are cut from [path], the first byte is kept. Drawing itself
    is left to curses. *)
Fixpoint strip_rev (r : cstring) : cstring :=
  match r with
  | c :: (_ :: _) as r' => if code c =? code slash then strip_rev r' else r
  | _ => r
  end.

Definition strip_slashes (p : cstring) : cstring := rev (strip_rev (rev p)).

Definition redraw (g : globals) : globals :=
  set_path g (strip_slashes (path g)).

(** [dirname] of the C library, as POSIX describes it: trailing slashes
    and the last component are removed, then the slashes before it. *)
Fixpoint drop_slashes (r : cstring) : cstring :=
  match r with
  | c :: r' => if code c =? code slash then drop_slashes r' else r
  | [] => []
  end.

Fixpoint drop_component (r : cstring) : cstring :=
  match r with
  | c :: r' => if code c =? code slash then r else drop_component r'
  | [] => []
  end.

Definition dirname (p : cstring) : cstring :=
  match p with
  | [] => str "."
  | _ =>
      match drop_slashes (rev p) with
      | [] => str "/"
      | r =>
          match drop_component r with
          | [] => str "."
          | r' =>
              match drop_slashes r' with
              | [] => str "/"
              | r'' => rev r''
              end
          end
      end
  end.

(** [xdirname]: lines 166-184. *)
Definition xdirname (p : cstring) : cstring := dirname p.

(** [enum action]: lines 48-68. *)
Inductive action : Type :=
| SEL_QUIT | SEL_BACK | SEL_GOIN | SEL_FLTR | SEL_TYPE | SEL_NEXT
| SEL_PREV | SEL_PGDN | SEL_PGUP | SEL_HOME | SEL_END | SEL_CD
| SEL_CDHOME | SEL_MTIME | SEL_REDRAW | SEL_RUN | SEL_RUNARG
| SEL_TOGGLEDOT.

(** The key [readmore] reads. *)
Inductive typed : Type :=
| KEnter
| KBackspace
| KChar (c : ascii).

(** [readmore]: lines 393-443. The result is the returned value and the
    new string. [KChar c] is a key other than enter and backspace, [c]
    the byte it is stored as; when that byte is NUL it is the terminator
    of the string, which is then as long as before. *)
Definition readmore (ln : option cstring) (k : typed)
    : Z * option cstring :=
  let i := match ln with Some s => strlen s | None => 0 end in
  match k with
  | KEnter => (1, ln)
  | KBackspace =>
      let i := i - 1 in
      if 0 <? i
      then (0, match ln with
               | Some s => Some (firstn (Z.to_nat i) s)
               | None => None
               end)
      else (0, None)
  | KChar c =>
      let s := match ln with Some s => s | None => [] end in
      (0, Some (if code c =? 0 then s else s ++ [c]))
  end.

(** What the user does during one pass: the value [nextsel] returns
    (nothing for an unbound key or a timeout) with the [run], [env] and
    [args] of the binding, the line [readln] returns when the action
    prompts, and the key [readmore] reads when the action is [SEL_TYPE]. *)
Record input := mkinput {
  sel : option action;
  run : option cstring;
  env : option cstring;
  args : option cstring;
  line : option cstring;
  key : typed
}.

(** The locals of [browse] that live across passes. *)
Record locals := mklocals {
  nowtyping : bool;
  tmp : option cstring
}.

(** Where control goes after a [case]. *)
Inductive ctl : Type :=
| Begin       (* goto begin *)
| Nochange    (* goto nochange *)
| Moretyping  (* goto moretyping *)
| Break       (* break, or no case taken *)
| Continue    (* continue *)
| Return.     (* return *)

(** [oldpath = mkpath(path, dents[cur].name)] under [if (n > 0)]. *)
Definition save_current (g : globals) : outcome globals :=
  if 0 <? n g
  then e <- selected g ;; Done (set_oldpath g (Some (mkpath (path g) (name e))))
  else Done g.

(** From the label [moretyping] to the [goto] that ends the case:
    lines 824-855. *)
Definition moretyping (w : World) (ifilter : cstring) (g : globals)
    (l : locals) (k : typed)
    : outcome (globals * locals * list event * ctl) :=
  let prompt := [Printprompt (str "type: ")] in
  let '(r, tmp') := readmore (tmp l) k in
  let nowtyping' := if r =? 1 then false else nowtyping l in
  let l' := mklocals nowtyping' tmp' in
  let go (ev : list event) :=
    let g1 := set_fltr g (match tmp' with Some s => s | None => ifilter end) in
    g2 <- save_current g1 ;;
    Done (g2, l', prompt ++ ev, Begin) in
  match tmp' with
  | Some s =>
      match setfilter w s with
      | (None, ev) =>
          if nowtyping' then Done (g, l', prompt ++ ev, Moretyping)
          else Done (g, l', prompt ++ ev, Nochange)
      | (Some _, ev) => go ev
      end
  | None => go []
  end.

(** The [switch] of [browse] on the value of [nextsel]: lines 722-951. *)
Definition switch (w : World) (ifilter : cstring) (g : globals)
    (l : locals) (i : input)
    : outcome (globals * locals * list event * ctl) :=
  match sel i with
  | None => Done (g, l, [], Break)
  | Some SEL_QUIT => Done (g, l, [], Return)
  | Some SEL_BACK =>
      if (strcmp (path g) (str "/") =? 0)
         || (strcmp (path g) (str ".") =? 0)
         || strchr_null (path g) slash
      then Done (g, l, [], Nochange)
      else
        let dir := xdirname (path g) in
        if negb (canopendir w dir) then Done (g, l, [Printwarn], Nochange)
        else
          let g1 := set_oldpath g (Some (path g)) in
          let g2 := set_path g1 dir in
          Done (set_fltr g2 ifilter, l, [], Begin)
  | Some SEL_GOIN =>
      if n g =? 0 then Done (g, l, [], Nochange)
      else
        e <- selected g ;;
        let newpath := mkpath (path g) (name e) in
        match open_fstat w newpath with
        | None => Done (g, l, [Printwarn], Nochange)
        | Some st_mode =>
            if Z.land st_mode S_IFMT =? S_IFDIR then
              if negb (canopendir w newpath)
              then Done (g, l, [Printwarn], Nochange)
              else Done (set_fltr (set_path g newpath) ifilter, l, [], Begin)
            else if Z.land st_mode S_IFMT =? S_IFREG then
              match openwith w newpath with
              | None =>
                  Done (g, l, [Printmsg (str "No association")], Nochange)
              | Some bin =>
                  Done (g, l, [Spawn (Some bin) (Some newpath) None None],
                        Continue)
              end
            else Done (g, l, [Printmsg (str "Unsupported file")], Nochange)
        end
  | Some SEL_FLTR =>
      let prompt := [Printprompt (str "filter: ")] in
      let tmp := match line i with Some s => s | None => ifilter end in
      match setfilter w tmp with
      | (None, ev) => Done (g, l, prompt ++ ev, Nochange)
      | (Some _, ev) =>
          g1 <- save_current (set_fltr g tmp) ;;
          Done (g1, l, prompt ++ ev, Begin)
      end
  | Some SEL_TYPE => moretyping w ifilter g (mklocals true None) (key i)
  | Some SEL_NEXT =>
      Done (if cur g <? n g - 1 then set_cur g (cur g + 1) else g,
            l, [], Break)
  | Some SEL_PREV =>
      Done (if 0 <? cur g then set_cur g (cur g - 1) else g, l, [], Break)
  | Some SEL_PGDN =>
      Done (if cur g <? n g - 1
            then set_cur g (cur g + MIN ((LINES w - 4) ÷ 2) (n g - 1 - cur g))
            else g,
            l, [], Break)
  | Some SEL_PGUP =>
      Done (if 0 <? cur g
            then set_cur g (cur g - MIN ((LINES w - 4) ÷ 2) (cur g))
            else g,
            l, [], Break)
  | Some SEL_HOME => Done (set_cur g 0, l, [], Break)
  | Some SEL_END => Done (set_cur g (n g - 1), l, [], Break)
  | Some SEL_CD =>
      let prompt := [Printprompt (str "chdir: ")] in
      match line i with
      | None => Done (g, l, prompt ++ [Printmsg []], Nochange)
      | Some tmp =>
          let newpath := mkpath (path g) tmp in
          if negb (canopendir w newpath)
          then Done (g, l, prompt ++ [Printwarn], Nochange)
          else Done (set_fltr (set_path g newpath) ifilter, l, prompt, Begin)
      end
  | Some SEL_CDHOME =>
      match getenv w (str "HOME") with
      | None => Done (g, l, [Printmsg []], Nochange)
      | Some tmp =>
          let newpath := mkpath (path g) tmp in
          if negb (canopendir w newpath)
          then Done (g, l, [Printwarn], Nochange)
          else
            let g1 := set_oldpath g (Some (path g)) in
            Done (set_fltr (set_path g1 newpath) ifilter, l, [], Begin)
      end
  | Some SEL_MTIME =>
      g1 <- save_current (set_mtimeorder g (negb (mtimeorder g))) ;;
      Done (g1, l, [], Begin)
  | Some SEL_REDRAW =>
      g1 <- save_current g ;;
      Done (g1, l, [], Begin)
  | Some SEL_RUN =>
      Done (g, l,
            [Spawn (xgetenv w (env i) (run i)) None (Some (path g)) (args i)],
            Break)
  | Some SEL_RUNARG =>
      e <- selected g ;;
      Done (g, l,
            [Spawn (xgetenv w (env i) (run i)) (Some (name e))
                   (Some (path g)) (args i)],
            Break)
  | Some SEL_TOGGLEDOT =>
      if negb (strcmp (fltr g) ifilter =? 0)
      then Done (set_fltr g ifilter, l, [], Begin)
      else Done (set_fltr g (str "."), l, [], Begin)
  end.

(** From the label [begin] to the next wait for a key: lines 705-721.
    A failed [populate] is reported and skips [redraw], except while
    typing. *)
Definition begin_ (w : World) (g : globals) (l : locals)
    : outcome (globals * locals * list event) :=
  r <- populate w g ;;
  let '(rv, g', ev) := r in
  if (rv =? -1) && negb (nowtyping l)
  then Done (g', l, ev ++ [Printwarn])
  else Done (redraw g', l, ev).

(** One pass of the loop, from one wait for a key to the next. While
    [nowtyping] holds the wait is the one of [readmore] and the pass
    starts at [moretyping]; otherwise it is the one of [nextsel]. The
    result holds no state once [browse] has returned. The idle counter
    and the screensaver touch none of the globals above and are left
    out. *)
Definition step (w : World) (ifilter : cstring) (g : globals) (l : locals)
    (i : input) : outcome (option (globals * locals) * list event) :=
  r <- (if nowtyping l then moretyping w ifilter g l (key i)
        else switch w ifilter g l i) ;;
  let '(g1, l1, ev, c) := r in
  match c with
  | Begin =>
      r2 <- begin_ w g1 l1 ;;
      let '(g2, l2, ev2) := r2 in
      Done (Some (g2, l2), ev ++ ev2)
  | Nochange | Moretyping => Done (Some (g1, l1), ev)
  | Break | Continue => Done (Some (redraw g1, l1), ev)
  | Return => Done (None, ev)
  end.

(** The entry of [browse], lines 702-707: the globals as the loader
    leaves them, then [begin]. *)
Definition browse_init (w : World) (ipath ifilter : cstring)
    (mtimeorder0 : bool) : outcome (globals * locals * list event) :=
  begin_ w (mkglobals [] 0 ipath None ifilter 0 mtimeorder0)
         (mklocals false None).

(** The two filters [main] chooses from, lines 988-991. *)
Definition ifilter_root : cstring := str ".".
Definition ifilter_user : cstring := str "^[^.]".

(** ** A small world for the examples

    [/tmp] holds [a.txt], [b.log], [.hidden] and the directory [sub];
    [/tmp/sub] is empty. The three patterns that occur are decided as
    the C library decides them: ["."] accepts every non-empty name,
    ["^[^.]"] every name that does not start with a dot, and ["["] does
    not compile. *)
Module Demo.

Definition streq (a b : cstring) : bool := strcmp a b =? 0.

Definition match_any : regex_t :=
  fun f => match f with [] => false | _ => true end.

Definition match_nodot : regex_t :=
  fun f => match f with
           | [] => false
           | c :: _ => negb (code c =? code "."%char)
           end.

Definition regcomp (p : cstring) : option regex_t :=
  if streq p (str ".") then Some match_any
  else if streq p (str "^[^.]") then Some match_nodot
  else None.

Definition opendir (p : cstring) : option (list cstring) :=
  if streq p (str "/tmp") then
    Some [str "."; str ".."; str "b.log"; str ".hidden"; str "sub";
          str "a.txt"]
  else if streq p (str "/tmp/sub") then Some [str "."; str ".."]
  else if streq p (str "/") then Some [str "."; str ".."; str "tmp"]
  else if streq p (str "/var") then Some [str "."; str ".."; str "p"; str "q"]
  else None.

Definition lstat (p : cstring) : option stat :=
  if streq p (str "/tmp/a.txt") then Some (mkstat 33188 100 10)
  else if streq p (str "/tmp/b.log") then Some (mkstat 33261 200 20)
  else if streq p (str "/tmp/.hidden") then Some (mkstat 33188 300 5)
  else if streq p (str "/tmp/sub") then Some (mkstat 16877 400 4096)
  else if streq p (str "/tmp") then Some (mkstat 16877 500 4096)
  else if streq p (str "/var/p") then Some (mkstat 33188 500 1)
  else if streq p (str "/var/q") then Some (mkstat 33188 500 1)
  else None.

Definition open_fstat (p : cstring) : option Z :=
  match lstat p with
  | Some sb => Some (st_mode sb)
  | None => None
  end.

Definition getenv (nm : cstring) : option cstring :=
  if streq nm (str "HOME") then Some (str "/tmp") else None.

Definition world : World :=
  mkWorld regcomp opendir (fun _ => true) lstat open_fstat getenv 24 [].

Definition key_of (a : action) : input :=
  mkinput (Some a) None None None None KEnter.

Definition prompt_of (a : action) (ln : option cstring) : input :=
  mkinput (Some a) None None None ln KEnter.

(** [/tmp] before it is listed, with [/tmp/b.log] in the history slot,
    and after. *)
Definition g_hist : globals :=
  mkglobals [] 0 (str "/tmp") (Some (str "/tmp/b.log")) ifilter_user 0 false.

Definition e_a : entry := mkentry (str "a.txt") 33188 100 10.
Definition e_b : entry := mkentry (str "b.log") 33261 200 20.
Definition e_hidden : entry := mkentry (str ".hidden") 33188 300 5.
Definition e_sub : entry := mkentry (str "sub") 16877 400 4096.

Definition g_listed : globals :=
  mkglobals [e_a; e_b; e_sub] 1 (str "/tmp") None ifilter_user 30 false.

(** The empty directory [/tmp/sub], listed. *)
Definition g_empty : globals :=
  mkglobals [] 0 (str "/tmp/sub") None ifilter_user 0 false.

Definition browsing : locals := mklocals false None.

(** [/tmp] listed with the pattern ["."], the cursor on [b.log]. *)
Definition g_all : globals :=
  mkglobals [e_hidden; e_a; e_b; e_sub] 2 (str "/tmp") None (str ".") 35
            false.

(** [/tmp] listed again with the default pattern, [b.log] kept. *)
Definition g_default : globals :=
  mkglobals [e_a; e_b; e_sub] 1 (str "/tmp") None ifilter_user 30 false.

(** The same world in a terminal of two lines. *)
Definition world_small : World :=
  mkWorld regcomp opendir (fun _ => true) lstat open_fstat getenv 2 [].

(** [/tmp] listed with the cursor on [sub], and the globals as the
    descent into [sub] and the ascent from it leave them at [begin]. *)
Definition g_on_sub : globals :=
  mkglobals [e_a; e_b; e_sub] 2 (str "/tmp") None ifilter_user 30 false.

Definition g_descending : globals :=
  mkglobals [e_a; e_b; e_sub] 2 (str "/tmp/sub") None ifilter_user 30 false.

Definition g_ascending : globals :=
  mkglobals [] 0 (str "/tmp") (Some (str "/tmp/sub")) ifilter_user 0 false.

(** [/tmp] with the cursor on [b.log], as [SEL_MTIME] leaves the globals
    at [begin], and listed again newest first. *)
Definition g_resorting : globals :=
  mkglobals [e_a; e_b; e_sub] 1 (str "/tmp") (Some (str "/tmp/b.log"))
            ifilter_user 30 true.

Definition g_by_time : globals :=
  mkglobals [e_sub; e_b; e_a] 1 (str "/tmp") None ifilter_user 30 true.

(** [/var] holds [p] and [q], written in the same second. *)
Definition e_p : entry := mkentry (str "p") 33188 500 1.
Definition e_q : entry := mkentry (str "q") 33188 500 1.

Definition g_var : globals :=
  mkglobals [] 0 (str "/var") None ifilter_user 0 true.

Definition g_var_listed : globals :=
  mkglobals [e_p; e_q] 0 (str "/var") None ifilter_user 2 true.

End Demo.

(** The path [mkpath] builds from a directory and a relative name when
    the buffer is large enough. *)
Definition joined (dir nm : cstring) : cstring :=
  if strcmp dir (str "/") =? 0 then slash :: nm else dir ++ slash :: nm.

(** [a] stands before [b] in the list. *)
Definition precedes (l : list entry) (a b : entry) : Prop :=
  exists i j, (i < j)%nat /\ nth_error l i = Some a /\ nth_error l j = Some b.

(** The six actions that move the cursor. *)
Definition is_move (a : action) : bool :=
  match a with
  | SEL_NEXT | SEL_PREV | SEL_PGDN | SEL_PGUP | SEL_HOME | SEL_END => true
  | _ => false
  end.

(** What holds of every entry the loop of [dentfill] appends: the
    pattern accepts its name, which is neither the self nor the parent
    entry. *)
Definition listed (re : regex_t) (e : entry) : Prop :=
  visible re (name e) = true /\ name e <> str "." /\ name e <> str "..".

(** The sizes of the entries that [dentfill] adds to [totalsize], line
    546: those [filemode] shows without a marker or as executable. *)
Definition counted (e : entry) : bool :=
  (filemode (mode e) =? 0) || (filemode (mode e) =? code "*"%char).

Fixpoint sum_sizes (ds : list entry) : Z :=
  match ds with
  | [] => 0
  | e :: ds' => (if counted e then size e else 0) + sum_sizes ds'
  end.

(** ** The listing part of [redraw] *)

(** [ISODD]: line 39. *)
Definition ISODD (x : Z) : Z := Z.land x 1.

(** The values [i] takes in [for (i = a; i < b; i++)]. *)
Definition for_range (a b : Z) : list Z :=
  map (fun k => a + Z.of_nat k) (seq 0 (Z.to_nat (b - a))).

(** The calls of [printent] in [redraw], lines 654 and 677-689: the index
    of the entry printed and whether it is drawn as the active one. *)
Definition redraw_rows (w : World) (g : globals) : list (Z * bool) :=
  let nlines := MIN (LINES w - 4) (n g) in
  let odd := ISODD nlines in
  let rows :=
    if cur g <? nlines ÷ 2 then for_range 0 nlines
    else if n g - nlines ÷ 2 <=? cur g then for_range (n g - nlines) (n g)
    else for_range (cur g - nlines ÷ 2) (cur g + nlines ÷ 2 + odd) in
  map (fun i => (i, i =? cur g)) rows.

(** The names [dentfill] keeps: lines 530-534. *)
Definition kept (re : regex_t) (d_name : cstring) : bool :=
  negb ((strcmp d_name (str ".") =? 0) || (strcmp d_name (str "..") =? 0))
  && visible re d_name.

(** The entry [dentfill] builds for a name: lines 536-544. *)
Definition entry_of (d_name : cstring) (sb : stat) : entry :=
  mkentry d_name (st_mode sb) (st_mtime sb) (to_ulong (st_size sb)).

(** ** Keys and idling *)

(** [struct key]: lines 70-76. *)
Record key_binding := mkkey {
  sym : Z;
  act : action;
  bound_run : option cstring;
  bound_env : option cstring;
  bound_args : option cstring
}.

(** [nextsel]: lines 353-375, for the key [c] that [getch] returns and
    the table [bindings] of [config.h]. The result is the global [idle]
    and the binding found, if any; the function returns its action and
    stores its three strings, and returns 0 when there is none. *)
Definition nextsel (bindings : list key_binding) (idle c : Z)
    : Z * option key_binding :=
  (if c =? -1 then idle + 1 else 0,
   find (fun b => c =? sym b) bindings).

(** The end of the loop body, lines 952-958, reached after a [break] or
    when no case is taken; [idletimeout] is a constant of [config.h].
    The result is the global [idle] and whether [idlecmd] is started. *)
Definition screensaver (idletimeout idle : Z) : Z * bool :=
  if negb (idletimeout =? 0) && (idle =? idletimeout) then (0, true)
  else (idle, false).

(** A pass in which [getch] times out and -1 is bound to no action. *)
Definition timeout_pass (bindings : list key_binding) (idletimeout : Z)
    (idle : Z) : Z * bool :=
  screensaver idletimeout (fst (nextsel bindings idle (-1))).

(** [k] such passes in a row; the result is the global [idle] and
    whether the last of them started [idlecmd]. *)
Fixpoint timeout_passes (bindings : list key_binding) (idletimeout : Z)
    (k : nat) (idle : Z) : Z * bool :=
  match k with
  | O => (idle, false)
  | S k' =>
      timeout_pass bindings idletimeout
        (fst (timeout_passes bindings idletimeout k' idle))
  end.

(** Whether an association applies to a file: its pattern compiles and
    accepts the file, lines 228-231. *)
Definition assoc_applies (w : World) (file : cstring)
    (a : cstring * cstring) : bool :=
  match regcomp w (fst a) with
  | Some re => re file
  | None => false
  end.

(** The cursor is an index of the list, or 0 or -1 on an empty list. *)
Definition cursor_ok (g : globals) : Prop :=
  (0 < n g -> 0 <= cur g < n g) /\ (n g = 0 -> cur g = 0 \/ cur g = -1).

(** The world of [Demo] after [/tmp/b.log] has been removed while the
    directory stream of [/tmp] still yields its name. *)
Definition world_vanished : World :=
  mkWorld Demo.regcomp Demo.opendir (fun _ => true)
          (fun p => if Demo.streq p (str "/tmp/b.log") then None
                    else Demo.lstat p)
          Demo.open_fstat Demo.getenv 24 [].

(** The world of [Demo] while [/tmp] cannot be opened. *)
Definition world_locked : World :=
  mkWorld Demo.regcomp
          (fun p => if Demo.streq p (str "/tmp") then None
                    else Demo.opendir p)
          (fun _ => true) Demo.lstat Demo.open_fstat Demo.getenv 24 [].

(** [/tmp] as [SEL_REDRAW] leaves it in [world_locked]: the listing has
    failed and [b.log] is still in the history slot. *)
Definition g_stale : globals :=
  set_oldpath Demo.g_default (Some (str "/tmp/b.log")).

(** A directory whose path is 4090 bytes long, in components of at most
    255 bytes. It holds the directories [bcde] and [bcdefghij]; the
    joined path of the second does not fit [PATH_MAX]. *)
Definition long_dir : cstring :=
  List.concat (repeat (slash :: repeat "a"%char 254) 16)
  ++ slash :: repeat "a"%char 9.

Definition world_long : World :=
  let sub := long_dir ++ str "/bcde" in
  mkWorld Demo.regcomp
          (fun p => if Demo.streq p long_dir
                    then Some [str "."; str ".."; str "bcde";
                               str "bcdefghij"]
                    else if Demo.streq p sub then Some [str "."; str ".."]
                    else None)
          (fun _ => true)
          (fun p => if Demo.streq p sub then Some (mkstat 16877 400 4096)
                    else None)
          (fun p => if Demo.streq p sub then Some 16877 else None)
          Demo.getenv 24 [].

Definition e_bcde : entry := mkentry (str "bcde") 16877 400 4096.
Definition e_bcdefghij : entry := mkentry (str "bcdefghij") 16877 400 4096.

Definition g_long : globals :=
  mkglobals [e_bcde; e_bcdefghij] 1 long_dir None ifilter_user 0 false.

(** A directory of three sparse files of 2^63 - 1 bytes each, the
    largest [off_t]. *)
Definition world_sparse : World :=
  mkWorld Demo.regcomp
          (fun p => if Demo.streq p (str "/big")
                    then Some [str "."; str ".."; str "x"; str "y"; str "z"]
                    else None)
          (fun _ => true)
          (fun p => if Demo.streq p (str "/big/x")
                       || Demo.streq p (str "/big/y")
                       || Demo.streq p (str "/big/z")
                    then Some (mkstat 33188 100 (2 ^ 63 - 1))
                    else None)
          (fun _ => None) Demo.getenv 24 [].

Definition e_sparse (nm : cstring) : entry :=
  mkentry nm 33188 100 (2 ^ 63 - 1).

(** * Properties *)

(** ** Strings *)

Lemma code_inj (x y : ascii) : code x = code y -> x = y.
Proof.
  unfold code. intros H. apply N2Z.inj in H.
  rewrite <- (ascii_N_embedding x), <- (ascii_N_embedding y).
  now rewrite H.
Qed.

Lemma code_eqb_eq (x y : ascii) : (code x =? code y) = true <-> x = y.
Proof.
  rewrite Z.eqb_eq. split; [apply code_inj | now intros ->].
Qed.

Lemma strcmp_values (a b : cstring) :
  strcmp a b = -1 \/ strcmp a b = 0 \/ strcmp a b = 1.
Proof.
  revert b. induction a as [|x a IH]; intros [|y b]; simpl; auto.
  destruct (code x =? code y); [apply IH|].
  destruct (code x <? code y); auto.
Qed.

Lemma strcmp_eq (a b : cstring) : strcmp a b = 0 <-> a = b.
Proof.
  revert b. induction a as [|x a IH]; intros [|y b]; simpl;
    try (split; [discriminate | discriminate]); try tauto.
  destruct (code x =? code y) eqn:E.
  - apply code_eqb_eq in E. subst y. rewrite IH.
    split; [now intros -> | now intros [= ->]].
  - split.
    + destruct (code x <? code y); discriminate.
    + intros [= -> ->]. rewrite Z.eqb_refl in E. discriminate.
Qed.

Lemma strcmp_refl (a : cstring) : strcmp a a = 0.
Proof. now apply strcmp_eq. Qed.

Lemma strcmp_eqb (a b : cstring) : (strcmp a b =? 0) = true <-> a = b.
Proof. rewrite Z.eqb_eq. apply strcmp_eq. Qed.

Lemma strcmp_eqb_false (a b : cstring) : (strcmp a b =? 0) = false <-> a <> b.
Proof.
  rewrite <- strcmp_eq, Z.eqb_neq. tauto.
Qed.

Lemma strcmp_antisym (a b : cstring) : strcmp b a = - strcmp a b.
Proof.
  revert b. induction a as [|x a IH]; intros [|y b]; simpl; try reflexivity.
  rewrite (Z.eqb_sym (code y) (code x)).
  destruct (code x =? code y) eqn:E; [apply IH|].
  apply Z.eqb_neq in E.
  destruct (code x <? code y) eqn:L1, (code y <? code x) eqn:L2;
    try reflexivity; rewrite ?Z.ltb_lt, ?Z.ltb_ge in *; lia.
Qed.

Lemma strcmp_trans (a b c : cstring) :
  strcmp a b <= 0 -> strcmp b c <= 0 -> strcmp a c <= 0.
Proof.
  revert b c. induction a as [|x a IH]; intros [|y b] [|z c]; simpl;
    try lia.
  destruct (code x =? code y) eqn:Exy.
  - apply Z.eqb_eq in Exy. rewrite Exy.
    destruct (code y =? code z); [apply IH | tauto].
  - apply Z.eqb_neq in Exy.
    destruct (code x <? code y) eqn:Lxy; [|lia]. apply Z.ltb_lt in Lxy.
    intros _.
    destruct (code y =? code z) eqn:Eyz.
    + apply Z.eqb_eq in Eyz. intros _.
      assert ((code x =? code z) = false) as -> by (apply Z.eqb_neq; lia).
      assert ((code x <? code z) = true) as -> by (apply Z.ltb_lt; lia). lia.
    + destruct (code y <? code z) eqn:Lyz; [|lia]. apply Z.ltb_lt in Lyz.
      intros _.
      assert ((code x =? code z) = false) as -> by (apply Z.eqb_neq; lia).
      assert ((code x <? code z) = true) as -> by (apply Z.ltb_lt; lia). lia.
Qed.

(** ** [dentfind] *)

Lemma dentfind_loop_range (ds : list entry) (i : Z) (cwd p : cstring) :
  dentfind_loop ds i cwd p = 0 \/
  i <= dentfind_loop ds i cwd p < i + Z.of_nat (List.length ds).
Proof.
  revert i. induction ds as [|d ds IH]; intros i; simpl; [now left|].
  destruct (strcmp (mkpath cwd (name d)) p =? 0); [right; lia|].
  destruct (IH (i + 1)) as [H|H]; [now left | right; lia].
Qed.

Lemma dentfind_loop_miss (ds : list entry) (i : Z) (cwd p : cstring) :
  (forall e, In e ds -> mkpath cwd (name e) <> p) ->
  dentfind_loop ds i cwd p = 0.
Proof.
  revert i. induction ds as [|d ds IH]; intros i H; simpl; [reflexivity|].
  destruct (strcmp (mkpath cwd (name d)) p =? 0) eqn:E.
  - apply strcmp_eqb in E. exfalso. apply (H d); [now left | exact E].
  - apply IH. intros e He. apply H. now right.
Qed.

Lemma dentfind_loop_hit (ds : list entry) (i : Z) (cwd p : cstring) :
  (exists e, In e ds /\ mkpath cwd (name e) = p) ->
  exists k e,
    dentfind_loop ds i cwd p = i + Z.of_nat k /\
    nth_error ds k = Some e /\ mkpath cwd (name e) = p /\
    forall j e', (j < k)%nat -> nth_error ds j = Some e' ->
                 mkpath cwd (name e') <> p.
Proof.
  revert i. induction ds as [|d ds IH]; intros i [e [He Hp]]; [destruct He|].
  simpl. destruct (strcmp (mkpath cwd (name d)) p =? 0) eqn:E.
  - apply strcmp_eqb in E. exists 0%nat, d. repeat split; auto; try lia.
  - apply strcmp_eqb_false in E.
    destruct He as [->|He]; [contradiction|].
    destruct (IH (i + 1)) as (k & e0 & Hk & Hn & Hm & Hfirst);
      [now exists e|].
    exists (S k), e0. repeat split; auto; try lia.
    intros [|j] e' Hj Hj'; simpl in Hj'.
    + now injection Hj' as <-.
    + apply (Hfirst j); [lia | exact Hj'].
Qed.

Lemma firstn_length_all {A : Type} (l : list A) :
  firstn (Z.to_nat (Z.of_nat (List.length l))) l = l.
Proof. rewrite Nat2Z.id. apply firstn_all. Qed.

(** What [dentfind] returns, for every array, directory and target. *)
Lemma dentfind_spec (ds : list entry) (cwd : cstring) :
  let len := Z.of_nat (List.length ds) in
  dentfind ds len cwd None = 0 /\
  (forall p, (forall e, In e ds -> mkpath cwd (name e) <> p) ->
             dentfind ds len cwd (Some p) = 0) /\
  (forall p, (exists e, In e ds /\ mkpath cwd (name e) = p) ->
     let i := dentfind ds len cwd (Some p) in
     0 <= i < len /\
     (exists e, nth_error ds (Z.to_nat i) = Some e /\
                mkpath cwd (name e) = p) /\
     forall j e', (j < Z.to_nat i)%nat -> nth_error ds j = Some e' ->
                  mkpath cwd (name e') <> p).
Proof.
  intros len. unfold dentfind, len. rewrite firstn_length_all.
  split; [reflexivity|]. split.
  - intros p H. now apply dentfind_loop_miss.
  - intros p H. cbv zeta.
    destruct (dentfind_loop_hit ds 0 cwd p H)
      as (k & e & Hk & Hn & Hm & Hfirst).
    rewrite Hk. simpl. rewrite Nat2Z.id.
    assert (k < List.length ds)%nat by (apply nth_error_Some; congruence).
    split; [lia|]. split; [now exists e | exact Hfirst].
Qed.

Lemma dentfind_in_range (ds : list entry) (cwd : cstring)
    (target : option cstring) :
  let len := Z.of_nat (List.length ds) in
  let i := dentfind ds len cwd target in
  (0 < len -> 0 <= i < len) /\ (len = 0 -> i = 0).
Proof.
  cbv zeta. unfold dentfind. destruct target as [p|]; [|lia].
  rewrite firstn_length_all.
  destruct (dentfind_loop_range ds 0 cwd p) as [H|H]; lia.
Qed.

(** ** [populate] *)

Lemma populate_ok_inv (w : World) (g g' : globals) (ev : list event) :
  populate w g = Done (0, g', ev) ->
  exists re ds total,
    canopendir w (path g) = true /\
    regcomp w (fltr g) = Some re /\
    dentfill w (path g) visible re = Done (ds, total) /\
    ev = [] /\
    g' = let ds' := qsort (entrycmp (mtimeorder g)) ds in
         mkglobals ds'
           (dentfind ds' (Z.of_nat (List.length ds')) (path g) (oldpath g))
           (path g) None (fltr g) total (mtimeorder g).
Proof.
  unfold populate, setfilter.
  destruct (canopendir w (path g)); simpl; [|discriminate].
  destruct (regcomp w (fltr g)) as [re|]; [|discriminate].
  destruct (dentfill w (path g) visible re) as [[ds total]| |] eqn:E;
    simpl; try discriminate.
  intros [= <- <-]. now exists re, ds, total.
Qed.

(** A successful [populate], taken apart. *)
Ltac populated H :=
  destruct (populate_ok_inv _ _ _ _ H)
    as (?re & ?ds & ?total & _ & _ & _ & _ & ->).

Lemma populate_fail_inv (w : World) (g g' : globals) (rv : Z)
    (ev : list event) :
  populate w g = Done (rv, g', ev) -> rv <> 0 ->
  rv = -1 /\ g' = g /\
  (canopendir w (path g) = false \/ regcomp w (fltr g) = None).
Proof.
  unfold populate, setfilter.
  destruct (canopendir w (path g)); simpl.
  - destruct (regcomp w (fltr g)) as [re|].
    + destruct (dentfill w (path g) visible re) as [[ds total]| |];
        simpl; try discriminate.
      intros [= <- <- <-] H. now contradiction H.
    + intros [= <- <- <-] _. auto.
  - intros [= <- <- <-] _. auto.
Qed.

(** C1. After a repopulation the cursor is a valid index into the entry
    list, and 0 when the list is empty: it is what [dentfind] returns for
    the history slot, that is the position of the first entry whose
    joined path equals the slot, and 0 when the slot is empty or no
    entry matches. *)
Theorem populate_cursor_valid (w : World) (g g' : globals)
    (ev : list event) :
  populate w g = Done (0, g', ev) ->
  (0 < n g' -> 0 <= cur g' < n g') /\
  (n g' = 0 -> cur g' = 0) /\
  cur g' = dentfind (dents g') (n g') (path g') (oldpath g) /\
  (oldpath g = None -> cur g' = 0) /\
  (forall p, oldpath g = Some p ->
     (forall e, In e (dents g') -> mkpath (path g') (name e) <> p) ->
     cur g' = 0) /\
  (forall p, oldpath g = Some p ->
     (exists e, In e (dents g') /\ mkpath (path g') (name e) = p) ->
     (exists e, nth_error (dents g') (Z.to_nat (cur g')) = Some e /\
                mkpath (path g') (name e) = p) /\
     forall j e', (j < Z.to_nat (cur g'))%nat ->
                  nth_error (dents g') j = Some e' ->
                  mkpath (path g') (name e') <> p).
Proof.
  intros H.
  populated H.
  cbv zeta. unfold n. cbn [dents cur path].
  set (ds' := qsort (entrycmp (mtimeorder g)) ds).
  destruct (dentfind_in_range ds' (path g) (oldpath g)) as [R1 R2].
  destruct (dentfind_spec ds' (path g)) as (S1 & S2 & S3).
  repeat split; auto.
  - now apply R1.
  - now apply R1.
  - intros ->. exact S1.
  - intros p ->. apply S2.
  - rewrite H0. now apply S3.
  - rewrite H0. now apply S3.
Qed.

Lemma populate_cursor_valid_witness :
  populate Demo.world Demo.g_hist = Done (0, Demo.g_listed, []) /\
  (0 < n Demo.g_listed -> 0 <= cur Demo.g_listed < n Demo.g_listed).
Proof.
  assert (H : populate Demo.world Demo.g_hist = Done (0, Demo.g_listed, []))
    by (vm_compute; reflexivity).
  split; [exact H|].
  exact (proj1 (populate_cursor_valid Demo.world Demo.g_hist Demo.g_listed
                  [] H)).
Defined.

(** ** The entry lister *)

Section Dentfill.

Variable w : World.
Variable dir : cstring.
Variable re : regex_t.

Lemma dentfill_loop_listed (names : list cstring) :
  forall acc total ds total',
    dentfill_loop w dir visible re names acc total = Done (ds, total') ->
    Forall (listed re) acc -> Forall (listed re) ds.
Proof.
  induction names as [|nm names IH]; intros acc total ds total';
    cbn [dentfill_loop].
  - now intros [= <- <-].
  - destruct ((strcmp nm (str ".") =? 0) || (strcmp nm (str "..") =? 0))
      eqn:Edot; [apply IH|].
    apply orb_false_iff in Edot. destruct Edot as [E1 E2].
    apply strcmp_eqb_false in E1, E2.
    destruct (visible re nm) eqn:Ev; [|apply IH].
    destruct (lstat w (mkpath dir nm)) as [sb|]; [|discriminate].
    intros H Hacc. eapply IH; [exact H|].
    apply Forall_app. split; [exact Hacc|].
    constructor; [|constructor]. now repeat split.
Qed.

Lemma sum_sizes_app (a b : list entry) :
  sum_sizes (a ++ b) = sum_sizes a + sum_sizes b.
Proof.
  induction a as [|e a IH]; simpl; [reflexivity | rewrite IH; lia].
Qed.

Lemma dentfill_loop_total (names : list cstring) :
  forall acc total ds total',
    dentfill_loop w dir visible re names acc total = Done (ds, total') ->
    total = to_ulong (sum_sizes acc) ->
    total' = to_ulong (sum_sizes ds).
Proof.
  induction names as [|nm names IH]; intros acc total ds total';
    cbn [dentfill_loop].
  - intros [= <- <-]. auto.
  - destruct ((strcmp nm (str ".") =? 0) || (strcmp nm (str "..") =? 0));
      [apply IH|].
    destruct (visible re nm); [|apply IH].
    destruct (lstat w (mkpath dir nm)) as [sb|]; [|discriminate].
    intros H Htot. eapply IH; [exact H|].
    rewrite sum_sizes_app. simpl. unfold counted. cbn [mode size].
    rewrite Z.add_0_r. subst total. unfold to_ulong.
    destruct ((filemode (st_mode sb) =? 0)
              || (filemode (st_mode sb) =? code "*"%char)).
    + rewrite Zplus_mod_idemp_l. now rewrite Zplus_mod_idemp_r.
    + now rewrite Z.add_0_r.
Qed.

Lemma dentfill_loop_sizes (names : list cstring) :
  forall acc total ds total',
    dentfill_loop w dir visible re names acc total = Done (ds, total') ->
    Forall (fun e => 0 <= size e < 2 ^ 64) acc ->
    Forall (fun e => 0 <= size e < 2 ^ 64) ds.
Proof.
  induction names as [|nm names IH]; intros acc total ds total';
    cbn [dentfill_loop].
  - now intros [= <- <-].
  - destruct ((strcmp nm (str ".") =? 0) || (strcmp nm (str "..") =? 0));
      [apply IH|].
    destruct (visible re nm); [|apply IH].
    destruct (lstat w (mkpath dir nm)) as [sb|]; [|discriminate].
    intros H Hacc. eapply IH; [exact H|].
    apply Forall_app. split; [exact Hacc|].
    constructor; [|constructor]. cbn [size]. unfold to_ulong.
    apply Z.mod_pos_bound. lia.
Qed.

(** The loop returns as soon as [lstat] answers for every name read. *)
Lemma dentfill_loop_returns (names : list cstring) :
  (forall nm, In nm names -> lstat w (mkpath dir nm) <> None) ->
  forall acc total,
    exists ds total',
      dentfill_loop w dir visible re names acc total = Done (ds, total').
Proof.
  induction names as [|nm names IH]; intros Hst acc total;
    cbn [dentfill_loop].
  - now exists acc, total.
  - assert (Hrest : forall x, In x names -> lstat w (mkpath dir x) <> None)
      by (intros x Hx; apply Hst; now right).
    destruct ((strcmp nm (str ".") =? 0) || (strcmp nm (str "..") =? 0));
      [now apply IH|].
    destruct (visible re nm); [|now apply IH].
    destruct (lstat w (mkpath dir nm)) as [sb|] eqn:E.
    + now apply IH.
    + exfalso. apply (Hst nm); [now left | exact E].
Qed.

End Dentfill.

(** A [dentfill] that returns, taken apart: the loop has returned and
    the stream was closed. *)
Lemma dentfill_done (w : World) (dir : cstring) (re : regex_t)
    (ds : list entry) (total : Z) :
  dentfill w dir visible re = Done (ds, total) ->
  match opendir w dir with
  | Some names =>
      dentfill_loop w dir visible re names [] 0 = Done (ds, total) /\
      closedir w dir = true
  | None => ds = [] /\ total = 0
  end.
Proof.
  unfold dentfill. destruct (opendir w dir) as [names|].
  - destruct (dentfill_loop w dir visible re names [] 0) as [[ds0 t0]| |];
      cbn [bind]; try discriminate.
    destruct (closedir w dir); [|discriminate].
    intros [= <- <-]. auto.
  - intros [= <- <-]. auto.
Qed.

(** C4. The entry list [dentfill] produces with the pattern P holds only
    entries whose name P accepts, and neither the self entry [.] nor the
    parent entry [..]. *)
Theorem dentfill_only_matching (w : World) (dir P : cstring) (re : regex_t)
    (ds : list entry) (total : Z) :
  regcomp w P = Some re ->
  dentfill w dir visible re = Done (ds, total) ->
  forall e, In e ds ->
    visible re (name e) = true /\
    name e <> str "." /\ name e <> str "..".
Proof.
  intros _ H. apply Forall_forall. fold (listed re).
  apply dentfill_done in H. destruct (opendir w dir) as [names|].
  - destruct H as [H _].
    now apply (dentfill_loop_listed w dir re names [] 0 ds total H).
  - destruct H as [-> _]. constructor.
Qed.

Lemma dentfill_only_matching_witness :
  regcomp Demo.world ifilter_user = Some Demo.match_nodot /\
  dentfill Demo.world (str "/tmp") visible Demo.match_nodot
    = Done ([Demo.e_b; Demo.e_sub; Demo.e_a], 30) /\
  (forall e, In e [Demo.e_b; Demo.e_sub; Demo.e_a] ->
     visible Demo.match_nodot (name e) = true /\
     name e <> str "." /\ name e <> str "..").
Proof.
  split; [reflexivity|]. split; [vm_compute; reflexivity|].
  apply (dentfill_only_matching Demo.world (str "/tmp") ifilter_user
           Demo.match_nodot [Demo.e_b; Demo.e_sub; Demo.e_a] 30);
    [reflexivity | vm_compute; reflexivity].
Defined.

(** [dentfill] returns whenever [lstat] answers for every name of the
    directory and the stream can be closed, and also when the directory
    cannot be opened. *)
Lemma dentfill_returns (w : World) (dir : cstring) (re : regex_t) :
  (forall names nm, opendir w dir = Some names -> In nm names ->
                    lstat w (mkpath dir nm) <> None) ->
  closedir w dir = true ->
  exists ds total, dentfill w dir visible re = Done (ds, total).
Proof.
  intros H Hc. unfold dentfill. destruct (opendir w dir) as [names|] eqn:E.
  - assert (Hl : forall nm, In nm names -> lstat w (mkpath dir nm) <> None)
      by (intros nm; now apply (H names)).
    destruct (dentfill_loop_returns w dir re names Hl [] 0)
      as (ds & t0 & ->).
    cbn [bind]. rewrite Hc. now exists ds, t0.
  - now exists [], 0.
Qed.

Lemma sum_sizes_nonneg (ds : list entry) :
  Forall (fun e => 0 <= size e < 2 ^ 64) ds -> 0 <= sum_sizes ds.
Proof.
  induction 1 as [|e ds He _ IH]; simpl; [lia|].
  destruct (counted e); lia.
Qed.

(** Three regular files of 2^63 - 1 bytes each: the total wraps around
    in [unsigned long] and is not the sum of the sizes. *)
Lemma sparse_files_wrap_totalsize :
  dentfill world_sparse (str "/big") visible Demo.match_nodot
  = Done ([e_sparse (str "x"); e_sparse (str "y"); e_sparse (str "z")],
          2 ^ 63 - 3) /\
  (forall e, In e [e_sparse (str "x"); e_sparse (str "y");
                   e_sparse (str "z")] ->
             filemode (mode e) = 0) /\
  sum_sizes [e_sparse (str "x"); e_sparse (str "y"); e_sparse (str "z")]
  = 3 * (2 ^ 63 - 1) /\
  2 ^ 63 - 3 <> 3 * (2 ^ 63 - 1).
Proof.
  split; [vm_compute; reflexivity|]. split.
  - intros e [<-|[<-|[<-|[]]]]; reflexivity.
  - split; [vm_compute; reflexivity | lia].
Qed.

(** C8, amended. The aggregate size [dentfill] returns is the sum, in
    [unsigned long], of the sizes of exactly the listed entries that
    [filemode] classifies as regular or executable; entries of the other
    kinds add nothing. It is the sum modulo 2^64, and the plain sum
    whenever that is below 2^64. *)
Theorem dentfill_totalsize (w : World) (dir : cstring) (re : regex_t)
    (ds : list entry) (total : Z) :
  dentfill w dir visible re = Done (ds, total) ->
  total = to_ulong (sum_sizes ds) /\
  (sum_sizes ds < 2 ^ 64 -> total = sum_sizes ds).
Proof.
  intros H.
  assert (Ht : total = to_ulong (sum_sizes ds)
               /\ Forall (fun e => 0 <= size e < 2 ^ 64) ds).
  { apply dentfill_done in H. destruct (opendir w dir) as [names|].
    - destruct H as [H _]. split.
      + now apply (dentfill_loop_total w dir re names [] 0 ds total H).
      + now apply (dentfill_loop_sizes w dir re names [] 0 ds total H).
    - destruct H as [-> ->]. split; [reflexivity | constructor]. }
  destruct Ht as [Ht Hs]. split; [exact Ht|].
  intros Hfit. rewrite Ht. unfold to_ulong.
  apply Z.mod_small. split; [now apply sum_sizes_nonneg | exact Hfit].
Qed.

Lemma dentfill_totalsize_witness :
  dentfill Demo.world (str "/tmp") visible Demo.match_any
    = Done ([Demo.e_b; Demo.e_hidden; Demo.e_sub; Demo.e_a], 35) /\
  35 = to_ulong (sum_sizes [Demo.e_b; Demo.e_hidden; Demo.e_sub; Demo.e_a]) /\
  (sum_sizes [Demo.e_b; Demo.e_hidden; Demo.e_sub; Demo.e_a] < 2 ^ 64 ->
   35 = sum_sizes [Demo.e_b; Demo.e_hidden; Demo.e_sub; Demo.e_a]).
Proof.
  split; [vm_compute; reflexivity|].
  apply (dentfill_totalsize Demo.world (str "/tmp") Demo.match_any
           [Demo.e_b; Demo.e_hidden; Demo.e_sub; Demo.e_a] 35).
  vm_compute; reflexivity.
Defined.

(** ** Cursor movement *)

Lemma MIN_spec (x y : Z) : MIN x y = Z.min x y.
Proof. unfold MIN. destruct (x <? y) eqn:E; lia. Qed.

(** A movement changes nothing but [cur], shows nothing and leaves the
    [switch] through [break]: [populate] is not run. *)
Lemma move_only_cursor (w : World) (ifilter : cstring) (g : globals)
    (l : locals) (i : input) (a : action) :
  sel i = Some a -> is_move a = true ->
  exists c, switch w ifilter g l i = Done (set_cur g c, l, [], Break).
Proof.
  intros Hs Ha. unfold switch. rewrite Hs.
  assert (Hid : set_cur g (cur g) = g) by now destruct g.
  destruct a; try discriminate Ha.
  - destruct (cur g <? n g - 1); eexists; [reflexivity | now rewrite Hid].
  - destruct (0 <? cur g); eexists; [reflexivity | now rewrite Hid].
  - destruct (cur g <? n g - 1); eexists; [reflexivity | now rewrite Hid].
  - destruct (0 <? cur g); eexists; [reflexivity | now rewrite Hid].
  - now eexists.
  - now eexists.
Qed.

(** On a non-empty list, in a terminal of at least four lines, a movement
    keeps the cursor within the list. *)
Lemma move_in_range (w : World) (ifilter : cstring) (g g' : globals)
    (l l' : locals) (i : input) (a : action) (ev : list event) (c : ctl) :
  sel i = Some a -> is_move a = true ->
  4 <= LINES w -> 0 < n g -> 0 <= cur g < n g ->
  switch w ifilter g l i = Done (g', l', ev, c) ->
  0 <= cur g' < n g' /\ dents g' = dents g.
Proof.
  intros Hs Ha HL Hn Hc. unfold switch. rewrite Hs.
  assert (Hh : 0 <= (LINES w - 4) ÷ 2) by (apply Z.quot_pos; lia).
  destruct a; try discriminate Ha;
    repeat match goal with
           | |- context [if ?b then _ else _] => destruct b eqn:?
           end;
    intros [= <- <- <- <-]; unfold n in *; cbn [cur dents set_cur];
    rewrite ?MIN_spec; rewrite ?Z.ltb_lt, ?Z.ltb_ge in *;
    (split; [lia | reflexivity]).
Qed.

(** [SEL_END] on an empty list: [cur = n - 1] is -1. *)
Lemma sel_end_empty (w : World) (ifilter : cstring) (g : globals)
    (l : locals) (i : input) :
  sel i = Some SEL_END -> n g = 0 ->
  switch w ifilter g l i = Done (set_cur g (-1), l, [], Break).
Proof.
  intros Hs Hn. unfold switch. now rewrite Hs, Hn.
Qed.

(** In a terminal of fewer than three lines half a page is negative,
    and [SEL_PGDN] moves the cursor up, here from 0 to -1. *)
Lemma sel_pgdn_small_terminal :
  switch Demo.world_small ifilter_user (set_cur Demo.g_default 0)
         Demo.browsing (Demo.key_of SEL_PGDN)
  = Done (set_cur Demo.g_default (-1), Demo.browsing, [], Break).
Proof. reflexivity. Qed.

(** C2. In the empty directory [/tmp/sub], with the cursor at 0, the
    action [SEL_END] leaves the cursor at -1: the claim that every
    movement keeps the cursor at 0 on an empty list fails there. Nothing
    is repopulated. *)
Theorem sel_end_leaves_range :
  n Demo.g_empty = 0 /\ cur Demo.g_empty = 0 /\
  step Demo.world ifilter_user Demo.g_empty Demo.browsing
       (Demo.key_of SEL_END)
  = Done (Some (set_cur Demo.g_empty (-1), Demo.browsing), []).
Proof.
  repeat split.
Qed.

(** ** What the parts of a pass leave alone *)

Lemma save_current_inv (g g' : globals) :
  save_current g = Done g' ->
  dents g' = dents g /\ cur g' = cur g /\ path g' = path g /\
  fltr g' = fltr g /\ totalsize g' = totalsize g /\
  mtimeorder g' = mtimeorder g /\
  (n g = 0 -> oldpath g' = oldpath g) /\
  (0 < n g -> exists e, selected g = Done e /\
                        oldpath g' = Some (mkpath (path g) (name e))).
Proof.
  unfold save_current. destruct (0 <? n g) eqn:E.
  - apply Z.ltb_lt in E. destruct (selected g) as [e| |]; simpl;
      try discriminate.
    intros [= <-]. cbn. repeat split; try lia. intros _. now exists e.
  - apply Z.ltb_ge in E. intros [= <-]. repeat split; try lia.
Qed.

Lemma populate_keeps (w : World) (g g' : globals) (rv : Z)
    (ev : list event) :
  populate w g = Done (rv, g', ev) ->
  fltr g' = fltr g /\ path g' = path g /\ mtimeorder g' = mtimeorder g.
Proof.
  intros H. destruct (Z.eq_dec rv 0) as [->|Hrv].
  - populated H.
    now cbn.
  - destruct (populate_fail_inv _ _ _ _ _ H Hrv) as (_ & -> & _). auto.
Qed.

Lemma begin_keeps_fltr (w : World) (g g' : globals) (l l' : locals)
    (ev : list event) :
  begin_ w g l = Done (g', l', ev) -> fltr g' = fltr g /\ l' = l.
Proof.
  unfold begin_. destruct (populate w g) as [[[rv g1] ev1]| |] eqn:E;
    simpl; try discriminate.
  apply populate_keeps in E. destruct E as (E & _).
  destruct ((rv =? -1) && negb (nowtyping l)); intros [= <- <- <-];
    now rewrite <- E.
Qed.

(** ** Filters *)

(** Every filter a case of the [switch] installs compiles, as long as
    the default filter and ["."] do. *)
Lemma switch_filter_compiles (w : World) (ifilter : cstring)
    (g g' : globals) (l l' : locals) (i : input) (ev : list event)
    (c : ctl) :
  regcomp w ifilter <> None -> regcomp w (str ".") <> None ->
  regcomp w (fltr g) <> None ->
  switch w ifilter g l i = Done (g', l', ev, c) ->
  regcomp w (fltr g') <> None.
Proof.
  intros Hi Hd Hg. unfold switch, moretyping, setfilter, readmore.
  destruct (sel i) as [a|]; [|now intros [= <- <- <- <-]].
  destruct a;
    repeat match goal with
           | |- context [match selected g with _ => _ end] =>
               destruct (selected g); simpl
           | |- context [match save_current ?x with _ => _ end] =>
               let E := fresh "E" in
               destruct (save_current x) eqn:E; simpl;
               [apply save_current_inv in E;
                destruct E as (_ & _ & _ & E & _) | | ]
           | |- context [bind (selected g) _] =>
               destruct (selected g); simpl
           | |- context [bind (save_current ?x) _] =>
               let E := fresh "E" in
               destruct (save_current x) eqn:E; simpl;
               [apply save_current_inv in E;
                destruct E as (_ & _ & _ & E & _) | | ]
           | |- context [match regcomp w ?x with _ => _ end] =>
               let E := fresh "R" in destruct (regcomp w x) eqn:E
           | |- context [match ?x with _ => _ end] => destruct x eqn:?
           | |- context [if ?b then _ else _] => destruct b eqn:?
           end;
    try discriminate; intros [= <- <- <- <-]; cbn [fltr set_fltr set_cur
      set_path set_oldpath set_mtimeorder] in *;
    try assumption; try congruence.
Qed.

Lemma moretyping_filter_compiles (w : World) (ifilter : cstring)
    (g g' : globals) (l l' : locals) (k : typed) (ev : list event)
    (c : ctl) :
  regcomp w ifilter <> None -> regcomp w (fltr g) <> None ->
  moretyping w ifilter g l k = Done (g', l', ev, c) ->
  regcomp w (fltr g') <> None.
Proof.
  intros Hi Hg. unfold moretyping, setfilter.
  destruct (readmore (tmp l) k) as [r tmp'].
  destruct tmp' as [s|].
  - destruct (regcomp w s) eqn:R.
    + destruct (save_current (set_fltr g s)) eqn:E; simpl; try discriminate.
      apply save_current_inv in E. destruct E as (_ & _ & _ & E & _).
      intros [= <- <- <- <-]. rewrite E. cbn. congruence.
    + destruct (if r =? 1 then false else nowtyping l);
        now intros [= <- <- <- <-].
  - destruct (save_current (set_fltr g ifilter)) eqn:E; simpl;
      try discriminate.
    apply save_current_inv in E. destruct E as (_ & _ & _ & E & _).
    intros [= <- <- <- <-]. now rewrite E.
Qed.

(** The active filter compiles after every pass, whatever the action. *)
Lemma step_filter_compiles (w : World) (ifilter : cstring)
    (g g' : globals) (l l' : locals) (i : input) (ev : list event) :
  regcomp w ifilter <> None -> regcomp w (str ".") <> None ->
  regcomp w (fltr g) <> None ->
  step w ifilter g l i = Done (Some (g', l'), ev) ->
  regcomp w (fltr g') <> None.
Proof.
  intros Hi Hd Hg. unfold step.
  destruct (if nowtyping l then moretyping w ifilter g l (key i)
            else switch w ifilter g l i)
    as [[[[g1 l1] ev1] c]| |] eqn:E; simpl; try discriminate.
  assert (H1 : regcomp w (fltr g1) <> None).
  { destruct (nowtyping l).
    - exact (moretyping_filter_compiles w ifilter g g1 l l1 (key i) ev1 c
               Hi Hg E).
    - exact (switch_filter_compiles w ifilter g g1 l l1 i ev1 c
               Hi Hd Hg E). }
  destruct c; try discriminate; try (now intros [= <- <- <-]).
  destruct (begin_ w g1 l1) as [[[g2 l2] ev2]| |] eqn:B; simpl;
    try discriminate.
  apply begin_keeps_fltr in B. destruct B as [B _].
  intros [= <- <- <-]. now rewrite B.
Qed.

(** C3. With an active filter that compiles, a set-filter action whose
    string does not compile changes none of the globals: the filter and
    the entry list stay, nothing is repopulated, only the prompt and the
    regex error are shown. Hence the active filter compiles after every
    pass. *)
Theorem invalid_filter_keeps_state (w : World) (ifilter : cstring)
    (g : globals) (l : locals) (i : input) (re : regex_t) :
  regcomp w (fltr g) = Some re ->
  (forall s, s = match line i with Some s => s | None => ifilter end ->
   nowtyping l = false -> sel i = Some SEL_FLTR -> regcomp w s = None ->
   switch w ifilter g l i
     = Done (g, l, [Printprompt (str "filter: "); Regerror s], Nochange)
   /\ step w ifilter g l i
     = Done (Some (g, l), [Printprompt (str "filter: "); Regerror s]))
  /\
  (regcomp w ifilter <> None -> regcomp w (str ".") <> None ->
   forall g' l' ev, step w ifilter g l i = Done (Some (g', l'), ev) ->
                    regcomp w (fltr g') <> None).
Proof.
  intros Hre. split.
  - intros s Hdef Hl Hs Hbad.
    assert (Hsw : switch w ifilter g l i
                  = Done (g, l, [Printprompt (str "filter: "); Regerror s],
                          Nochange)).
    { unfold switch, setfilter. rewrite Hs, <- Hdef. now rewrite Hbad. }
    split; [exact Hsw|]. unfold step. now rewrite Hl, Hsw.
  - intros Hi Hd g' l' ev H.
    apply (step_filter_compiles w ifilter g g' l l' i ev); auto.
    congruence.
Qed.

Lemma invalid_filter_keeps_state_witness :
  regcomp Demo.world (fltr Demo.g_default) = Some Demo.match_nodot /\
  step Demo.world ifilter_user Demo.g_default Demo.browsing
       (Demo.prompt_of SEL_FLTR (Some (str "[")))
  = Done (Some (Demo.g_default, Demo.browsing),
          [Printprompt (str "filter: "); Regerror (str "[")]).
Proof.
  split; [reflexivity|].
  apply (proj1 (invalid_filter_keeps_state Demo.world ifilter_user
                  Demo.g_default Demo.browsing
                  (Demo.prompt_of SEL_FLTR (Some (str "[")))
                  Demo.match_nodot eq_refl) (str "["));
    reflexivity.
Defined.

(** ** Prompts left empty *)

(** An empty line at the filter prompt, with a custom filter active:
    the filter does not stay, the default filter replaces it and the
    directory is listed again. *)
Lemma empty_filter_prompt_resets :
  step Demo.world ifilter_user Demo.g_all Demo.browsing
       (Demo.prompt_of SEL_FLTR None)
  = Done (Some (Demo.g_default, Demo.browsing),
          [Printprompt (str "filter: ")])
  /\ fltr Demo.g_default <> fltr Demo.g_all
  /\ dents Demo.g_default <> dents Demo.g_all.
Proof.
  split; [vm_compute; reflexivity|]. split; discriminate.
Qed.

(** C7, amended. An empty line at the change-directory prompt changes
    nothing and reports nothing: the prompt is cleared. An empty line at
    the set-filter prompt installs the default filter in place of the
    active one, stores the joined path of the selected entry in the
    history slot and repopulates, so that the cursor is looked up from
    that slot; where the default filter compiles and the directory is
    listed, only the prompt is shown. *)
Theorem empty_prompt_input (w : World) (ifilter : cstring) (g : globals)
    (l : locals) (i : input) :
  nowtyping l = false -> line i = None ->
  (sel i = Some SEL_CD ->
   step w ifilter g l i
   = Done (Some (g, l), [Printprompt (str "chdir: "); Printmsg []]))
  /\
  (sel i = Some SEL_FLTR ->
   forall re,
     regcomp w ifilter = Some re ->
     (0 < n g -> 0 <= cur g < n g) ->
     exists g1,
       switch w ifilter g l i
       = Done (g1, l, [Printprompt (str "filter: ")], Begin) /\
       fltr g1 = ifilter /\ path g1 = path g /\
       dents g1 = dents g /\ cur g1 = cur g /\
       (0 < n g ->
        exists e, selected g = Done e /\
                  oldpath g1 = Some (mkpath (path g) (name e))) /\
       (n g = 0 -> oldpath g1 = oldpath g) /\
       forall g2 ev2,
         populate w g1 = Done (0, g2, ev2) ->
         step w ifilter g l i
         = Done (Some (redraw g2, l), [Printprompt (str "filter: ")])
         /\ fltr (redraw g2) = ifilter
         /\ path (redraw g2) = strip_slashes (path g)
         /\ cur (redraw g2)
            = dentfind (dents g2) (n g2) (path g) (oldpath g1)).
Proof.
  intros Hl Hline. split.
  - intros Hs. unfold step, switch. now rewrite Hl, Hs, Hline.
  - intros Hs re Hre Hcur.
    assert (Hsave : exists g1, save_current (set_fltr g ifilter) = Done g1).
    { unfold save_current. change (n (set_fltr g ifilter)) with (n g).
      change (selected (set_fltr g ifilter)) with (selected g).
      destruct (0 <? n g) eqn:E; [|eexists; reflexivity].
      apply Z.ltb_lt in E. specialize (Hcur E). unfold selected.
      assert (H1 : (0 <=? cur g) = true) by (apply Z.leb_le; lia).
      assert (H2 : (cur g <? n g) = true) by (apply Z.ltb_lt; lia).
      rewrite H1, H2. cbn [andb].
      destruct (nth_error (dents g) (Z.to_nat (cur g))) eqn:N.
      - cbn [bind]. eexists; reflexivity.
      - apply nth_error_None in N. unfold n in *. lia. }
    destruct Hsave as [g1 Hsave]. exists g1.
    assert (Hsw : switch w ifilter g l i
                  = Done (g1, l, [Printprompt (str "filter: ")], Begin)).
    { unfold switch, setfilter. rewrite Hs, Hline, Hre, Hsave.
      reflexivity. }
    destruct (save_current_inv _ _ Hsave)
      as (Hd & Hc & Hp & Hf & _ & _ & Hzero & Hpos).
    change (n (set_fltr g ifilter)) with (n g) in Hzero, Hpos.
    change (selected (set_fltr g ifilter)) with (selected g) in Hpos.
    cbn [set_fltr dents cur path fltr oldpath] in Hd, Hc, Hp, Hf, Hzero, Hpos.
    split; [exact Hsw|].
    repeat match goal with |- _ /\ _ => split end; auto.
    intros g2 ev2 Hpop.
    destruct (populate_ok_inv _ _ _ _ Hpop)
      as (re' & ds & total & _ & _ & _ & -> & Hg2).
    split.
    + unfold step. rewrite Hl, Hsw. cbn [bind]. unfold begin_.
      rewrite Hpop. cbn [bind]. now rewrite Hl.
    + subst g2. cbv zeta.
      cbn [redraw set_path fltr path cur dents]. rewrite Hf, Hp.
      repeat split.
Qed.

Lemma empty_prompt_input_witness :
  step Demo.world ifilter_user Demo.g_all Demo.browsing
       (Demo.prompt_of SEL_CD None)
  = Done (Some (Demo.g_all, Demo.browsing),
          [Printprompt (str "chdir: "); Printmsg []]) /\
  exists g1,
    switch Demo.world ifilter_user Demo.g_all Demo.browsing
           (Demo.prompt_of SEL_FLTR None)
    = Done (g1, Demo.browsing, [Printprompt (str "filter: ")], Begin) /\
    fltr g1 = ifilter_user /\
    exists e, selected Demo.g_all = Done e /\
              oldpath g1 = Some (mkpath (path Demo.g_all) (name e)).
Proof.
  split.
  - apply (proj1 (empty_prompt_input Demo.world ifilter_user Demo.g_all
                    Demo.browsing (Demo.prompt_of SEL_CD None)
                    eq_refl eq_refl)).
    reflexivity.
  - assert (Hr : 0 < n Demo.g_all -> 0 <= cur Demo.g_all < n Demo.g_all)
      by (cbn; lia).
    destruct (proj2 (empty_prompt_input Demo.world ifilter_user Demo.g_all
                       Demo.browsing (Demo.prompt_of SEL_FLTR None)
                       eq_refl eq_refl)
                    eq_refl Demo.match_nodot eq_refl Hr)
      as (g1 & Hsw & Hf & _ & _ & _ & Hold & _).
    exists g1. split; [exact Hsw|]. split; [exact Hf|].
    apply Hold. cbn. lia.
Defined.

(** ** The history slot *)

Lemma populate_cursor_top (w : World) (g g' : globals) (ev : list event) :
  populate w g = Done (0, g', ev) -> oldpath g = None -> cur g' = 0.
Proof.
  intros H Ho.
  populated H.
  cbn. now rewrite Ho.
Qed.

Lemma populate_cursor_lookup (w : World) (g g' : globals)
    (ev : list event) :
  populate w g = Done (0, g', ev) ->
  cur g' = dentfind (dents g') (n g') (path g') (oldpath g).
Proof.
  intros H.
  populated H.
  reflexivity.
Qed.

(** A pass that goes from the [switch] to [begin] and lists the
    directory: the cursor is looked up from the history slot as the
    [switch] left it. *)
Lemma step_through_begin (w : World) (ifilter : cstring)
    (g g1 g2 : globals) (l : locals) (i : input) (ev ev2 : list event) :
  nowtyping l = false ->
  switch w ifilter g l i = Done (g1, l, ev, Begin) ->
  populate w g1 = Done (0, g2, ev2) ->
  step w ifilter g l i = Done (Some (redraw g2, l), ev ++ ev2) /\
  cur (redraw g2) = dentfind (dents g2) (n g2) (path g2) (oldpath g1) /\
  (oldpath g1 = None -> cur (redraw g2) = 0).
Proof.
  intros Hl Hsw Hpop. split; [|split].
  - unfold step. rewrite Hl, Hsw. cbn [bind]. unfold begin_.
    rewrite Hpop. cbn [bind]. now rewrite Hl.
  - exact (populate_cursor_lookup w g1 g2 ev2 Hpop).
  - exact (populate_cursor_top w g1 g2 ev2 Hpop).
Qed.

(** After a listing of [/tmp] has failed, the entry selected then is
    still in the history slot: the change-directory action to [/tmp]
    puts the cursor back on it. *)
Lemma stale_history_restores_after_cd :
  step world_locked ifilter_user Demo.g_default Demo.browsing
       (Demo.key_of SEL_REDRAW)
  = Done (Some (g_stale, Demo.browsing), [Printwarn]) /\
  step Demo.world ifilter_user g_stale Demo.browsing
       (Demo.prompt_of SEL_CD (Some (str "/tmp")))
  = Done (Some (Demo.g_default, Demo.browsing),
          [Printprompt (str "chdir: ")]) /\
  selected Demo.g_default = Done Demo.e_b /\
  cur Demo.g_default <> 0.
Proof.
  split; [vm_compute; reflexivity|]. split; [vm_compute; reflexivity|].
  split; [reflexivity | discriminate].
Qed.

(** C9, amended. The change-directory action never writes the history
    slot, so that the repopulation that follows looks up the slot as it
    was and puts the cursor at 0 when the slot was empty, as every
    successful repopulation leaves it; the jump-home action stores the
    path it leaves in the slot before it switches to the home
    directory, and the repopulation looks that path up. *)
Theorem cd_keeps_history_cdhome_writes (w : World) (ifilter : cstring)
    (g g1 : globals) (l l1 : locals) (i : input) (ev : list event)
    (c : ctl) :
  switch w ifilter g l i = Done (g1, l1, ev, c) ->
  (sel i = Some SEL_CD ->
   oldpath g1 = oldpath g /\
   (c = Begin ->
    (exists tmp, line i = Some tmp /\ path g1 = mkpath (path g) tmp) /\
    fltr g1 = ifilter /\
    forall g2 ev2, populate w g1 = Done (0, g2, ev2) ->
      cur g2 = dentfind (dents g2) (n g2) (path g2) (oldpath g) /\
      (oldpath g = None -> cur g2 = 0) /\
      (nowtyping l = false ->
       step w ifilter g l i = Done (Some (redraw g2, l), ev ++ ev2) /\
       (oldpath g = None -> cur (redraw g2) = 0))))
  /\
  (sel i = Some SEL_CDHOME ->
   (c = Nochange -> g1 = g) /\
   (c = Begin ->
    oldpath g1 = Some (path g) /\
    (exists home, getenv w (str "HOME") = Some home /\
                  path g1 = mkpath (path g) home) /\
    fltr g1 = ifilter /\
    forall g2 ev2, populate w g1 = Done (0, g2, ev2) ->
      cur g2 = dentfind (dents g2) (n g2) (path g2) (Some (path g)) /\
      (nowtyping l = false ->
       step w ifilter g l i = Done (Some (redraw g2, l), ev ++ ev2)))).
Proof.
  intros H. pose proof H as Hsw.
  split; intros Hs; unfold switch in H; rewrite Hs in H.
  - destruct (line i) as [tmp|].
    + destruct (canopendir w (mkpath (path g) tmp)); simpl in H;
        injection H as <- <- <- <-.
      * split; [reflexivity|]. intros _. split; [now exists tmp|].
        split; [reflexivity|]. intros g2 ev2 Hp. split; [|split].
        -- now apply (populate_cursor_lookup w _ g2 ev2 Hp).
        -- intros Ho. now apply (populate_cursor_top w _ g2 ev2 Hp).
        -- intros Hl.
           destruct (step_through_begin _ _ _ _ _ _ _ _ _ Hl Hsw Hp)
             as (Hstep & _ & Htop).
           split; [exact Hstep | exact Htop].
      * split; [reflexivity | discriminate].
    + injection H as <- <- <- <-. split; [reflexivity | discriminate].
  - destruct (getenv w (str "HOME")) as [home|].
    + destruct (canopendir w (mkpath (path g) home)); simpl in H;
        injection H as <- <- <- <-.
      * split; [discriminate|]. intros _. split; [reflexivity|].
        split; [now exists home|]. split; [reflexivity|].
        intros g2 ev2 Hp. split.
        -- now apply (populate_cursor_lookup w _ g2 ev2 Hp).
        -- intros Hl.
           now destruct (step_through_begin _ _ _ _ _ _ _ _ _ Hl Hsw Hp).
      * split; [reflexivity | discriminate].
    + injection H as <- <- <- <-. split; [reflexivity | discriminate].
Qed.

Lemma cd_keeps_history_cdhome_writes_witness :
  (step Demo.world ifilter_user Demo.g_empty Demo.browsing
        (Demo.prompt_of SEL_CD (Some (str "/tmp")))
   = Done (Some (set_cur Demo.g_listed 0, Demo.browsing),
           [Printprompt (str "chdir: ")]) /\
   cur (set_cur Demo.g_listed 0) = 0) /\
  (step Demo.world ifilter_user Demo.g_empty Demo.browsing
        (Demo.key_of SEL_CDHOME)
   = Done (Some (Demo.g_on_sub, Demo.browsing), []) /\
   cur Demo.g_on_sub
   = dentfind (dents Demo.g_on_sub) (n Demo.g_on_sub) (path Demo.g_on_sub)
              (Some (path Demo.g_empty))).
Proof.
  split.
  - assert (Hsw : switch Demo.world ifilter_user Demo.g_empty Demo.browsing
                         (Demo.prompt_of SEL_CD (Some (str "/tmp")))
                  = Done (set_path Demo.g_empty (str "/tmp"),
                          Demo.browsing, [Printprompt (str "chdir: ")],
                          Begin))
      by (vm_compute; reflexivity).
    assert (Hp : populate Demo.world (set_path Demo.g_empty (str "/tmp"))
                 = Done (0, set_cur Demo.g_listed 0, []))
      by (vm_compute; reflexivity).
    destruct (proj1 (cd_keeps_history_cdhome_writes _ _ _ _ _ _ _ _ _ Hsw)
                    eq_refl) as (_ & Hb).
    destruct (Hb eq_refl) as (_ & _ & Hc).
    destruct (Hc _ _ Hp) as (_ & _ & Hstep).
    destruct (Hstep eq_refl) as (Hst & Htop).
    split; [exact Hst | exact (Htop eq_refl)].
  - assert (Hsw : switch Demo.world ifilter_user Demo.g_empty Demo.browsing
                         (Demo.key_of SEL_CDHOME)
                  = Done (set_oldpath (set_path Demo.g_empty (str "/tmp"))
                                      (Some (str "/tmp/sub")),
                          Demo.browsing, [], Begin))
      by (vm_compute; reflexivity).
    assert (Hp : populate Demo.world
                   (set_oldpath (set_path Demo.g_empty (str "/tmp"))
                                (Some (str "/tmp/sub")))
                 = Done (0, Demo.g_on_sub, []))
      by (vm_compute; reflexivity).
    destruct (proj2 (cd_keeps_history_cdhome_writes _ _ _ _ _ _ _ _ _ Hsw)
                    eq_refl) as (_ & Hb).
    destruct (Hb eq_refl) as (_ & _ & _ & Hc).
    destruct (Hc _ _ Hp) as (Hcur & Hstep).
    split; [exact (Hstep eq_refl) | exact Hcur].
Defined.

(** After a listing of [/tmp] has failed, the entry selected then is
    still in the history slot: the toggle puts the cursor on it, at
    index 2 of the new list. *)
Lemma stale_history_restores_after_toggle :
  step world_locked ifilter_user Demo.g_default Demo.browsing
       (Demo.key_of SEL_REDRAW)
  = Done (Some (g_stale, Demo.browsing), [Printwarn]) /\
  step Demo.world ifilter_user g_stale Demo.browsing
       (Demo.key_of SEL_TOGGLEDOT)
  = Done (Some (Demo.g_all, Demo.browsing), []) /\
  selected Demo.g_all = Done Demo.e_b /\
  cur Demo.g_all <> 0.
Proof.
  split; [vm_compute; reflexivity|]. split; [vm_compute; reflexivity|].
  split; [reflexivity | discriminate].
Qed.

(** C10, amended. The toggle installs the default filter whenever the
    active filter differs from it, whatever that filter is, and ["."]
    only when the active filter is the default one. The history slot is
    not written, so that the repopulation that follows looks up the
    slot as it was and puts the cursor at 0 when the slot was empty, as
    every successful repopulation leaves it. *)
Theorem toggledot_filter (w : World) (ifilter : cstring) (g : globals)
    (l : locals) (i : input) :
  sel i = Some SEL_TOGGLEDOT ->
  exists g1,
    switch w ifilter g l i = Done (g1, l, [], Begin) /\
    (fltr g <> ifilter -> fltr g1 = ifilter) /\
    (fltr g = ifilter -> fltr g1 = str ".") /\
    oldpath g1 = oldpath g /\ path g1 = path g /\
    forall g2 ev2, populate w g1 = Done (0, g2, ev2) ->
      cur g2 = dentfind (dents g2) (n g2) (path g2) (oldpath g) /\
      (oldpath g = None -> cur g2 = 0) /\
      (nowtyping l = false ->
       step w ifilter g l i = Done (Some (redraw g2, l), ev2) /\
       (oldpath g = None -> cur (redraw g2) = 0)).
Proof.
  intros Hs.
  assert (Hsw : exists g1,
            switch w ifilter g l i = Done (g1, l, [], Begin) /\
            (fltr g <> ifilter -> fltr g1 = ifilter) /\
            (fltr g = ifilter -> fltr g1 = str ".") /\
            oldpath g1 = oldpath g /\ path g1 = path g).
  { unfold switch. rewrite Hs.
    destruct (strcmp (fltr g) ifilter =? 0) eqn:E; cbn [negb];
      eexists; (split; [reflexivity|]).
    - apply strcmp_eqb in E. repeat split; auto; contradiction.
    - apply strcmp_eqb_false in E. repeat split; auto; contradiction. }
  destruct Hsw as (g1 & Hsw & Hne & Heq & Ho & Hp). exists g1.
  do 5 (split; [assumption|]).
  intros g2 ev2 Hpop. split; [|split].
  - rewrite <- Ho. now apply (populate_cursor_lookup w _ g2 ev2 Hpop).
  - intros Hnone. apply (populate_cursor_top w _ g2 ev2 Hpop). congruence.
  - intros Hl.
    destruct (step_through_begin _ _ _ _ _ _ _ _ _ Hl Hsw Hpop)
      as (Hstep & _ & Htop).
    split; [exact Hstep|]. intros Hnone. apply Htop. congruence.
Qed.

Lemma toggledot_filter_witness :
  sel (Demo.key_of SEL_TOGGLEDOT) = Some SEL_TOGGLEDOT /\
  step Demo.world ifilter_user Demo.g_default Demo.browsing
       (Demo.key_of SEL_TOGGLEDOT)
  = Done (Some (set_cur Demo.g_all 0, Demo.browsing), []) /\
  cur (set_cur Demo.g_all 0) = 0.
Proof.
  split; [reflexivity|].
  destruct (toggledot_filter Demo.world ifilter_user Demo.g_default
              Demo.browsing (Demo.key_of SEL_TOGGLEDOT) eq_refl)
    as (g1 & Hsw & _ & Heq & _ & _ & Hpop).
  assert (E : g1 = set_fltr Demo.g_default (str "."))
    by (vm_compute in Hsw; now injection Hsw as <-).
  subst g1.
  assert (Hp : populate Demo.world (set_fltr Demo.g_default (str "."))
               = Done (0, set_cur Demo.g_all 0, []))
    by (vm_compute; reflexivity).
  destruct (Hpop _ _ Hp) as (_ & _ & Hstep).
  destruct (Hstep eq_refl) as (Hst & Htop).
  split; [exact Hst | exact (Htop eq_refl)].
Defined.

(** ** Sorting *)

Lemma qsort_insert_perm (cmp : entry -> entry -> Z) (x : entry)
    (l : list entry) :
  Permutation (x :: l) (qsort_insert cmp x l).
Proof.
  induction l as [|y l IH]; simpl; [reflexivity|].
  destruct (cmp x y <=? 0); [reflexivity|].
  rewrite perm_swap. now constructor.
Qed.

Lemma qsort_perm (cmp : entry -> entry -> Z) (l : list entry) :
  Permutation l (qsort cmp l).
Proof.
  induction l as [|x l IH]; simpl; [constructor|].
  rewrite <- qsort_insert_perm. now constructor.
Qed.

Lemma qsort_in (cmp : entry -> entry -> Z) (l : list entry) (e : entry) :
  In e (qsort cmp l) <-> In e l.
Proof.
  split; apply Permutation_in;
    [apply Permutation_sym|]; apply qsort_perm.
Qed.

(** The result depends on the sign of the comparator only, and only
    between elements of the list. *)
Lemma qsort_insert_ext (cmp1 cmp2 : entry -> entry -> Z) (x : entry)
    (l : list entry) :
  (forall y, In y l -> (cmp1 x y <=? 0) = (cmp2 x y <=? 0)) ->
  qsort_insert cmp1 x l = qsort_insert cmp2 x l.
Proof.
  induction l as [|y l IH]; intros H; simpl; [reflexivity|].
  rewrite (H y) by now left.
  destruct (cmp2 x y <=? 0); [reflexivity|].
  f_equal. apply IH. intros z Hz. apply H. now right.
Qed.

Lemma qsort_ext (cmp1 cmp2 : entry -> entry -> Z) (l : list entry) :
  (forall x y, In x l -> In y l -> (cmp1 x y <=? 0) = (cmp2 x y <=? 0)) ->
  qsort cmp1 l = qsort cmp2 l.
Proof.
  induction l as [|x l IH]; intros H; simpl; [reflexivity|].
  rewrite IH by (intros a b Ha Hb; apply H; now right).
  apply qsort_insert_ext. intros y Hy. apply H; [now left|].
  right. now apply (qsort_in cmp2 l y).
Qed.

Section Sorted.

Variable cmp : entry -> entry -> Z.
Hypothesis cmp_total : forall a b, cmp a b <= 0 \/ cmp b a <= 0.
Hypothesis cmp_trans :
  forall a b c, cmp a b <= 0 -> cmp b c <= 0 -> cmp a c <= 0.

Lemma qsort_insert_sorted (x : entry) (l : list entry) :
  StronglySorted (fun a b => cmp a b <= 0) l ->
  StronglySorted (fun a b => cmp a b <= 0) (qsort_insert cmp x l).
Proof.
  induction 1 as [|y l Hs IH Hy]; simpl.
  - constructor; constructor.
  - destruct (cmp x y <=? 0) eqn:E.
    + apply Z.leb_le in E. constructor; [now constructor|].
      constructor; [exact E|].
      apply Forall_forall. intros z Hz.
      apply (cmp_trans x y z E). rewrite Forall_forall in Hy. now apply Hy.
    + apply Z.leb_gt in E. constructor; [exact IH|].
      apply Forall_forall. intros z Hz.
      apply (Permutation_in _ (Permutation_sym (qsort_insert_perm cmp x l)))
        in Hz.
      destruct Hz as [<-|Hz].
      * destruct (cmp_total x y) as [H|H]; [lia | exact H].
      * rewrite Forall_forall in Hy. now apply Hy.
Qed.

Lemma qsort_sorted (l : list entry) :
  StronglySorted (fun a b => cmp a b <= 0) (qsort cmp l).
Proof.
  induction l as [|x l IH]; simpl; [constructor|].
  now apply qsort_insert_sorted.
Qed.

Lemma sorted_precedes (l : list entry) (a b : entry) :
  StronglySorted (fun a b => cmp a b <= 0) l -> precedes l a b ->
  cmp a b <= 0.
Proof.
  intros Hs (i & j & Hij & Hi & Hj). revert i j Hij Hi Hj.
  induction Hs as [|x l Hs IH Hx]; intros i j Hij Hi Hj.
  - destruct i; discriminate.
  - destruct j as [|j]; [lia|]. simpl in Hj. destruct i as [|i].
    + injection Hi as <-. rewrite Forall_forall in Hx. apply Hx.
      eapply nth_error_In; eauto.
    + simpl in Hi. apply (IH i j); auto. lia.
Qed.

End Sorted.

Lemma in_precedes_or (l : list entry) (a b : entry) :
  In a l -> In b l -> a = b \/ precedes l a b \/ precedes l b a.
Proof.
  intros Ha Hb.
  apply In_nth_error in Ha, Hb. destruct Ha as [i Hi], Hb as [j Hj].
  destruct (Nat.lt_trichotomy i j) as [H|[H|H]].
  - right. left. now exists i, j.
  - left. subst j. congruence.
  - right. right. now exists j, i.
Qed.

Lemma precedes_in (l : list entry) (a b : entry) :
  precedes l a b -> In a l /\ In b l.
Proof.
  intros (i & j & _ & Hi & Hj). split; eapply nth_error_In; eauto.
Qed.

Lemma to_int_small (z : Z) : - 2 ^ 31 <= z < 2 ^ 31 -> to_int z = z.
Proof.
  intros H. unfold to_int. rewrite Z.mod_small; lia.
Qed.

(** Beyond the range of [int] the comparator takes the newer entry for
    the older one: the difference of the two times wraps. *)
Lemma entrycmp_wraps :
  entrycmp true (mkentry (str "old") 33188 0 1)
                (mkentry (str "new") 33188 (2 ^ 31) 1) = - 2 ^ 31.
Proof. reflexivity. Qed.

Lemma name_order_sorted (l : list entry) :
  StronglySorted (fun a b => entrycmp false a b <= 0)
                 (qsort (entrycmp false) l).
Proof.
  apply qsort_sorted; unfold entrycmp.
  - intros a b. rewrite (strcmp_antisym (name a) (name b)).
    destruct (strcmp_values (name a) (name b)) as [H|[H|H]]; lia.
  - intros a b c. apply strcmp_trans.
Qed.

Lemma time_order_sorted (l : list entry) :
  (forall a b, In a l -> In b l -> - 2 ^ 31 <= t b - t a < 2 ^ 31) ->
  StronglySorted (fun a b => t b - t a <= 0) (qsort (entrycmp true) l).
Proof.
  intros H.
  rewrite (qsort_ext (entrycmp true) (fun a b => t b - t a) l).
  - apply qsort_sorted; intros; lia.
  - intros x y Hx Hy. unfold entrycmp. now rewrite to_int_small by auto.
Qed.

(** Two entries of [/var] written in the same second: one stands before
    the other, whichever the sort puts first, and its time is not the
    greater one. *)
Lemma equal_mtime_breaks_time_order :
  populate Demo.world Demo.g_var = Done (0, Demo.g_var_listed, []) /\
  mtimeorder Demo.g_var = true /\
  precedes (dents Demo.g_var_listed) Demo.e_p Demo.e_q /\
  ~ (t Demo.e_p > t Demo.e_q).
Proof.
  split; [vm_compute; reflexivity|]. split; [reflexivity|]. split.
  - exists 0%nat, 1%nat. repeat split. lia.
  - cbn. lia.
Qed.

(** C5, amended. After a repopulation, under name order two entries with
    different names stand in the order of [strcmp] on their names; under
    time order two entries with different modification times stand
    newest first, as long as the differences of the times fit in an
    [int]. Entries that agree on the key stand in either order. *)
Theorem populate_order (w : World) (g g' : globals) (ev : list event) :
  populate w g = Done (0, g', ev) ->
  (mtimeorder g = false ->
   forall A B, In A (dents g') -> In B (dents g') -> name A <> name B ->
     (precedes (dents g') A B <-> strcmp (name A) (name B) < 0))
  /\
  (mtimeorder g = true ->
   (forall A B, In A (dents g') -> In B (dents g') ->
                - 2 ^ 31 <= t B - t A < 2 ^ 31) ->
   forall A B, In A (dents g') -> In B (dents g') -> t A <> t B ->
     (precedes (dents g') A B <-> t A > t B)).
Proof.
  intros H.
  populated H.
  cbn [dents]. split; intros Hm; rewrite Hm.
  - intros A B HA HB Hne.
    pose proof (name_order_sorted ds) as Hs.
    assert (Hz : strcmp (name A) (name B) <> 0)
      by (rewrite strcmp_eq; exact Hne).
    split.
    + intros Hp.
      pose proof (sorted_precedes (entrycmp false) _ A B Hs Hp) as Hle.
      unfold entrycmp in Hle. lia.
    + intros Hlt.
      destruct (in_precedes_or _ A B HA HB) as [->|[Hp|Hp]]; auto.
      * now contradiction Hne.
      * pose proof (sorted_precedes (entrycmp false) _ B A Hs Hp) as Hle.
        unfold entrycmp in Hle. rewrite strcmp_antisym in Hle. lia.
  - intros Hfit A B HA HB Hne.
    assert (Hs : StronglySorted (fun a b => t b - t a <= 0)
                                (qsort (entrycmp true) ds)).
    { apply time_order_sorted. intros a b Ha Hb.
      apply Hfit; now apply qsort_in. }
    split.
    + intros Hp.
      pose proof (sorted_precedes (fun a b => t b - t a) _ A B Hs Hp). lia.
    + intros Hgt.
      destruct (in_precedes_or _ A B HA HB) as [->|[Hp|Hp]]; auto.
      * now contradiction Hne.
      * pose proof (sorted_precedes (fun a b => t b - t a) _ B A Hs Hp).
        lia.
Qed.

Lemma populate_order_witness :
  populate Demo.world Demo.g_hist = Done (0, Demo.g_listed, []) /\
  (precedes (dents Demo.g_listed) Demo.e_a Demo.e_b
   <-> strcmp (name Demo.e_a) (name Demo.e_b) < 0).
Proof.
  assert (H : populate Demo.world Demo.g_hist = Done (0, Demo.g_listed, []))
    by (vm_compute; reflexivity).
  split; [exact H|].
  apply (proj1 (populate_order Demo.world Demo.g_hist Demo.g_listed [] H)).
  - reflexivity.
  - cbn. auto.
  - cbn. auto.
  - discriminate.
Defined.

(** ** Paths *)

Lemma strchr_null_spec (s : cstring) (c : ascii) :
  strchr_null s c = true <-> ~ In c s.
Proof.
  unfold strchr_null. rewrite negb_true_iff. split.
  - intros H Hin. apply Bool.not_true_iff_false in H. apply H.
    apply existsb_exists. exists c. split; [exact Hin | apply Z.eqb_refl].
  - intros H. apply Bool.not_true_iff_false. intros Hex.
    apply existsb_exists in Hex. destruct Hex as (x & Hx & E).
    apply code_eqb_eq in E. now subst x.
Qed.

Lemma no_slash_relative (nm : cstring) :
  strchr_null nm slash = true -> absolute nm = false.
Proof.
  rewrite strchr_null_spec. destruct nm as [|c nm]; [reflexivity|].
  intros H. simpl. apply Bool.not_true_iff_false. intros E.
  apply code_eqb_eq in E. apply H. now left.
Qed.

Lemma strlen_app (a b : cstring) : strlen (a ++ b) = strlen a + strlen b.
Proof. unfold strlen. rewrite length_app. lia. Qed.

Lemma strlen_cons (c : ascii) (a : cstring) : strlen (c :: a) = 1 + strlen a.
Proof. unfold strlen. cbn [List.length]. lia. Qed.

Lemma strlen_joined (dir nm : cstring) :
  strlen (joined dir nm) <= strlen dir + 1 + strlen nm.
Proof.
  unfold joined. destruct (strcmp dir (str "/") =? 0).
  - rewrite strlen_cons. unfold strlen. lia.
  - rewrite strlen_app, strlen_cons. lia.
Qed.

(** Without truncation [mkpath] joins the directory and the name. *)
Lemma mkpath_joined (dir nm : cstring) :
  absolute nm = false ->
  strlen dir + strlen nm + 2 <= PATH_MAX ->
  mkpath dir nm = joined dir nm.
Proof.
  intros Hrel Hlen. unfold mkpath, joined. rewrite Hrel.
  assert (Hd : 0 <= strlen dir) by (unfold strlen; lia).
  assert (Hn : 0 <= strlen nm) by (unfold strlen; lia).
  destruct (strcmp dir (str "/") =? 0) eqn:E.
  - apply strcmp_eqb in E. subst dir.
    unfold strlcat, strlcpy. change (firstn _ (str "/")) with [slash].
    change (strlen [slash]) with 1.
    destruct (PATH_MAX <=? 1) eqn:L;
      [apply Z.leb_le in L; unfold PATH_MAX in L; lia|].
    rewrite firstn_all2; [reflexivity|].
    change (strlen (str "/")) with 1 in Hlen. unfold strlen in *. lia.
  - unfold strlcat, strlcpy.
    rewrite (firstn_all2 (n := Z.to_nat (PATH_MAX - 1)) dir)
      by (unfold strlen in *; lia).
    destruct (PATH_MAX <=? strlen dir) eqn:L1; [apply Z.leb_le in L1; lia|].
    rewrite (firstn_all2 (str "/"))
      by (change (List.length (str "/")) with 1%nat; unfold strlen in *; lia).
    rewrite strlen_app. change (strlen (str "/")) with 1.
    destruct (PATH_MAX <=? strlen dir + 1) eqn:L2;
      [apply Z.leb_le in L2; lia|].
    rewrite firstn_all2 by (unfold strlen in *; lia).
    now rewrite <- app_assoc.
Qed.

(** A relative name that [mkpath] joins to the same untruncated path is
    the same name. *)
Lemma mkpath_joined_inj (dir nm x : cstring) :
  absolute x = false -> absolute nm = false ->
  strlen dir + strlen nm + 2 < PATH_MAX ->
  mkpath dir x = joined dir nm -> x = nm.
Proof.
  intros Hx Hnm Hlen.
  assert (Hd : 0 <= strlen dir) by (unfold strlen; lia).
  assert (Hn : 0 <= strlen nm) by (unfold strlen; lia).
  unfold mkpath, joined. rewrite Hx.
  assert (Hcut : forall k (a : cstring),
             (List.length nm < k)%nat -> firstn k a = nm -> a = nm).
  { intros k a Hk Hf.
    destruct (Nat.le_gt_cases (List.length a) k) as [Hle|Hgt].
    - now rewrite firstn_all2 in Hf.
    - exfalso. apply (f_equal (@List.length ascii)) in Hf.
      rewrite length_firstn in Hf. lia. }
  destruct (strcmp dir (str "/") =? 0) eqn:E.
  - apply strcmp_eqb in E. subst dir.
    unfold strlcat, strlcpy. change (firstn _ (str "/")) with [slash].
    change (strlen [slash]) with 1.
    destruct (PATH_MAX <=? 1) eqn:L;
      [apply Z.leb_le in L; unfold PATH_MAX in L; lia|].
    remember (Z.to_nat (PATH_MAX - 1 - 1)) as k eqn:Hk.
    cbn [app]. intros H. injection H as H. apply (Hcut k) in H; [exact H|].
    change (strlen (str "/")) with 1 in Hlen. unfold strlen in *. lia.
  - unfold strlcat, strlcpy.
    rewrite (firstn_all2 (n := Z.to_nat (PATH_MAX - 1)) dir)
      by (unfold strlen in *; lia).
    destruct (PATH_MAX <=? strlen dir) eqn:L1; [apply Z.leb_le in L1; lia|].
    rewrite (firstn_all2 (str "/"))
      by (change (List.length (str "/")) with 1%nat; unfold strlen in *; lia).
    rewrite strlen_app. change (strlen (str "/")) with 1.
    destruct (PATH_MAX <=? strlen dir + 1) eqn:L2;
      [apply Z.leb_le in L2; lia|].
    remember (Z.to_nat (PATH_MAX - 1 - (strlen dir + 1))) as k eqn:Hk.
    rewrite <- app_assoc. intros H. apply app_inv_head in H.
    cbn [app] in H. injection H as H. apply (Hcut k) in H; [exact H|].
    unfold strlen in *. lia.
Qed.

Lemma rev_head (l : cstring) :
  l <> [] -> exists c r, rev l = c :: r /\ In c l.
Proof.
  intros Hl. destruct (rev l) as [|c r] eqn:E.
  - exfalso. apply Hl. rewrite <- (rev_involutive l), E. reflexivity.
  - exists c, r. split; [reflexivity|]. apply in_rev. rewrite E. now left.
Qed.

Lemma strip_rev_head (c : ascii) (r : cstring) :
  c <> slash -> strip_rev (c :: r) = c :: r.
Proof.
  intros Hc. destruct r as [|c' r]; [reflexivity|]. cbn [strip_rev].
  destruct (code c =? code slash) eqn:E; [|reflexivity].
  apply code_eqb_eq in E. contradiction.
Qed.

Lemma strip_rev_length (r : cstring) :
  (List.length (strip_rev r) <= List.length r)%nat.
Proof.
  induction r as [|c r IH]; [reflexivity|].
  destruct r as [|c' r]; [reflexivity|].
  change (strip_rev (c :: c' :: r))
    with (if code c =? code slash then strip_rev (c' :: r) else c :: c' :: r).
  destruct (code c =? code slash); [|reflexivity].
  cbn [List.length] in *. lia.
Qed.

(** What [redraw] leaves of a path ends in a slash only if it is a single
    byte. *)
Lemma strip_rev_fixed (c c' : ascii) (r : cstring) :
  strip_rev (c :: c' :: r) = c :: c' :: r -> c <> slash.
Proof.
  intros H Hc. subst c.
  change (strip_rev (slash :: c' :: r))
    with (if code slash =? code slash then strip_rev (c' :: r)
          else slash :: c' :: r) in H.
  rewrite Z.eqb_refl in H.
  pose proof (strip_rev_length (c' :: r)) as L. rewrite H in L.
  cbn [List.length] in L. lia.
Qed.

Lemma drop_slashes_head (c : ascii) (r : cstring) :
  c <> slash -> drop_slashes (c :: r) = c :: r.
Proof.
  intros Hc. cbn [drop_slashes].
  destruct (code c =? code slash) eqn:E; [|reflexivity].
  apply code_eqb_eq in E. contradiction.
Qed.

Lemma drop_component_app (a b : cstring) :
  ~ In slash a -> drop_component (a ++ slash :: b) = slash :: b.
Proof.
  induction a as [|c a IH]; intros H.
  - cbn [app drop_component]. now rewrite Z.eqb_refl.
  - cbn [app drop_component].
    destruct (code c =? code slash) eqn:E.
    + apply code_eqb_eq in E. exfalso. apply H. now left.
    + apply IH. intros Hin. apply H. now right.
Qed.

Lemma joined_rev (dir nm : cstring) :
  rev (joined dir nm)
  = rev nm ++ slash :: (if strcmp dir (str "/") =? 0 then [] else rev dir).
Proof.
  unfold joined. destruct (strcmp dir (str "/") =? 0).
  - reflexivity.
  - rewrite rev_app_distr. cbn [rev]. now rewrite <- app_assoc.
Qed.

(** A joined path keeps its form in [redraw]. *)
Lemma strip_joined (dir nm : cstring) :
  nm <> [] -> ~ In slash nm ->
  strip_slashes (joined dir nm) = joined dir nm.
Proof.
  intros Hnm Hs. unfold strip_slashes. rewrite joined_rev.
  destruct (rev_head nm Hnm) as (c & r & Hr & Hc). rewrite Hr.
  cbn [app]. rewrite strip_rev_head by (intros ->; contradiction).
  rewrite app_comm_cons, <- Hr, <- joined_rev. apply rev_involutive.
Qed.

(** The parent of a joined path is the directory it was joined from. *)
Lemma dirname_joined (dir nm : cstring) :
  dir <> [] -> strip_slashes dir = dir ->
  nm <> [] -> ~ In slash nm ->
  dirname (joined dir nm) = dir.
Proof.
  intros Hdir Hstrip Hnm Hs.
  assert (Hj : joined dir nm <> []).
  { unfold joined. destruct (strcmp dir (str "/") =? 0); [discriminate|].
    now destruct dir. }
  unfold dirname. destruct (joined dir nm) as [|j0 j] eqn:Ej;
    [contradiction|].
  rewrite <- Ej, joined_rev.
  destruct (rev_head nm Hnm) as (c & r & Hr & Hc).
  assert (Hcs : c <> slash) by (intros ->; contradiction).
  rewrite Hr. cbn [app]. rewrite drop_slashes_head by exact Hcs.
  rewrite app_comm_cons, <- Hr.
  rewrite drop_component_app by (rewrite <- in_rev; exact Hs).
  cbn [drop_slashes]. rewrite Z.eqb_refl.
  destruct (strcmp dir (str "/") =? 0) eqn:E.
  - apply strcmp_eqb in E. now subst dir.
  - apply strcmp_eqb_false in E.
    assert (Hfix : strip_rev (rev dir) = rev dir).
    { unfold strip_slashes in Hstrip.
      rewrite <- (rev_involutive (strip_rev (rev dir))), Hstrip.
      reflexivity. }
    destruct (rev_head dir Hdir) as (d & rd & Hrd & _).
    rewrite Hrd in *.
    assert (Hd : d <> slash).
    { destruct rd as [|d' rd].
      - intros ->. apply E.
        rewrite <- (rev_involutive dir), Hrd. reflexivity.
      - now apply (strip_rev_fixed d d' rd). }
    rewrite drop_slashes_head by exact Hd.
    rewrite <- Hrd. apply rev_involutive.
Qed.

(** [SEL_BACK] does not stop at a joined path. *)
Lemma joined_can_go_back (dir nm : cstring) :
  dir <> [] -> nm <> [] ->
  (strcmp (joined dir nm) (str "/") =? 0)
  || (strcmp (joined dir nm) (str ".") =? 0)
  || strchr_null (joined dir nm) slash = false.
Proof.
  intros Hdir Hnm.
  assert (Hin : In slash (joined dir nm)).
  { unfold joined. destruct (strcmp dir (str "/") =? 0); [now left|].
    apply in_or_app. right. now left. }
  assert (Hlen : (2 <= List.length (joined dir nm))%nat).
  { unfold joined. destruct (strcmp dir (str "/") =? 0).
    - destruct nm; [contradiction | cbn; lia].
    - rewrite length_app. destruct dir; [contradiction | cbn; lia]. }
  repeat rewrite orb_false_iff. repeat split.
  - apply strcmp_eqb_false. intros H. rewrite H in Hlen. cbn in Hlen. lia.
  - apply strcmp_eqb_false. intros H. rewrite H in Hlen. cbn in Hlen. lia.
  - apply Bool.not_true_iff_false. rewrite strchr_null_spec. tauto.
Qed.

(** ** Descending and ascending *)

Lemma goin_begin_inv (w : World) (ifilter : cstring) (g g1 : globals)
    (l l1 : locals) (i : input) (e : entry) (ev : list event) :
  sel i = Some SEL_GOIN -> selected g = Done e ->
  switch w ifilter g l i = Done (g1, l1, ev, Begin) ->
  g1 = set_fltr (set_path g (mkpath (path g) (name e))) ifilter /\ l1 = l.
Proof.
  intros Hs He. unfold switch. rewrite Hs, He. cbn [bind].
  destruct (n g =? 0); [discriminate|].
  destruct (open_fstat w (mkpath (path g) (name e))) as [m|];
    [|discriminate].
  destruct (Z.land m S_IFMT =? S_IFDIR).
  - destruct (canopendir w (mkpath (path g) (name e))); cbn [negb];
      [|discriminate].
    now intros [= <- <- _].
  - destruct (Z.land m S_IFMT =? S_IFREG); [|discriminate].
    destruct (openwith w (mkpath (path g) (name e))); discriminate.
Qed.

Lemma back_begin_inv (w : World) (ifilter : cstring) (g g1 : globals)
    (l l1 : locals) (i : input) (ev : list event) :
  sel i = Some SEL_BACK ->
  switch w ifilter g l i = Done (g1, l1, ev, Begin) ->
  g1 = set_fltr (set_path (set_oldpath g (Some (path g)))
                          (xdirname (path g))) ifilter
  /\ l1 = l.
Proof.
  intros Hs. unfold switch. rewrite Hs.
  destruct ((strcmp (path g) (str "/") =? 0)
            || (strcmp (path g) (str ".") =? 0)
            || strchr_null (path g) slash); [discriminate|].
  destruct (canopendir w (xdirname (path g))); cbn [negb]; [|discriminate].
  now intros [= <- <- _].
Qed.

Lemma selected_nth (g : globals) (e : entry) :
  0 <= cur g < n g ->
  nth_error (dents g) (Z.to_nat (cur g)) = Some e ->
  selected g = Done e.
Proof.
  intros Hr Hn. unfold selected.
  assert (H1 : (0 <=? cur g) = true) by (apply Z.leb_le; lia).
  assert (H2 : (cur g <? n g) = true) by (apply Z.ltb_lt; lia).
  now rewrite H1, H2, Hn.
Qed.

(** In a directory whose path is 4090 bytes long [mkpath] cuts the
    joined path of [bcdefghij] to that of [bcde]. Descending from
    [bcdefghij] enters [bcde], and ascending again puts the cursor on
    [bcde], although [bcdefghij] is listed again under the same
    filter. *)
Lemma long_path_breaks_roundtrip :
  selected g_long = Done e_bcdefghij /\
  step world_long ifilter_user g_long Demo.browsing (Demo.key_of SEL_GOIN)
  = Done (Some (mkglobals [] 0 (long_dir ++ str "/bcde") None ifilter_user
                          0 false, Demo.browsing), []) /\
  step world_long ifilter_user
       (mkglobals [] 0 (long_dir ++ str "/bcde") None ifilter_user 0 false)
       Demo.browsing (Demo.key_of SEL_BACK)
  = Done (Some (set_cur g_long 0, Demo.browsing), []) /\
  In e_bcdefghij (dents (set_cur g_long 0)) /\
  fltr (set_cur g_long 0) = fltr g_long /\
  selected (set_cur g_long 0) = Done e_bcde /\
  name e_bcde <> name e_bcdefghij.
Proof.
  split; [reflexivity|]. split; [vm_compute; reflexivity|].
  split; [vm_compute; reflexivity|]. split; [right; now left|].
  split; [reflexivity|]. split; [reflexivity | discriminate].
Qed.

(** C6, amended. Descending into the selected directory and ascending
    again puts the cursor back on the entry that was selected, provided
    that the entry is listed again after the ascent, under the filter
    then active, and that the joined path of the directory and the name
    is shorter than [PATH_MAX - 1] bytes, so that [mkpath] cuts neither
    it nor a longer path down to it. The path before the descent is in
    the form [redraw] leaves and names hold no slash. *)
Theorem descend_ascend_roundtrip (w1 w2 : World) (ifilter : cstring)
    (g g1 g2 g3 g4 : globals) (l l1 l3 : locals) (i1 i2 : input)
    (e : entry) (ev1 ev2 ev3 ev4 : list event) :
  sel i1 = Some SEL_GOIN -> sel i2 = Some SEL_BACK ->
  selected g = Done e ->
  path g <> [] -> strip_slashes (path g) = path g ->
  name e <> [] -> strchr_null (name e) slash = true ->
  strlen (path g) + strlen (name e) + 2 < PATH_MAX ->
  switch w1 ifilter g l i1 = Done (g1, l1, ev1, Begin) ->
  populate w1 g1 = Done (0, g2, ev2) ->
  switch w2 ifilter (redraw g2) l1 i2 = Done (g3, l3, ev3, Begin) ->
  populate w2 g3 = Done (0, g4, ev4) ->
  (forall e', In e' (dents g4) -> strchr_null (name e') slash = true) ->
  (exists e', In e' (dents g4) /\ name e' = name e) ->
  path g4 = path g /\
  exists e', selected g4 = Done e' /\ name e' = name e.
Proof.
  intros Hs1 Hs2 He Hp Hstrip Hnm Hns Hlen Hgo Hpop1 Hback Hpop2 Hnames
         Hstill.
  assert (Hrel : absolute (name e) = false) by now apply no_slash_relative.
  assert (Hnin : ~ In slash (name e)) by now apply strchr_null_spec.
  assert (Hj : mkpath (path g) (name e) = joined (path g) (name e))
    by (apply mkpath_joined; [exact Hrel | lia]).
  destruct (goin_begin_inv _ _ _ _ _ _ _ _ _ Hs1 He Hgo) as [-> ->].
  destruct (populate_keeps _ _ _ _ _ Hpop1) as (_ & Hp2 & _).
  cbn [path set_fltr set_path] in Hp2. rewrite Hj in Hp2.
  destruct (back_begin_inv _ _ _ _ _ _ _ _ Hs2 Hback) as [-> ->].
  cbn [redraw path set_path set_oldpath set_fltr xdirname] in Hpop2.
  rewrite Hp2, strip_joined in Hpop2 by assumption.
  rewrite dirname_joined in Hpop2 by assumption.
  populated Hpop2.
  cbn [path dents cur oldpath] in *. split; [reflexivity|].
  set (ds' := qsort (entrycmp (mtimeorder g2)) ds) in *.
  destruct (dentfind_spec ds' (path g)) as (_ & _ & Hhit).
  specialize (Hhit (joined (path g) (name e))).
  cbv zeta in Hhit. destruct Hhit as (Hrange & (e' & Hnth & Hmk) & _).
  { destruct Hstill as (e' & Hin & Heq). exists e'.
    split; [exact Hin|]. now rewrite Heq. }
  exists e'. split.
  - apply selected_nth; [exact Hrange | exact Hnth].
  - apply (mkpath_joined_inj (path g)); auto.
    apply no_slash_relative. apply Hnames.
    eapply nth_error_In; eauto.
Qed.

Lemma descend_ascend_roundtrip_witness :
  selected Demo.g_on_sub = Done Demo.e_sub /\
  switch Demo.world ifilter_user Demo.g_on_sub Demo.browsing
         (Demo.key_of SEL_GOIN)
  = Done (Demo.g_descending, Demo.browsing, [], Begin) /\
  populate Demo.world Demo.g_descending = Done (0, Demo.g_empty, []) /\
  switch Demo.world ifilter_user (redraw Demo.g_empty) Demo.browsing
         (Demo.key_of SEL_BACK)
  = Done (Demo.g_ascending, Demo.browsing, [], Begin) /\
  populate Demo.world Demo.g_ascending = Done (0, Demo.g_on_sub, []) /\
  path Demo.g_on_sub = path Demo.g_on_sub /\
  exists e', selected Demo.g_on_sub = Done e' /\ name e' = name Demo.e_sub.
Proof.
  assert (H1 : switch Demo.world ifilter_user Demo.g_on_sub Demo.browsing
                      (Demo.key_of SEL_GOIN)
               = Done (Demo.g_descending, Demo.browsing, [], Begin))
    by (vm_compute; reflexivity).
  assert (H2 : populate Demo.world Demo.g_descending
               = Done (0, Demo.g_empty, []))
    by (vm_compute; reflexivity).
  assert (H3 : switch Demo.world ifilter_user (redraw Demo.g_empty)
                      Demo.browsing (Demo.key_of SEL_BACK)
               = Done (Demo.g_ascending, Demo.browsing, [], Begin))
    by (vm_compute; reflexivity).
  assert (H4 : populate Demo.world Demo.g_ascending
               = Done (0, Demo.g_on_sub, []))
    by (vm_compute; reflexivity).
  split; [reflexivity|]. split; [exact H1|]. split; [exact H2|].
  split; [exact H3|]. split; [exact H4|].
  apply (descend_ascend_roundtrip Demo.world Demo.world ifilter_user
           Demo.g_on_sub Demo.g_descending Demo.g_empty Demo.g_ascending
           Demo.g_on_sub Demo.browsing Demo.browsing Demo.browsing
           (Demo.key_of SEL_GOIN) (Demo.key_of SEL_BACK) Demo.e_sub
           [] [] [] []);
    [ reflexivity | reflexivity | reflexivity | discriminate
    | vm_compute; reflexivity | discriminate | vm_compute; reflexivity
    | vm_compute; reflexivity | exact H1 | exact H2 | exact H3 | exact H4
    | | ].
  - intros e' [<-|[<-|[<-|[]]]]; vm_compute; reflexivity.
  - exists Demo.e_sub. split; [|reflexivity]. right. right. now left.
Defined.

(** * Further properties of the code *)

(** ** [mkpath] *)

Lemma strlcpy_fits (src : cstring) (size : Z) :
  0 < size -> strlen (strlcpy src size) < size.
Proof.
  intros H. unfold strlcpy, strlen. rewrite length_firstn. lia.
Qed.

Lemma strlcat_fits (dst src : cstring) (size : Z) :
  strlen dst < size -> strlen (strlcat dst src size) < size.
Proof.
  intros H. unfold strlcat.
  destruct (size <=? strlen dst) eqn:E; [exact H|].
  rewrite strlen_app. unfold strlen in *. rewrite length_firstn. lia.
Qed.

(** X1. Whatever the directory and the name, the path [mkpath] returns
    fits its buffer: it is shorter than [PATH_MAX] bytes. *)
Theorem mkpath_fits_buffer (dir nm : cstring) :
  strlen (mkpath dir nm) < PATH_MAX.
Proof.
  assert (Hp : 0 < PATH_MAX) by reflexivity.
  unfold mkpath. destruct (absolute nm).
  - now apply strlcpy_fits.
  - destruct (strcmp dir (str "/") =? 0).
    + now apply strlcat_fits, strlcpy_fits.
    + now apply strlcat_fits, strlcat_fits, strlcpy_fits.
Qed.

(** X2. A relative name that fits is joined to the directory with one
    separator, and with none added when the directory is the root; no
    other relative name is joined to the same path. *)
Theorem mkpath_relative_join (dir nm : cstring) :
  absolute nm = false ->
  strlen dir + strlen nm + 2 < PATH_MAX ->
  mkpath dir nm
  = (if strcmp dir (str "/") =? 0 then slash :: nm else dir ++ slash :: nm)
  /\ forall x, absolute x = false -> mkpath dir x = mkpath dir nm -> x = nm.
Proof.
  intros Hrel Hlen.
  assert (Hj : mkpath dir nm = joined dir nm)
    by (apply mkpath_joined; [exact Hrel | lia]).
  split; [exact Hj|].
  intros x Hx Heq. rewrite Hj in Heq.
  now apply (mkpath_joined_inj dir nm x).
Qed.

Lemma mkpath_relative_join_witness :
  absolute (str "a.txt") = false /\
  strlen (str "/tmp") + strlen (str "a.txt") + 2 < PATH_MAX /\
  mkpath (str "/tmp") (str "a.txt") = str "/tmp/a.txt".
Proof.
  split; [reflexivity|]. split; [reflexivity|].
  exact (proj1 (mkpath_relative_join (str "/tmp") (str "a.txt")
                  eq_refl eq_refl)).
Defined.

(** ** [dentfind] *)

Lemma dentfind_loop_nodup (ds : list entry) (cwd : cstring) :
  NoDup (map (fun e => mkpath cwd (name e)) ds) ->
  forall i k e, nth_error ds k = Some e ->
    dentfind_loop ds i cwd (mkpath cwd (name e)) = i + Z.of_nat k.
Proof.
  induction ds as [|d ds IH]; intros Hnd i k e Hk.
  - destruct k; discriminate.
  - cbn [map] in Hnd. inversion Hnd as [|x xs Hnotin Hnd']; subst.
    cbn [dentfind_loop]. destruct k as [|k]; cbn [nth_error] in Hk.
    + injection Hk as ->. rewrite strcmp_refl. cbn. lia.
    + destruct (strcmp (mkpath cwd (name d)) (mkpath cwd (name e)) =? 0)
        eqn:E.
      * apply strcmp_eqb in E. exfalso. apply Hnotin. rewrite E.
        apply in_map_iff. exists e. split; [reflexivity|].
        eapply nth_error_In; eauto.
      * rewrite (IH Hnd' (i + 1) k e Hk). lia.
Qed.

(** X3. In a list whose entries have pairwise different joined paths,
    looking up the joined path of the entry at a position returns that
    position. *)
Theorem dentfind_finds_position (ds : list entry) (cwd : cstring)
    (k : nat) (e : entry) :
  NoDup (map (fun e => mkpath cwd (name e)) ds) ->
  nth_error ds k = Some e ->
  dentfind ds (Z.of_nat (List.length ds)) cwd
           (Some (mkpath cwd (name e))) = Z.of_nat k.
Proof.
  intros Hnd Hk. unfold dentfind. rewrite firstn_length_all.
  now rewrite (dentfind_loop_nodup ds cwd Hnd 0 k e Hk).
Qed.

Lemma dentfind_finds_position_witness :
  NoDup (map (fun e => mkpath (str "/tmp") (name e))
             [Demo.e_a; Demo.e_b; Demo.e_sub]) /\
  nth_error [Demo.e_a; Demo.e_b; Demo.e_sub] 2 = Some Demo.e_sub /\
  dentfind [Demo.e_a; Demo.e_b; Demo.e_sub] 3 (str "/tmp")
           (Some (mkpath (str "/tmp") (name Demo.e_sub))) = 2.
Proof.
  assert (Hnd : NoDup (map (fun e => mkpath (str "/tmp") (name e))
                           [Demo.e_a; Demo.e_b; Demo.e_sub])).
  { repeat constructor; cbn [map In]; intros H;
      repeat destruct H as [H|H]; try discriminate H; exact H. }
  split; [exact Hnd|]. split; [reflexivity|].
  exact (dentfind_finds_position [Demo.e_a; Demo.e_b; Demo.e_sub]
           (str "/tmp") 2 Demo.e_sub Hnd eq_refl).
Defined.

(** ** [dentfill] *)

Section DentfillMore.

Variable w : World.
Variable dir : cstring.
Variable re : regex_t.

Lemma dentfill_loop_step (nm : cstring) (names : list cstring)
    (acc : list entry) (total : Z) :
  dentfill_loop w dir visible re (nm :: names) acc total
  = if kept re nm
    then match lstat w (mkpath dir nm) with
         | None => Exit 1
         | Some sb =>
             dentfill_loop w dir visible re names
               (acc ++ [entry_of nm sb])
               (if counted (entry_of nm sb)
                then to_ulong (total + st_size sb) else total)
         end
    else dentfill_loop w dir visible re names acc total.
Proof.
  cbn [dentfill_loop]. unfold kept.
  destruct ((strcmp nm (str ".") =? 0) || (strcmp nm (str "..") =? 0));
    cbn [negb andb]; [reflexivity|].
  destruct (visible re nm); reflexivity.
Qed.

Lemma dentfill_loop_names (names : list cstring) :
  forall acc total ds total',
    dentfill_loop w dir visible re names acc total = Done (ds, total') ->
    map name ds = map name acc ++ filter (kept re) names /\
    (forall P : entry -> Prop,
       (forall nm sb, In nm names -> lstat w (mkpath dir nm) = Some sb ->
                      P (entry_of nm sb)) ->
       Forall P acc -> Forall P ds).
Proof.
  induction names as [|nm names IH]; intros acc total ds total'.
  - cbn. intros [= <- <-]. rewrite app_nil_r. auto.
  - rewrite dentfill_loop_step. cbn [filter].
    destruct (kept re nm).
    + destruct (lstat w (mkpath dir nm)) as [sb|] eqn:E; [|discriminate].
      intros H. apply IH in H. destruct H as [Hn HP]. split.
      * rewrite Hn, map_app. cbn. now rewrite <- app_assoc.
      * intros P HPn Hacc. apply HP.
        -- intros x sx Hx. apply HPn. now right.
        -- apply Forall_app. split; [exact Hacc|].
           constructor; [|constructor]. apply HPn; [now left | exact E].
    + intros H. apply IH in H. destruct H as [Hn HP]. split; [exact Hn|].
      intros P HPn Hacc. apply HP; [|exact Hacc].
      intros x sx Hx. apply HPn. now right.
Qed.

Lemma dentfill_loop_outcome (names : list cstring) :
  forall acc total,
    ((forall nm, In nm names -> kept re nm = true ->
                 lstat w (mkpath dir nm) <> None) ->
     exists ds total',
       dentfill_loop w dir visible re names acc total = Done (ds, total'))
    /\
    ((exists nm, In nm names /\ kept re nm = true /\
                 lstat w (mkpath dir nm) = None) ->
     dentfill_loop w dir visible re names acc total = Exit 1).
Proof.
  induction names as [|nm names IH]; intros acc total.
  - split.
    + intros _. now exists acc, total.
    + intros (nm & [] & _).
  - rewrite dentfill_loop_step. destruct (kept re nm) eqn:K.
    + destruct (lstat w (mkpath dir nm)) as [sb|] eqn:E.
      * split.
        -- intros H. apply IH. intros x Hx. apply H. now right.
        -- intros (x & [<-|Hx] & Kx & Ex); [congruence|].
           apply IH. now exists x.
      * split; [|reflexivity].
        intros H. exfalso. apply (H nm); [now left | exact K | exact E].
    + split.
      * intros H. apply IH. intros x Hx. apply H. now right.
      * intros (x & [<-|Hx] & Kx & Ex); [congruence|].
        apply IH. now exists x.
Qed.

End DentfillMore.

Lemma kept_lstat_dec (w : World) (dir : cstring) (re : regex_t)
    (names : list cstring) :
  (forall nm, In nm names -> kept re nm = true ->
              lstat w (mkpath dir nm) <> None)
  \/ exists nm, In nm names /\ kept re nm = true /\
                lstat w (mkpath dir nm) = None.
Proof.
  induction names as [|x names IH].
  - left. intros nm [].
  - destruct IH as [IH|(nm & Hin & K & E)].
    + destruct (kept re x) eqn:K.
      * destruct (lstat w (mkpath dir x)) eqn:E.
        -- left. intros nm [<-|Hin] Kn; [congruence | now apply IH].
        -- right. exists x. repeat split; auto. now left.
      * left. intros nm [<-|Hin] Kn; [congruence | now apply IH].
    + right. exists nm. repeat split; auto. now right.
Qed.

(** X4. [dentfill] lists every name of the directory, in the order read,
    that is neither [.] nor [..] and that the pattern accepts, once for
    each time it is read; the mode, time and size of an entry are those
    [lstat] reports for its joined path. *)
Theorem dentfill_lists_all_kept (w : World) (dir : cstring) (re : regex_t)
    (names : list cstring) (ds : list entry) (total : Z) :
  opendir w dir = Some names ->
  dentfill w dir visible re = Done (ds, total) ->
  map name ds = filter (kept re) names /\
  forall e, In e ds ->
    exists sb, lstat w (mkpath dir (name e)) = Some sb /\
               mode e = st_mode sb /\ t e = st_mtime sb /\
               size e = to_ulong (st_size sb).
Proof.
  intros Ho H. apply dentfill_done in H. rewrite Ho in H.
  destruct H as [H _].
  destruct (dentfill_loop_names w dir re names [] 0 ds total H) as [Hn HP].
  split; [exact Hn|].
  apply Forall_forall. apply HP; [|constructor].
  intros nm sb _ E. exists sb. cbn. auto.
Qed.

Lemma dentfill_lists_all_kept_witness :
  opendir Demo.world (str "/tmp")
  = Some [str "."; str ".."; str "b.log"; str ".hidden"; str "sub";
          str "a.txt"] /\
  dentfill Demo.world (str "/tmp") visible Demo.match_nodot
  = Done ([Demo.e_b; Demo.e_sub; Demo.e_a], 30) /\
  map name [Demo.e_b; Demo.e_sub; Demo.e_a]
  = filter (kept Demo.match_nodot)
           [str "."; str ".."; str "b.log"; str ".hidden"; str "sub";
            str "a.txt"].
Proof.
  split; [reflexivity|]. split; [vm_compute; reflexivity|].
  apply (dentfill_lists_all_kept Demo.world (str "/tmp") Demo.match_nodot
           _ [Demo.e_b; Demo.e_sub; Demo.e_a] 30 eq_refl).
  vm_compute; reflexivity.
Defined.

(** X5. Reading a directory that can be opened ends the process, with
    status 1, exactly when [lstat] fails for a name that is kept or
    [closedir] fails, and returns exactly when neither happens; a name
    that is skipped is never examined, and no array is read outside its
    bounds. *)
Theorem dentfill_exit_or_return (w : World) (dir : cstring) (re : regex_t)
    (names : list cstring) :
  opendir w dir = Some names ->
  (dentfill w dir visible re = Exit 1 <->
   (exists nm, In nm names /\ kept re nm = true /\
               lstat w (mkpath dir nm) = None)
   \/ closedir w dir = false)
  /\
  ((exists ds total, dentfill w dir visible re = Done (ds, total)) <->
   (forall nm, In nm names -> kept re nm = true ->
               lstat w (mkpath dir nm) <> None)
   /\ closedir w dir = true)
  /\
  (forall st, dentfill w dir visible re = Exit st -> st = 1)
  /\
  dentfill w dir visible re <> Undef.
Proof.
  intros Ho. unfold dentfill. rewrite Ho.
  destruct (dentfill_loop_outcome w dir re names [] 0) as [Hdone Hexit].
  destruct (kept_lstat_dec w dir re names) as [Hall|Hbad].
  - destruct (Hdone Hall) as (ds & total & ->). cbn [bind].
    destruct (closedir w dir).
    + split; [|split; [|split]].
      * split; [discriminate|]. intros [(nm & Hin & K & E)|]; [|discriminate].
        now contradiction (Hall nm Hin K).
      * split; [now split | now exists ds, total].
      * discriminate.
      * discriminate.
    + split; [|split; [|split]].
      * split; [now right | reflexivity].
      * split; [intros (? & ? & [=]) | now intros [_ [=]]].
      * now intros st [= <-].
      * discriminate.
  - rewrite (Hexit Hbad). cbn [bind]. split; [|split; [|split]].
    + split; [now left | reflexivity].
    + split; [intros (? & ? & [=])|].
      intros [Hall _]. destruct Hbad as (nm & Hin & K & E).
      now contradiction (Hall nm Hin K).
    + now intros st [= <-].
    + discriminate.
Qed.

Lemma dentfill_exit_or_return_witness :
  opendir world_vanished (str "/tmp")
  = Some [str "."; str ".."; str "b.log"; str ".hidden"; str "sub";
          str "a.txt"] /\
  dentfill world_vanished (str "/tmp") visible Demo.match_nodot = Exit 1.
Proof.
  split; [reflexivity|].
  apply (proj1 (dentfill_exit_or_return world_vanished (str "/tmp")
                  Demo.match_nodot _ eq_refl)).
  left. exists (str "b.log"). repeat split.
  right. right. now left.
Defined.

(** ** [populate] *)

Lemma sum_sizes_perm (a b : list entry) :
  Permutation a b -> sum_sizes a = sum_sizes b.
Proof.
  induction 1; cbn [sum_sizes]; lia.
Qed.

(** X6. When the directory cannot be opened, or the filter does not
    compile, [populate] returns -1 and changes no global: the entry
    list, the cursor and the total stay, and the history slot is not
    cleared. Nothing is shown but the regex error. *)
Theorem populate_failure_keeps_globals (w : World) (g : globals) :
  canopendir w (path g) = false \/ regcomp w (fltr g) = None ->
  exists ev, populate w g = Done (-1, g, ev) /\
             (ev = [] \/ ev = [Regerror (fltr g)]).
Proof.
  intros H. unfold populate, setfilter.
  destruct (canopendir w (path g)); cbn [negb].
  - destruct H as [H|H]; [discriminate|]. rewrite H. eexists. eauto.
  - eexists. eauto.
Qed.

Lemma populate_failure_keeps_globals_witness :
  canopendir Demo.world (path (set_path Demo.g_hist (str "/nowhere")))
  = false /\
  exists ev,
    populate Demo.world (set_path Demo.g_hist (str "/nowhere"))
    = Done (-1, set_path Demo.g_hist (str "/nowhere"), ev).
Proof.
  split; [reflexivity|].
  destruct (populate_failure_keeps_globals Demo.world
              (set_path Demo.g_hist (str "/nowhere")) (or_introl eq_refl))
    as (ev & H & _).
  now exists ev.
Defined.

(** X7. After a successful [populate] the entry list holds exactly the
    names of the directory that [dentfill] keeps under the active
    filter, none lost and none added by the sort; the history slot is
    empty, and path, filter and sort order are as before. *)
Theorem populate_lists_kept_names (w : World) (g g' : globals)
    (ev : list event) (names : list cstring) (re : regex_t) :
  populate w g = Done (0, g', ev) ->
  opendir w (path g) = Some names ->
  regcomp w (fltr g) = Some re ->
  Permutation (map name (dents g')) (filter (kept re) names) /\
  oldpath g' = None /\
  path g' = path g /\ fltr g' = fltr g /\ mtimeorder g' = mtimeorder g.
Proof.
  intros H Ho Hre.
  destruct (populate_ok_inv _ _ _ _ H)
    as (re' & ds & total & _ & Hre' & Hfill & _ & ->).
  cbn [dents oldpath path fltr mtimeorder]. repeat split.
  assert (re' = re) by congruence. subst re'.
  apply dentfill_done in Hfill. rewrite Ho in Hfill.
  destruct Hfill as [Hfill _].
  destruct (dentfill_loop_names w (path g) re names [] 0 ds total Hfill)
    as [Hn _].
  cbn [map app] in Hn. rewrite <- Hn.
  apply Permutation_map, Permutation_sym, qsort_perm.
Qed.

Lemma populate_lists_kept_names_witness :
  populate Demo.world Demo.g_hist = Done (0, Demo.g_listed, []) /\
  Permutation (map name (dents Demo.g_listed))
              [str "b.log"; str "sub"; str "a.txt"].
Proof.
  assert (H : populate Demo.world Demo.g_hist = Done (0, Demo.g_listed, []))
    by (vm_compute; reflexivity).
  split; [exact H|].
  exact (proj1 (populate_lists_kept_names Demo.world Demo.g_hist
                  Demo.g_listed [] _ Demo.match_nodot H eq_refl eq_refl)).
Defined.

(** X8. After a successful [populate] the total size is the sum, in
    [unsigned long], of the sizes of the entries of the sorted list that
    [filemode] shows without a marker or as executable. *)
Theorem populate_totalsize (w : World) (g g' : globals) (ev : list event) :
  populate w g = Done (0, g', ev) ->
  totalsize g' = to_ulong (sum_sizes (dents g')).
Proof.
  intros H.
  destruct (populate_ok_inv _ _ _ _ H)
    as (re & ds & total & _ & _ & Hfill & _ & ->).
  cbn [dents totalsize].
  rewrite <- (sum_sizes_perm _ _ (qsort_perm (entrycmp (mtimeorder g)) ds)).
  apply dentfill_done in Hfill. destruct (opendir w (path g)) as [names|].
  - destruct Hfill as [Hfill _].
    now apply (dentfill_loop_total w (path g) re names [] 0 ds total Hfill).
  - now destruct Hfill as [-> ->].
Qed.

Lemma populate_totalsize_witness :
  populate Demo.world Demo.g_hist = Done (0, Demo.g_listed, []) /\
  totalsize Demo.g_listed = to_ulong (sum_sizes (dents Demo.g_listed)).
Proof.
  assert (H : populate Demo.world Demo.g_hist = Done (0, Demo.g_listed, []))
    by (vm_compute; reflexivity).
  split; [exact H|].
  exact (populate_totalsize Demo.world Demo.g_hist Demo.g_listed [] H).
Defined.

(** ** [redraw] *)

Lemma strip_rev_cons (c c' : ascii) (r : cstring) :
  strip_rev (c :: c' :: r)
  = if code c =? code slash then strip_rev (c' :: r) else c :: c' :: r.
Proof. reflexivity. Qed.

Lemma strip_rev_spec (r : cstring) :
  (exists k, r = repeat slash k ++ strip_rev r) /\
  (r <> [] -> strip_rev r <> []) /\
  (forall c c' r', strip_rev r = c :: c' :: r' -> c <> slash) /\
  strip_rev (strip_rev r) = strip_rev r.
Proof.
  induction r as [|c r IH]; [|destruct r as [|c' r]].
  - repeat split; try discriminate; auto. now exists 0%nat.
  - repeat split; try discriminate; auto. now exists 0%nat.
  - rewrite strip_rev_cons.
    destruct (code c =? code slash) eqn:E.
    + apply code_eqb_eq in E. subst c.
      destruct IH as ((k & Hk) & Hne & Hend & Hid).
      repeat split; auto.
      * exists (S k). cbn [repeat app]. now rewrite <- Hk.
      * intros _. apply Hne. discriminate.
    + repeat split; auto; try discriminate.
      * now exists 0%nat.
      * intros x x' r' [= <- _ _] ->. now rewrite Z.eqb_refl in E.
      * rewrite strip_rev_cons. now rewrite E.
Qed.

Lemma repeat_rev (c : ascii) (k : nat) : rev (repeat c k) = repeat c k.
Proof.
  induction k as [|k IH]; [reflexivity|].
  cbn [repeat rev]. rewrite IH. symmetry. apply repeat_cons.
Qed.

(** X9. What [redraw] does to the path: it cuts a run of slashes from
    the end and nothing else, never the first byte, so that a path that
    is not empty stays so and ends in a slash only if it is that byte
    alone; doing it again changes nothing. *)
Theorem redraw_strips_trailing_slashes (p : cstring) :
  (exists k, p = strip_slashes p ++ repeat slash k) /\
  (p <> [] -> strip_slashes p <> []) /\
  (forall q c, strip_slashes p = q ++ [c] -> q <> [] -> c <> slash) /\
  strip_slashes (strip_slashes p) = strip_slashes p.
Proof.
  unfold strip_slashes.
  destruct (strip_rev_spec (rev p)) as ((k & Hk) & Hne & Hend & Hid).
  repeat split.
  - exists k. rewrite <- (rev_involutive p) at 1. rewrite Hk at 1.
    rewrite rev_app_distr. now rewrite repeat_rev.
  - intros Hp H. apply Hne.
    + intros Hr. apply Hp. rewrite <- (rev_involutive p), Hr. reflexivity.
    + rewrite <- (rev_involutive (strip_rev (rev p))), H. reflexivity.
  - intros q c Hq Hqne.
    assert (Hr : strip_rev (rev p) = c :: rev q).
    { rewrite <- (rev_involutive (strip_rev (rev p))), Hq.
      rewrite rev_app_distr. reflexivity. }
    destruct (rev q) as [|c' r'] eqn:Eq.
    + exfalso. apply Hqne. rewrite <- (rev_involutive q), Eq. reflexivity.
    + now apply (Hend c c' r').
  - now rewrite rev_involutive, Hid.
Qed.

Lemma for_range_in (a b i : Z) : In i (for_range a b) <-> a <= i < b.
Proof.
  unfold for_range. rewrite in_map_iff. split.
  - intros (k & <- & Hk). apply in_seq in Hk. lia.
  - intros H. exists (Z.to_nat (i - a)). split; [lia|].
    apply in_seq. lia.
Qed.

Lemma for_range_length (a b : Z) :
  List.length (for_range a b) = Z.to_nat (b - a).
Proof.
  unfold for_range. now rewrite length_map, length_seq.
Qed.

Lemma ISODD_mod (x : Z) : ISODD x = x mod 2.
Proof.
  unfold ISODD. apply (Z.land_ones x 1). lia.
Qed.

Lemma half_and_odd (x : Z) : 0 <= x -> x = 2 * (x ÷ 2) + ISODD x.
Proof.
  intros H. rewrite ISODD_mod, Z.quot_div_nonneg by lia.
  apply Z.div_mod. lia.
Qed.

Lemma ISODD_range (x : Z) : 0 <= ISODD x <= 1.
Proof.
  rewrite ISODD_mod. pose proof (Z.mod_pos_bound x 2). lia.
Qed.

(** X10. With the cursor on an entry, in a terminal of at least four
    lines, [redraw] prints a run of consecutive entries of the list,
    all of them within the list, as many as fit in the lines below the
    header or as the list has; from five lines on the entry under the
    cursor is among them, and it is the one drawn as active. *)
Theorem redraw_window (w : World) (g : globals) :
  4 <= LINES w -> 0 <= cur g < n g ->
  (exists a, 0 <= a /\ a + MIN (LINES w - 4) (n g) <= n g /\
             map fst (redraw_rows w g)
             = for_range a (a + MIN (LINES w - 4) (n g))) /\
  (forall i act, In (i, act) (redraw_rows w g) -> act = (i =? cur g)) /\
  (5 <= LINES w -> In (cur g, true) (redraw_rows w g)).
Proof.
  intros HL Hc. unfold redraw_rows.
  set (nl := MIN (LINES w - 4) (n g)).
  assert (Hnl : 0 <= nl <= n g) by (unfold nl; rewrite MIN_spec; lia).
  pose proof (half_and_odd nl (proj1 Hnl)) as Hh.
  pose proof (ISODD_range nl) as Ho.
  assert (Hq : 0 <= nl ÷ 2) by (apply Z.quot_pos; lia).
  set (h := nl ÷ 2) in *. set (odd := ISODD nl) in *.
  assert (Hmap : forall l, map fst (map (fun i => (i, i =? cur g)) l) = l).
  { intros l. rewrite map_map. cbn. apply map_id. }
  assert (Hact : forall l i act,
             In (i, act) (map (fun i => (i, i =? cur g)) l) ->
             act = (i =? cur g)).
  { intros l i act Hin. apply in_map_iff in Hin.
    destruct Hin as (j & [= <- <-] & _). reflexivity. }
  assert (Hcur : forall a b, a <= cur g < b ->
             In (cur g, true)
                (map (fun i => (i, i =? cur g)) (for_range a b))).
  { intros a b Hab. apply in_map_iff. exists (cur g).
    rewrite Z.eqb_refl. split; [reflexivity|]. now apply for_range_in. }
  assert (H5 : 5 <= LINES w -> 1 <= nl)
    by (intros; unfold nl; rewrite MIN_spec; lia).
  destruct (cur g <? h) eqn:E1; [|destruct (n g - h <=? cur g) eqn:E2].
  - apply Z.ltb_lt in E1. split; [|split].
    + exists 0. rewrite Hmap. repeat split; lia.
    + apply Hact.
    + intros H. apply Hcur. lia.
  - apply Z.leb_le in E2. split; [|split].
    + exists (n g - nl). rewrite Hmap. repeat split; try lia.
      f_equal. lia.
    + apply Hact.
    + intros H. apply Hcur. specialize (H5 H). lia.
  - apply Z.ltb_ge in E1. apply Z.leb_gt in E2. split; [|split].
    + exists (cur g - h). rewrite Hmap. repeat split; try lia.
      f_equal. lia.
    + apply Hact.
    + intros H. apply Hcur. specialize (H5 H). lia.
Qed.

Lemma redraw_window_witness :
  4 <= LINES Demo.world /\
  0 <= cur Demo.g_listed < n Demo.g_listed /\
  In (cur Demo.g_listed, true) (redraw_rows Demo.world Demo.g_listed).
Proof.
  assert (H4 : 4 <= LINES Demo.world) by (cbn; lia).
  assert (Hc : 0 <= cur Demo.g_listed < n Demo.g_listed) by (cbn; lia).
  split; [exact H4|]. split; [exact Hc|].
  apply (proj2 (proj2 (redraw_window Demo.world Demo.g_listed H4 Hc))).
  cbn; lia.
Defined.

(** ** [readmore] and typing *)

(** X11. [readmore] returns 1 for the enter key only, and leaves the
    string alone then. For a key that is not stored as the NUL byte it
    never leaves an empty string behind: the string is absent or holds
    a byte; and such a byte typed and then erased gives the string back
    as it was. A key stored as the NUL byte leaves the string as long
    as it was, and turns an absent string into the empty one. *)
Theorem readmore_type_erase (ln : option cstring) :
  ln <> Some [] ->
  (forall k, (fst (readmore ln k) = 1 <-> k = KEnter) /\
             ((forall c, k = KChar c -> code c <> 0) ->
              snd (readmore ln k) <> Some [])) /\
  readmore ln KEnter = (1, ln) /\
  (forall c, code c <> 0 ->
     readmore (snd (readmore ln (KChar c))) KBackspace = (0, ln)) /\
  (forall c, code c = 0 ->
     readmore ln (KChar c)
     = (0, Some (match ln with Some s => s | None => [] end))).
Proof.
  intros Hne. split; [|split; [|split]].
  - intros k. destruct k as [| |c]; cbn [readmore fst snd].
    + split; [tauto | intros _; exact Hne].
    + destruct ln as [s|]; cbn.
      * destruct (0 <? strlen s - 1) eqn:E; cbn [fst snd].
        -- apply Z.ltb_lt in E. split; [split; discriminate|].
           intros _ [= H]. apply (f_equal (@List.length ascii)) in H.
           rewrite length_firstn in H. unfold strlen in *.
           cbn [List.length] in H. lia.
        -- split; [split; discriminate | discriminate].
      * split; [split; discriminate | discriminate].
    + split; [split; discriminate|].
      intros Hc. assert (E : (code c =? 0) = false)
        by (apply Z.eqb_neq; now apply Hc).
      rewrite E. intros [= H].
      destruct ln as [s|]; [destruct s|]; discriminate H.
  - reflexivity.
  - intros c Hc. cbn [readmore fst snd].
    assert (E0 : (code c =? 0) = false) by now apply Z.eqb_neq.
    rewrite E0. destruct ln as [s|].
    + rewrite strlen_app. change (strlen [c]) with 1.
      destruct s as [|x s]; [now contradiction Hne|].
      assert (E : (0 <? strlen (x :: s) + 1 - 1) = true)
        by (apply Z.ltb_lt; rewrite strlen_cons; unfold strlen; lia).
      rewrite E. f_equal. f_equal.
      replace (Z.to_nat (strlen (x :: s) + 1 - 1))
        with (List.length (x :: s) + 0)%nat by (unfold strlen; lia).
      rewrite firstn_app_2. cbn [firstn]. apply app_nil_r.
    + reflexivity.
  - intros c Hc. cbn [readmore].
    assert (E0 : (code c =? 0) = true) by now apply Z.eqb_eq.
    now rewrite E0.
Qed.

Lemma readmore_type_erase_witness :
  Some (str "lo") <> Some [] /\
  readmore (snd (readmore (Some (str "lo")) (KChar "g"%char))) KBackspace
  = (0, Some (str "lo")).
Proof.
  assert (H : Some (str "lo") <> Some []) by discriminate.
  split; [exact H|].
  apply (proj1 (proj2 (proj2 (readmore_type_erase (Some (str "lo")) H)))
           "g"%char).
  vm_compute. discriminate.
Defined.

Lemma readmore_fst (ln : option cstring) (k : typed) :
  fst (readmore ln k) = match k with KEnter => 1 | _ => 0 end.
Proof.
  destruct k; cbn [readmore]; try reflexivity.
  destruct (0 <? _); reflexivity.
Qed.

Lemma moretyping_locals (w : World) (ifilter : cstring) (g g1 : globals)
    (l l1 : locals) (k : typed) (ev : list event) (c : ctl) :
  moretyping w ifilter g l k = Done (g1, l1, ev, c) ->
  l1 = mklocals (if fst (readmore (tmp l) k) =? 1 then false
                 else nowtyping l)
                (snd (readmore (tmp l) k)).
Proof.
  unfold moretyping, setfilter.
  destruct (readmore (tmp l) k) as [r tmp'] eqn:R. cbn [fst snd].
  destruct tmp' as [s|].
  - destruct (regcomp w s).
    + destruct (save_current (set_fltr g s)); cbn [bind]; try discriminate.
      now intros [= _ <- _ _].
    + destruct (if r =? 1 then false else nowtyping l);
        now intros [= _ <- _ _].
  - destruct (save_current (set_fltr g ifilter)); cbn [bind];
      try discriminate.
    now intros [= _ <- _ _].
Qed.

Lemma switch_locals (w : World) (ifilter : cstring) (g g1 : globals)
    (l l1 : locals) (i : input) (ev : list event) (c : ctl) :
  sel i <> Some SEL_TYPE ->
  switch w ifilter g l i = Done (g1, l1, ev, c) -> l1 = l.
Proof.
  intros Hne. unfold switch, setfilter.
  destruct (sel i) as [a|]; [|now intros [= _ <- _ _]].
  destruct a; try (now contradiction Hne);
    repeat match goal with
           | |- context [bind (selected g) _] =>
               destruct (selected g); cbn [bind]
           | |- context [bind (save_current ?x) _] =>
               destruct (save_current x); cbn [bind]
           | |- context [match ?x with _ => _ end] => destruct x
           end;
    try discriminate; now intros [= _ <- _ _].
Qed.

Lemma begin_locals (w : World) (g g' : globals) (l l' : locals)
    (ev : list event) :
  begin_ w g l = Done (g', l', ev) -> l' = l.
Proof.
  intros H. now apply begin_keeps_fltr in H.
Qed.

Lemma step_locals (w : World) (ifilter : cstring) (g g' : globals)
    (l l' : locals) (i : input) (ev : list event) :
  step w ifilter g l i = Done (Some (g', l'), ev) ->
  exists g1 l1 ev1 c,
    (if nowtyping l then moretyping w ifilter g l (key i)
     else switch w ifilter g l i) = Done (g1, l1, ev1, c) /\ l' = l1.
Proof.
  unfold step.
  destruct (if nowtyping l then moretyping w ifilter g l (key i)
            else switch w ifilter g l i)
    as [[[[g1 l1] ev1] c]| |]; cbn [bind]; try discriminate.
  intros H. exists g1, l1, ev1, c. split; [reflexivity|].
  destruct c; try discriminate; try (now injection H as _ <- _).
  destruct (begin_ w g1 l1) as [[[g2 l2] ev2]| |] eqn:B; cbn [bind] in H;
    try discriminate.
  apply begin_locals in B. injection H as _ <- _. exact B.
Qed.

(** X12. The two modes of the loop. While typing, the enter key ends
    the mode and every other key keeps it; while browsing, the mode is
    entered by [SEL_TYPE] alone, and only if the key read next is not
    the enter key. *)
Theorem typing_mode_transitions (w : World) (ifilter : cstring)
    (g g' : globals) (l l' : locals) (i : input) (ev : list event) :
  step w ifilter g l i = Done (Some (g', l'), ev) ->
  (nowtyping l = true ->
   nowtyping l' = match key i with KEnter => false | _ => true end) /\
  (nowtyping l = false ->
   (nowtyping l' = true <-> sel i = Some SEL_TYPE /\ key i <> KEnter)).
Proof.
  intros H. apply step_locals in H.
  destruct H as (g1 & l1 & ev1 & c & H & ->).
  split; intros Hl; rewrite Hl in H.
  - apply moretyping_locals in H. subst l1. cbn [nowtyping].
    rewrite Hl, readmore_fst. now destruct (key i).
  - destruct (sel i) as [a|] eqn:Hs.
    + destruct a;
        try (apply switch_locals in H; [|rewrite Hs; discriminate];
             subst l1; rewrite Hl; split;
             [discriminate | now intros [[= ?] _]]).
      unfold switch in H. rewrite Hs in H.
      apply moretyping_locals in H. subst l1. cbn [nowtyping tmp].
      rewrite readmore_fst.
      destruct (key i); cbn.
      * split; [discriminate | intros [_ Hk]; now contradiction Hk].
      * split; [intros _; split; [reflexivity | discriminate] | reflexivity].
      * split; [intros _; split; [reflexivity | discriminate] | reflexivity].
    + apply switch_locals in H; [|rewrite Hs; discriminate].
      subst l1. rewrite Hl. split; [discriminate | now intros [[=] _]].
Qed.

Lemma typing_mode_transitions_witness :
  step Demo.world ifilter_user Demo.g_default Demo.browsing
       (mkinput (Some SEL_TYPE) None None None None (KChar "."%char))
  = Done (Some (Demo.g_all, mklocals true (Some (str "."))),
          [Printprompt (str "type: ")]) /\
  nowtyping Demo.browsing = false /\
  nowtyping (mklocals true (Some (str "."))) = true.
Proof.
  assert (H : step Demo.world ifilter_user Demo.g_default Demo.browsing
                (mkinput (Some SEL_TYPE) None None None None
                         (KChar "."%char))
              = Done (Some (Demo.g_all, mklocals true (Some (str "."))),
                      [Printprompt (str "type: ")]))
    by (vm_compute; reflexivity).
  split; [exact H|]. split; [reflexivity|].
  apply (proj2 (typing_mode_transitions _ _ _ _ _ _ _ _ H) eq_refl).
  split; [reflexivity | discriminate].
Defined.

(** X13. Filter as you type: after a key the string typed so far is the
    one [readmore] leaves; for a key stored as the NUL byte that is the
    string as it was, or the empty string when there was none. If the
    string compiles it becomes the active filter; if it does not, no
    global changes; once it is erased to nothing the default filter is
    active again. *)
Theorem typing_installs_filter (w : World) (ifilter : cstring)
    (g g' : globals) (l l' : locals) (i : input) (ev : list event) :
  nowtyping l = true ->
  step w ifilter g l i = Done (Some (g', l'), ev) ->
  tmp l' = snd (readmore (tmp l) (key i)) /\
  (forall c, key i = KChar c -> code c = 0 ->
     tmp l' = Some (match tmp l with Some s => s | None => [] end)) /\
  match tmp l' with
  | Some s => (regcomp w s = None -> g' = g) /\
              (regcomp w s <> None -> fltr g' = s)
  | None => fltr g' = ifilter
  end.
Proof.
  intros Hl H.
  destruct (step_locals _ _ _ _ _ _ _ _ H) as (g1 & l1 & ev1 & c & Hm & ->).
  rewrite Hl in Hm. pose proof (moretyping_locals _ _ _ _ _ _ _ _ _ Hm) as Hl1.
  split; [now rewrite Hl1|].
  split.
  { intros c0 Hk Hc0. rewrite Hl1, Hk. cbn [tmp readmore snd].
    assert (E0 : (code c0 =? 0) = true) by now apply Z.eqb_eq.
    now rewrite E0. }
  unfold step in H. rewrite Hl, Hm in H. cbn [bind] in H.
  rewrite Hl1. cbn [tmp].
  unfold moretyping, setfilter in Hm.
  destruct (readmore (tmp l) (key i)) as [r tmp'] eqn:R. cbn [snd].
  assert (Hfl : forall x g2, save_current (set_fltr g x) = Done g2 ->
                             fltr g2 = x).
  { intros x g2 E. apply save_current_inv in E.
    destruct E as (_ & _ & _ & E & _). exact E. }
  assert (Hend : forall g2 x, fltr g2 = x ->
            (r2 <- begin_ w g2 l1 ;;
             let '(g3, l3, ev3) := r2 in Done (Some (g3, l3), ev1 ++ ev3))
            = Done (Some (g', l1), ev) -> fltr g' = x).
  { intros g2 x Hx Hb.
    destruct (begin_ w g2 l1) as [[[g3 l3] ev3]| |] eqn:B; cbn [bind] in Hb;
      try discriminate.
    apply begin_keeps_fltr in B. destruct B as [B _].
    injection Hb as <- _ _. congruence. }
  destruct tmp' as [s|].
  - destruct (regcomp w s) eqn:C.
    + destruct (save_current (set_fltr g s)) as [g2| |] eqn:S;
        cbn [bind] in Hm; try discriminate.
      injection Hm as <- _ <- <-. split; [discriminate|]. intros _.
      apply (Hend g2 s); [now apply Hfl | exact H].
    + split; [|congruence]. intros _.
      destruct (if r =? 1 then false else nowtyping l);
        injection Hm as <- _ _ <-; now injection H as <-.
  - destruct (save_current (set_fltr g ifilter)) as [g2| |] eqn:S;
      cbn [bind] in Hm; try discriminate.
    injection Hm as <- _ <- <-.
    apply (Hend g2 ifilter); [now apply Hfl | exact H].
Qed.

Lemma typing_installs_filter_witness :
  nowtyping (mklocals true (Some (str "."))) = true /\
  step Demo.world ifilter_user Demo.g_all (mklocals true (Some (str ".")))
       (mkinput None None None None None KBackspace)
  = Done (Some (Demo.g_default, mklocals true None),
          [Printprompt (str "type: ")]) /\
  fltr Demo.g_default = ifilter_user.
Proof.
  assert (H : step Demo.world ifilter_user Demo.g_all
                (mklocals true (Some (str ".")))
                (mkinput None None None None None KBackspace)
              = Done (Some (Demo.g_default, mklocals true None),
                      [Printprompt (str "type: ")]))
    by (vm_compute; reflexivity).
  split; [reflexivity|]. split; [exact H|].
  exact (proj2 (proj2
           (typing_installs_filter Demo.world ifilter_user Demo.g_all
                  Demo.g_default (mklocals true (Some (str ".")))
                  (mklocals true None)
                  (mkinput None None None None None KBackspace)
                  [Printprompt (str "type: ")] eq_refl H))).
Defined.

(** ** What a pass leaves alone *)

(** Case analysis on the tests of [switch] and [moretyping]. *)
Ltac split_tests g :=
  repeat match goal with
         | |- context [bind (selected g) _] =>
             let E := fresh "Esel" in
             destruct (selected g) eqn:E; cbn [bind]
         | |- context [bind (save_current ?x) _] =>
             let E := fresh "Esave" in
             destruct (save_current x) eqn:E; cbn [bind];
             [apply save_current_inv in E | | ]
         | |- context [match regcomp ?w ?x with _ => _ end] =>
             let E := fresh "Ere" in destruct (regcomp w x) eqn:E
         | |- context [match ?x with _ => _ end] => destruct x eqn:?
         end.

(** What an exit leaves alone. *)
Ltac frame_done :=
  let H := fresh "H" in
  intros H; inversion H; subst; clear H;
  repeat match goal with H : _ /\ _ |- _ => destruct H end;
  cbn [dents totalsize cur path fltr oldpath mtimeorder set_fltr set_path
       set_oldpath set_cur set_mtimeorder] in *;
  repeat split; auto; congruence.

Lemma moretyping_frame (w : World) (ifilter : cstring) (g g1 : globals)
    (l l1 : locals) (k : typed) (ev : list event) (c : ctl) :
  moretyping w ifilter g l k = Done (g1, l1, ev, c) ->
  dents g1 = dents g /\ totalsize g1 = totalsize g /\
  match c with
  | Nochange | Moretyping | Continue | Return => g1 = g
  | Begin => cur g1 = cur g
  | Break =>
      path g1 = path g /\ fltr g1 = fltr g /\ oldpath g1 = oldpath g /\
      mtimeorder g1 = mtimeorder g
  end.
Proof.
  unfold moretyping, setfilter.
  destruct (readmore (tmp l) k) as [r tmp'].
  split_tests g; try discriminate; frame_done.
Qed.

Lemma switch_frame (w : World) (ifilter : cstring) (g g1 : globals)
    (l l1 : locals) (i : input) (ev : list event) (c : ctl) :
  switch w ifilter g l i = Done (g1, l1, ev, c) ->
  dents g1 = dents g /\ totalsize g1 = totalsize g /\
  match c with
  | Nochange | Moretyping | Continue | Return => g1 = g
  | Begin => cur g1 = cur g
  | Break =>
      path g1 = path g /\ fltr g1 = fltr g /\ oldpath g1 = oldpath g /\
      mtimeorder g1 = mtimeorder g
  end.
Proof.
  unfold switch.
  destruct (sel i) as [a|]; [|frame_done].
  destruct a; try apply moretyping_frame;
    unfold setfilter; split_tests g; try discriminate; frame_done.
Qed.

(** X14. What the exits of the [switch] leave alone. No case touches
    the entry list or the total size. A case that ends in
    [goto nochange], [continue] or [return], and a typing step that
    stays at the prompt, changes no global at all; a case that ends in
    [goto begin] leaves the cursor; a case that ends in [break] leaves
    path, filter, history slot and sort order. *)
Theorem switch_exit_frame (w : World) (ifilter : cstring) (g g1 : globals)
    (l l1 : locals) (i : input) (ev : list event) (c : ctl) :
  switch w ifilter g l i = Done (g1, l1, ev, c) ->
  dents g1 = dents g /\ totalsize g1 = totalsize g /\
  (c = Nochange \/ c = Moretyping \/ c = Continue \/ c = Return ->
   g1 = g) /\
  (c = Begin -> cur g1 = cur g) /\
  (c = Break ->
   path g1 = path g /\ fltr g1 = fltr g /\ oldpath g1 = oldpath g /\
   mtimeorder g1 = mtimeorder g).
Proof.
  intros H. apply switch_frame in H. destruct H as (Hd & Ht & Hc).
  split; [exact Hd|]. split; [exact Ht|]. split; [|split].
  - intros [->|[->|[->| ->]]]; exact Hc.
  - intros ->. exact Hc.
  - intros ->. exact Hc.
Qed.

Lemma switch_exit_frame_witness :
  switch Demo.world ifilter_user Demo.g_on_sub Demo.browsing
         (Demo.key_of SEL_GOIN)
  = Done (Demo.g_descending, Demo.browsing, [], Begin) /\
  dents Demo.g_descending = dents Demo.g_on_sub /\
  cur Demo.g_descending = cur Demo.g_on_sub.
Proof.
  assert (H : switch Demo.world ifilter_user Demo.g_on_sub Demo.browsing
                     (Demo.key_of SEL_GOIN)
              = Done (Demo.g_descending, Demo.browsing, [], Begin))
    by (vm_compute; reflexivity).
  split; [exact H|].
  destruct (switch_exit_frame _ _ _ _ _ _ _ _ _ H) as (Hd & _ & _ & Hc & _).
  split; [exact Hd | now apply Hc].
Defined.

(** ** The cursor *)

Lemma cursor_ok_same (g g1 : globals) :
  dents g1 = dents g -> cur g1 = cur g -> cursor_ok g -> cursor_ok g1.
Proof.
  unfold cursor_ok, n. intros -> ->. tauto.
Qed.

Lemma populate_cursor_ok (w : World) (g g' : globals) (rv : Z)
    (ev : list event) :
  populate w g = Done (rv, g', ev) -> cursor_ok g -> cursor_ok g'.
Proof.
  intros H Hok. destruct (Z.eq_dec rv 0) as [->|Hrv].
  - populated H. unfold cursor_ok, n. cbn [dents cur].
    destruct (dentfind_in_range
                (qsort (entrycmp (mtimeorder g)) ds) (path g) (oldpath g))
      as [H1 H2].
    split; [exact H1 | intros Hn; left; now apply H2].
  - destruct (populate_fail_inv _ _ _ _ _ H Hrv) as (_ & -> & _).
    exact Hok.
Qed.

Lemma begin_cursor_ok (w : World) (g g' : globals) (l l' : locals)
    (ev : list event) :
  begin_ w g l = Done (g', l', ev) -> cursor_ok g -> cursor_ok g'.
Proof.
  unfold begin_. destruct (populate w g) as [[[rv g1] ev1]| |] eqn:E;
    cbn [bind]; try discriminate.
  intros H Hok. apply populate_cursor_ok in E; [|exact Hok].
  destruct ((rv =? -1) && negb (nowtyping l)); injection H as <- _ _;
    [exact E|].
  now apply (cursor_ok_same g1).
Qed.

Lemma moretyping_keeps_cur (w : World) (ifilter : cstring)
    (g g1 : globals) (l l1 : locals) (k : typed) (ev : list event)
    (c : ctl) :
  moretyping w ifilter g l k = Done (g1, l1, ev, c) -> cur g1 = cur g.
Proof.
  unfold moretyping, setfilter.
  destruct (readmore (tmp l) k) as [r tmp'].
  split_tests g; try discriminate; frame_done.
Qed.

Lemma switch_keeps_cur (w : World) (ifilter : cstring) (g g1 : globals)
    (l l1 : locals) (i : input) (ev : list event) (c : ctl) (a : action) :
  sel i = Some a -> is_move a = false ->
  switch w ifilter g l i = Done (g1, l1, ev, c) -> cur g1 = cur g.
Proof.
  intros Hs Hm. unfold switch. rewrite Hs.
  destruct a; try discriminate Hm; try apply moretyping_keeps_cur;
    unfold setfilter; split_tests g; try discriminate; frame_done.
Qed.

Lemma switch_cursor_ok (w : World) (ifilter : cstring) (g g1 : globals)
    (l l1 : locals) (i : input) (ev : list event) (c : ctl) :
  4 <= LINES w -> cursor_ok g ->
  switch w ifilter g l i = Done (g1, l1, ev, c) -> cursor_ok g1.
Proof.
  intros HL Hok H.
  destruct (sel i) as [a|] eqn:Hs.
  - destruct (is_move a) eqn:Hm.
    + assert (Hh : 0 <= (LINES w - 4) ÷ 2) by (apply Z.quot_pos; lia).
      revert H. unfold switch. rewrite Hs.
      destruct Hok as [Hpos Hzero]. unfold cursor_ok.
      destruct a; try discriminate Hm;
        repeat match goal with
               | |- context [if ?b then _ else _] => destruct b eqn:?
               end;
        intros [= <- <- <- <-]; unfold n in *; cbn [cur dents set_cur];
        rewrite ?MIN_spec; rewrite ?Z.ltb_lt, ?Z.ltb_ge in *; lia.
    + destruct (switch_frame _ _ _ _ _ _ _ _ _ H) as (Hd & _ & _).
      apply (cursor_ok_same g); auto.
      now apply (switch_keeps_cur _ _ _ _ _ _ _ _ _ a Hs Hm H).
  - unfold switch in H. rewrite Hs in H. now injection H as <- _ _ _.
Qed.

(** X15. In a terminal of at least four lines every pass keeps the
    cursor on an entry of the list; on an empty list the cursor is 0 or
    -1. This holds whatever the action, the input and the state of the
    filesystem. *)
Theorem step_keeps_cursor_ok (w : World) (ifilter : cstring)
    (g g' : globals) (l l' : locals) (i : input) (ev : list event) :
  4 <= LINES w -> cursor_ok g ->
  step w ifilter g l i = Done (Some (g', l'), ev) ->
  cursor_ok g'.
Proof.
  intros HL Hok. unfold step.
  destruct (if nowtyping l then moretyping w ifilter g l (key i)
            else switch w ifilter g l i)
    as [[[[g1 l1] ev1] c]| |] eqn:E; cbn [bind]; try discriminate.
  assert (H1 : cursor_ok g1).
  { destruct (nowtyping l).
    - apply (cursor_ok_same g); auto.
      + now apply moretyping_frame in E.
      + now apply moretyping_keeps_cur in E.
    - now apply (switch_cursor_ok w ifilter g g1 l l1 i ev1 c). }
  destruct c; try discriminate;
    try (now intros [= <- _ _]);
    try (intros [= <- _ _]; now apply (cursor_ok_same g1)).
  destruct (begin_ w g1 l1) as [[[g2 l2] ev2]| |] eqn:B; cbn [bind];
    try discriminate.
  intros [= <- _ _]. now apply (begin_cursor_ok w g1 g2 l1 l2 ev2).
Qed.

Lemma step_keeps_cursor_ok_witness :
  4 <= LINES Demo.world /\ cursor_ok Demo.g_empty /\
  step Demo.world ifilter_user Demo.g_empty Demo.browsing
       (Demo.key_of SEL_END)
  = Done (Some (set_cur Demo.g_empty (-1), Demo.browsing), []) /\
  cursor_ok (set_cur Demo.g_empty (-1)).
Proof.
  assert (HL : 4 <= LINES Demo.world) by (cbn; lia).
  assert (Hok : cursor_ok Demo.g_empty)
    by (split; [cbn; lia | now left]).
  assert (H : step Demo.world ifilter_user Demo.g_empty Demo.browsing
                (Demo.key_of SEL_END)
              = Done (Some (set_cur Demo.g_empty (-1), Demo.browsing), []))
    by reflexivity.
  split; [exact HL|]. split; [exact Hok|]. split; [exact H|].
  exact (step_keeps_cursor_ok _ _ _ _ _ _ _ _ HL Hok H).
Defined.

(** ** Reads outside the entry list *)

Lemma selected_defined (g : globals) :
  cursor_ok g ->
  (0 < n g -> exists e, selected g = Done e) /\
  (n g = 0 -> selected g = Undef).
Proof.
  intros [Hpos Hzero]. unfold selected. split.
  - intros Hn. specialize (Hpos Hn).
    assert (H1 : (0 <=? cur g) = true) by (apply Z.leb_le; lia).
    assert (H2 : (cur g <? n g) = true) by (apply Z.ltb_lt; lia).
    rewrite H1, H2. cbn [andb].
    destruct (nth_error (dents g) (Z.to_nat (cur g))) as [e|] eqn:E.
    + now exists e.
    + apply nth_error_None in E. unfold n in *. lia.
  - intros Hn. destruct (Hzero Hn) as [Hc|Hc]; rewrite Hc, Hn; reflexivity.
Qed.

Lemma save_current_defined (g : globals) :
  cursor_ok g -> exists g1, save_current g = Done g1.
Proof.
  intros Hok. unfold save_current. destruct (0 <? n g) eqn:E.
  - apply Z.ltb_lt in E.
    destruct (proj1 (selected_defined g Hok) E) as [e ->]. cbn [bind].
    eexists. reflexivity.
  - eexists. reflexivity.
Qed.

Lemma dentfill_loop_defined (w : World) (dir : cstring) (re : regex_t)
    (names : list cstring) :
  forall acc total,
    dentfill_loop w dir visible re names acc total <> Undef.
Proof.
  induction names as [|nm names IH]; intros acc total.
  - discriminate.
  - rewrite dentfill_loop_step. destruct (kept re nm); [|apply IH].
    destruct (lstat w (mkpath dir nm)); [apply IH | discriminate].
Qed.

Lemma populate_defined (w : World) (g : globals) : populate w g <> Undef.
Proof.
  unfold populate, setfilter.
  destruct (negb (canopendir w (path g))); [discriminate|].
  destruct (regcomp w (fltr g)) as [re|]; [|discriminate].
  unfold dentfill. destruct (opendir w (path g)) as [names|];
    [|discriminate].
  pose proof (dentfill_loop_defined w (path g) re names [] 0) as H.
  destruct (dentfill_loop w (path g) visible re names [] 0)
    as [[ds total]| |]; cbn [bind]; try discriminate.
  - destruct (closedir w (path g)); discriminate.
  - now contradiction H.
Qed.

Lemma begin_defined (w : World) (g : globals) (l : locals) :
  begin_ w g l <> Undef.
Proof.
  unfold begin_. pose proof (populate_defined w g) as H.
  destruct (populate w g) as [[[rv g1] ev1]| |]; cbn [bind];
    try discriminate; [|now contradiction H].
  destruct ((rv =? -1) && negb (nowtyping l)); discriminate.
Qed.

Lemma moretyping_defined (w : World) (ifilter : cstring) (g : globals)
    (l : locals) (k : typed) :
  cursor_ok g -> moretyping w ifilter g l k <> Undef.
Proof.
  intros Hok. unfold moretyping, setfilter.
  destruct (readmore (tmp l) k) as [r tmp'].
  assert (Hs : forall x, exists g1, save_current (set_fltr g x) = Done g1).
  { intros x. apply save_current_defined.
    now apply (cursor_ok_same g). }
  destruct tmp' as [s|].
  - destruct (regcomp w s).
    + destruct (Hs s) as [g1 ->]. discriminate.
    + destruct (if r =? 1 then false else nowtyping l); discriminate.
  - destruct (Hs ifilter) as [g1 ->]. discriminate.
Qed.

Lemma switch_undefined (w : World) (ifilter : cstring) (g : globals)
    (l : locals) (i : input) :
  cursor_ok g ->
  (switch w ifilter g l i = Undef <->
   sel i = Some SEL_RUNARG /\ n g = 0).
Proof.
  intros Hok.
  destruct (selected_defined g Hok) as [Hpos Hzero].
  assert (Hs : forall g0, dents g0 = dents g -> cur g0 = cur g ->
                          exists g1, save_current g0 = Done g1).
  { intros g0 Hd Hc. apply save_current_defined.
    now apply (cursor_ok_same g). }
  unfold switch. destruct (sel i) as [a|];
    [|split; [discriminate | now intros [[=] _]]].
  destruct a;
    try (split; [|now intros [[=] _]]);
    try (intros H; exfalso; revert H;
         try apply moretyping_defined; try exact Hok;
         unfold setfilter;
         repeat match goal with
                | |- context [save_current ?x] =>
                    let g1 := fresh "g1" in
                    destruct (Hs x eq_refl eq_refl) as [g1 ->];
                    cbn [bind]
                | |- context [if n g =? 0 then _ else _] =>
                    let E := fresh "E" in
                    destruct (n g =? 0) eqn:E;
                    [|apply Z.eqb_neq in E;
                      let e := fresh "e" in
                      destruct Hpos as [e ->];
                      [unfold n in *; lia | cbn [bind]]]
                | |- context [match ?x with _ => _ end] => destruct x
                end; discriminate).
  split.
  - intros H. split; [reflexivity|].
    destruct (Z.eq_dec (n g) 0) as [Hn|Hn]; [exact Hn|].
    destruct Hpos as [e He]; [unfold n in *; lia|].
    rewrite He in H. discriminate.
  - intros [_ Hn]. now rewrite (Hzero Hn).
Qed.

(** X16. With the cursor in order, a pass reads the entry list outside
    its bounds in one case only: [SEL_RUNARG] on an empty list, which
    takes the name of [dents[cur]] without a test. Every other action,
    and every key while typing, reads within the list. *)
Theorem step_undefined_only_runarg (w : World) (ifilter : cstring)
    (g : globals) (l : locals) (i : input) :
  cursor_ok g ->
  (step w ifilter g l i = Undef <->
   nowtyping l = false /\ sel i = Some SEL_RUNARG /\ n g = 0).
Proof.
  intros Hok. unfold step.
  assert (Hcont : forall g1 l1 ev1 c,
    match c with
    | Begin =>
        r2 <- begin_ w g1 l1 ;;
        let '(g2, l2, ev2) := r2 in Done (Some (g2, l2), ev1 ++ ev2)
    | Nochange | Moretyping => Done (Some (g1, l1), ev1)
    | Break | Continue => Done (Some (redraw g1, l1), ev1)
    | Return => Done (None, ev1)
    end <> Undef).
  { intros g1 l1 ev1 c. destruct c; try discriminate.
    pose proof (begin_defined w g1 l1) as H.
    destruct (begin_ w g1 l1) as [[[g2 l2] ev2]| |]; cbn [bind];
      try discriminate. now contradiction H. }
  destruct (nowtyping l) eqn:Hl.
  - split; [|now intros [[=] _]].
    pose proof (moretyping_defined w ifilter g l (key i) Hok) as H.
    destruct (moretyping w ifilter g l (key i))
      as [[[[g1 l1] ev1] c]| |]; cbn [bind]; try discriminate.
    + intros E. now apply Hcont in E.
    + now contradiction H.
  - pose proof (switch_undefined w ifilter g l i Hok) as Hsw.
    destruct (switch w ifilter g l i) as [[[[g1 l1] ev1] c]| |];
      cbn [bind].
    + split; [intros E; now apply Hcont in E|].
      intros [_ H]. apply Hsw in H. discriminate.
    + split; [discriminate|]. intros [_ H]. apply Hsw in H. discriminate.
    + split; [|reflexivity]. intros _. split; [reflexivity|].
      now apply Hsw.
Qed.

Lemma step_undefined_only_runarg_witness :
  cursor_ok Demo.g_empty /\
  step Demo.world ifilter_user Demo.g_empty Demo.browsing
       (Demo.key_of SEL_RUNARG) = Undef.
Proof.
  assert (Hok : cursor_ok Demo.g_empty)
    by (split; [cbn; lia | now left]).
  split; [exact Hok|].
  apply (step_undefined_only_runarg Demo.world ifilter_user Demo.g_empty
           Demo.browsing (Demo.key_of SEL_RUNARG) Hok).
  repeat split.
Defined.

(** X17. [browse] starts in browsing mode with the cursor at 0, the
    default filter active and the history slot empty, whether or not the
    first listing succeeds. When the initial path can be opened and the
    default filter compiles nothing is reported and the path is the
    initial path without trailing slashes. When the path cannot be
    opened a warning is shown; when the filter does not compile the
    error of the pattern and a warning are shown; in both cases the
    list is empty and the path is the initial path as given. *)
Theorem browse_starts_at_top (w : World) (ipath ifilter : cstring)
    (m : bool) (g : globals) (l : locals) (ev : list event) :
  browse_init w ipath ifilter m = Done (g, l, ev) ->
  cur g = 0 /\ oldpath g = None /\ fltr g = ifilter /\
  mtimeorder g = m /\ nowtyping l = false /\ cursor_ok g /\
  (canopendir w ipath = true -> regcomp w ifilter <> None ->
   ev = [] /\ path g = strip_slashes ipath) /\
  (canopendir w ipath = false ->
   ev = [Printwarn] /\ path g = ipath /\ dents g = []) /\
  (canopendir w ipath = true -> regcomp w ifilter = None ->
   ev = [Regerror ifilter; Printwarn] /\ path g = ipath /\ dents g = []).
Proof.
  unfold browse_init, begin_.
  destruct (populate w (mkglobals [] 0 ipath None ifilter 0 m))
    as [[[rv g1] ev1]| |] eqn:E; cbn [bind]; try discriminate.
  cbn [nowtyping negb]. rewrite andb_true_r.
  assert (Hok0 : cursor_ok (mkglobals [] 0 ipath None ifilter 0 m))
    by (split; [cbn; lia | now left]).
  pose proof (populate_cursor_ok _ _ _ _ _ E Hok0) as Hok.
  destruct (Z.eq_dec rv 0) as [->|Hrv].
  - cbn [Z.eqb andb]. intros [= <- <- <-].
    pose proof (populate_cursor_top _ _ _ _ E eq_refl) as Hc.
    destruct (populate_ok_inv _ _ _ _ E)
      as (re & ds & total & Hcan & Hre & _ & -> & ->).
    cbn [redraw set_path cur oldpath fltr mtimeorder path dents] in *.
    repeat match goal with |- _ /\ _ => split end; auto;
      intros; congruence.
  - destruct (populate_fail_inv _ _ _ _ _ E Hrv) as (-> & -> & _).
    cbn [Z.eqb andb]. intros [= <- <- <-].
    cbn [cur oldpath fltr mtimeorder path dents].
    unfold populate, setfilter in E. cbn [path fltr] in E.
    do 6 (split; [auto|]).
    destruct (canopendir w ipath); cbn [negb] in E.
    + destruct (regcomp w ifilter) as [re|].
      * destruct (dentfill w ipath visible re) as [[ds total]| |];
          cbn [bind] in E; discriminate.
      * injection E as <-. cbn [app].
        split; [intros _ H; now contradiction H|].
        split; [discriminate | auto].
    + injection E as <-. cbn [app].
      split; [discriminate|]. split; [auto | discriminate].
Qed.

Lemma browse_starts_at_top_witness :
  browse_init Demo.world (str "/tmp") ifilter_user false
  = Done (set_cur Demo.g_listed 0, Demo.browsing, []) /\
  canopendir Demo.world (str "/tmp") = true /\
  regcomp Demo.world ifilter_user <> None /\
  path (set_cur Demo.g_listed 0) = strip_slashes (str "/tmp").
Proof.
  assert (H : browse_init Demo.world (str "/tmp") ifilter_user false
              = Done (set_cur Demo.g_listed 0, Demo.browsing, []))
    by (vm_compute; reflexivity).
  assert (Hc : canopendir Demo.world (str "/tmp") = true) by reflexivity.
  assert (Hr : regcomp Demo.world ifilter_user <> None) by discriminate.
  split; [exact H|]. split; [exact Hc|]. split; [exact Hr|].
  destruct (browse_starts_at_top _ _ _ _ _ _ _ H)
    as (_ & _ & _ & _ & _ & _ & Hok & _).
  exact (proj2 (Hok Hc Hr)).
Defined.

(** ** Ascending *)

(** X18. [SEL_BACK] has three outcomes. At ["/"], at ["."] and at a path
    without a slash nothing changes and nothing is shown. Elsewhere, if
    the parent cannot be opened a warning is shown and nothing changes;
    if it can, the path left goes to the history slot, the parent
    becomes the path, the default filter is restored and the directory
    is listed again. *)
Theorem sel_back_outcomes (w : World) (ifilter : cstring) (g : globals)
    (l : locals) (i : input) :
  nowtyping l = false -> sel i = Some SEL_BACK ->
  (path g = str "/" \/ path g = str "." \/ ~ In slash (path g) ->
   step w ifilter g l i = Done (Some (g, l), []))
  /\
  (path g <> str "/" -> path g <> str "." -> In slash (path g) ->
   (canopendir w (dirname (path g)) = false ->
    step w ifilter g l i = Done (Some (g, l), [Printwarn])) /\
   (canopendir w (dirname (path g)) = true ->
    switch w ifilter g l i
    = Done (mkglobals (dents g) (cur g) (dirname (path g))
                      (Some (path g)) ifilter (totalsize g) (mtimeorder g),
            l, [], Begin))).
Proof.
  intros Hl Hs. split.
  - intros Hstop. unfold step, switch. rewrite Hl, Hs.
    assert (E : (strcmp (path g) (str "/") =? 0)
                || (strcmp (path g) (str ".") =? 0)
                || strchr_null (path g) slash = true).
    { destruct Hstop as [H|[H|H]].
      - apply strcmp_eqb in H. now rewrite H.
      - apply strcmp_eqb in H. rewrite H. now rewrite orb_true_r.
      - apply strchr_null_spec in H. rewrite H. now rewrite orb_true_r. }
    now rewrite E.
  - intros H1 H2 H3.
    assert (E : (strcmp (path g) (str "/") =? 0)
                || (strcmp (path g) (str ".") =? 0)
                || strchr_null (path g) slash = false).
    { apply strcmp_eqb_false in H1, H2. rewrite H1, H2. cbn [orb].
      apply Bool.not_true_iff_false. rewrite strchr_null_spec. tauto. }
    split; intros Hopen.
    + unfold step, switch, xdirname. now rewrite Hl, Hs, E, Hopen.
    + unfold switch, xdirname. now rewrite Hs, E, Hopen.
Qed.

Lemma sel_back_outcomes_witness :
  nowtyping Demo.browsing = false /\
  sel (Demo.key_of SEL_BACK) = Some SEL_BACK /\
  step Demo.world ifilter_user (set_path Demo.g_empty (str "/"))
       Demo.browsing (Demo.key_of SEL_BACK)
  = Done (Some (set_path Demo.g_empty (str "/"), Demo.browsing), []).
Proof.
  split; [reflexivity|]. split; [reflexivity|].
  apply (proj1 (sel_back_outcomes Demo.world ifilter_user
                  (set_path Demo.g_empty (str "/")) Demo.browsing
                  (Demo.key_of SEL_BACK) eq_refl eq_refl)).
  now left.
Defined.

(** ** Descending and opening *)

(** X19. [SEL_GOIN] on a list that is not empty descends only into what
    [fstat] reports as a directory and [opendir] can open, and starts a
    program only for a regular file that has an association; in every
    other case it shows a message and changes no global. On an empty
    list it does nothing and shows nothing. *)
Theorem sel_goin_outcomes (w : World) (ifilter : cstring) (g g1 : globals)
    (l l1 : locals) (i : input) (ev : list event) (c : ctl) :
  sel i = Some SEL_GOIN ->
  switch w ifilter g l i = Done (g1, l1, ev, c) ->
  (n g = 0 -> g1 = g /\ ev = [] /\ c = Nochange) /\
  (n g <> 0 ->
   exists e, selected g = Done e /\
     let newpath := mkpath (path g) (name e) in
     (c = Begin ->
      (exists m, open_fstat w newpath = Some m /\
                 Z.land m S_IFMT = S_IFDIR) /\
      canopendir w newpath = true /\ ev = [] /\
      g1 = mkglobals (dents g) (cur g) newpath (oldpath g) ifilter
                     (totalsize g) (mtimeorder g)) /\
     (c = Continue ->
      (exists m, open_fstat w newpath = Some m /\
                 Z.land m S_IFMT = S_IFREG) /\
      (exists bin, openwith w newpath = Some bin /\
                   ev = [Spawn (Some bin) (Some newpath) None None]) /\
      g1 = g) /\
     (c <> Begin -> c <> Continue ->
      c = Nochange /\ g1 = g /\
      (ev = [Printwarn] \/ ev = [Printmsg (str "No association")] \/
       ev = [Printmsg (str "Unsupported file")]))).
Proof.
  intros Hs. unfold switch. rewrite Hs.
  destruct (n g =? 0) eqn:En.
  - apply Z.eqb_eq in En. intros [= <- <- <- <-].
    split; [auto | intros H; now contradiction H].
  - apply Z.eqb_neq in En.
    destruct (selected g) as [e| |] eqn:Esel; cbn [bind]; try discriminate.
    intros H. split; [intros Hn; now contradiction En|]. intros _.
    exists e. split; [reflexivity|]. cbv zeta. revert H.
    destruct (open_fstat w (mkpath (path g) (name e))) as [m|];
      [destruct (Z.land m S_IFMT =? S_IFDIR) eqn:Ed;
       [apply Z.eqb_eq in Ed;
        destruct (canopendir w (mkpath (path g) (name e))) eqn:Ec;
        cbn [negb]
       |destruct (Z.land m S_IFMT =? S_IFREG) eqn:Er;
        [apply Z.eqb_eq in Er;
         destruct (openwith w (mkpath (path g) (name e))) as [bin|]|]]|];
      intros [= <- <- <- <-];
      (split; [|split];
       [intros Hc; try discriminate Hc
       |intros Hc; try discriminate Hc
       |intros Hc1 Hc2; try (now contradiction Hc1);
        try (now contradiction Hc2)]);
      repeat match goal with |- _ /\ _ => split end;
      eauto.
Qed.

Lemma sel_goin_outcomes_witness :
  sel (Demo.key_of SEL_GOIN) = Some SEL_GOIN /\
  switch Demo.world ifilter_user Demo.g_default Demo.browsing
         (Demo.key_of SEL_GOIN)
  = Done (Demo.g_default, Demo.browsing,
          [Printmsg (str "No association")], Nochange) /\
  exists e, selected Demo.g_default = Done e.
Proof.
  split; [reflexivity|].
  assert (H : switch Demo.world ifilter_user Demo.g_default Demo.browsing
                     (Demo.key_of SEL_GOIN)
              = Done (Demo.g_default, Demo.browsing,
                      [Printmsg (str "No association")], Nochange))
    by (vm_compute; reflexivity).
  split; [exact H|].
  destruct (proj2 (sel_goin_outcomes Demo.world ifilter_user Demo.g_default
                     Demo.g_default Demo.browsing Demo.browsing
                     (Demo.key_of SEL_GOIN)
                     [Printmsg (str "No association")] Nochange
                     eq_refl H))
    as (e & He & _); [discriminate|].
  now exists e.
Defined.

(** ** Keeping the selection across a repopulation *)

Lemma populate_restores_selection (w : World) (g g' : globals)
    (ev : list event) (nm : cstring) :
  populate w g = Done (0, g', ev) ->
  oldpath g = Some (mkpath (path g) nm) ->
  absolute nm = false ->
  strlen (path g) + strlen nm + 2 < PATH_MAX ->
  (forall e', In e' (dents g') -> absolute (name e') = false) ->
  (exists e', In e' (dents g') /\ name e' = nm) ->
  exists e', selected g' = Done e' /\ name e' = nm.
Proof.
  intros H Ho Hrel Hlen Hnames Hstill.
  assert (Hj : mkpath (path g) nm = joined (path g) nm)
    by (apply mkpath_joined; [exact Hrel | lia]).
  populated H. cbn [dents] in *.
  set (ds' := qsort (entrycmp (mtimeorder g)) ds) in *.
  destruct (dentfind_spec ds' (path g)) as (_ & _ & Hhit).
  specialize (Hhit (mkpath (path g) nm)). cbv zeta in Hhit.
  destruct Hhit as (Hrange & (e' & Hnth & Hmk) & _).
  { destruct Hstill as (e' & Hin & Heq). exists e'. now rewrite Heq. }
  exists e'. split.
  - apply selected_nth; cbn [cur dents]; unfold n; cbn [dents];
      rewrite Ho; assumption.
  - apply (mkpath_joined_inj (path g)); auto.
    + apply Hnames. eapply nth_error_In; eauto.
    + now rewrite <- Hj.
Qed.

Lemma selected_same (g g0 : globals) :
  dents g0 = dents g -> cur g0 = cur g -> selected g0 = selected g.
Proof.
  unfold selected, n. now intros -> ->.
Qed.

(** X20. The actions that re-sort, redraw or set a filter keep the
    selection: when the entry under the cursor is listed again by the
    repopulation that follows, the cursor is on the entry of that name.
    Names hold no slash and the joined path fits the buffer of
    [mkpath]. *)
Theorem repopulation_keeps_selection (w : World) (ifilter : cstring)
    (g g1 g' : globals) (l l1 : locals) (i : input) (e : entry)
    (ev1 ev' : list event) :
  sel i = Some SEL_MTIME \/ sel i = Some SEL_REDRAW
  \/ sel i = Some SEL_FLTR ->
  selected g = Done e ->
  strchr_null (name e) slash = true ->
  strlen (path g) + strlen (name e) + 2 < PATH_MAX ->
  switch w ifilter g l i = Done (g1, l1, ev1, Begin) ->
  populate w g1 = Done (0, g', ev') ->
  (forall e', In e' (dents g') -> strchr_null (name e') slash = true) ->
  (exists e', In e' (dents g') /\ name e' = name e) ->
  exists e', selected g' = Done e' /\ name e' = name e.
Proof.
  intros Ha He Hns Hlen Hsw Hpop Hnames Hstill.
  assert (Hn : 0 < n g).
  { unfold selected in He.
    destruct ((0 <=? cur g) && (cur g <? n g)) eqn:E; [|discriminate].
    apply andb_true_iff in E. rewrite Z.leb_le, Z.ltb_lt in E. lia. }
  assert (Hsave : exists g0, save_current g0 = Done g1 /\
                             dents g0 = dents g /\ cur g0 = cur g /\
                             path g0 = path g).
  { revert Hsw. unfold switch, setfilter.
    destruct Ha as [Ha|[Ha|Ha]]; rewrite Ha.
    - destruct (save_current (set_mtimeorder g (negb (mtimeorder g))))
        as [g2| |] eqn:S; cbn [bind]; try discriminate.
      intros [= <- _ _]. eexists. split; [exact S|]. auto.
    - destruct (save_current g) as [g2| |] eqn:S; cbn [bind];
        try discriminate.
      intros [= <- _ _]. eexists. split; [exact S|]. auto.
    - destruct (regcomp w (match line i with
                           | Some s => s
                           | None => ifilter
                           end)); [|discriminate].
      destruct (save_current
                  (set_fltr g (match line i with
                               | Some s => s
                               | None => ifilter
                               end))) as [g2| |] eqn:S; cbn [bind];
        try discriminate.
      intros [= <- _ _]. eexists. split; [exact S|]. auto. }
  destruct Hsave as (g0 & Hsave & Hd & Hc & Hp).
  apply save_current_inv in Hsave.
  destruct Hsave as (_ & _ & Hp1 & _ & _ & _ & _ & Hold).
  assert (Hn0 : 0 < n g0) by (unfold n in *; now rewrite Hd).
  destruct (Hold Hn0) as (e0 & He0 & Hold').
  rewrite (selected_same g g0 Hd Hc), He in He0. injection He0 as <-.
  rewrite <- Hp1 in Hold'.
  apply (populate_restores_selection w g1 g' ev' (name e)); auto.
  - now apply no_slash_relative.
  - now rewrite Hp1, Hp.
  - intros e' Hin. now apply no_slash_relative, Hnames.
Qed.

Lemma repopulation_keeps_selection_witness :
  selected Demo.g_default = Done Demo.e_b /\
  switch Demo.world ifilter_user Demo.g_default Demo.browsing
         (Demo.key_of SEL_MTIME)
  = Done (Demo.g_resorting, Demo.browsing, [], Begin) /\
  populate Demo.world Demo.g_resorting = Done (0, Demo.g_by_time, []) /\
  exists e', selected Demo.g_by_time = Done e' /\ name e' = name Demo.e_b.
Proof.
  assert (H1 : switch Demo.world ifilter_user Demo.g_default Demo.browsing
                      (Demo.key_of SEL_MTIME)
               = Done (Demo.g_resorting, Demo.browsing, [], Begin))
    by (vm_compute; reflexivity).
  assert (H2 : populate Demo.world Demo.g_resorting
               = Done (0, Demo.g_by_time, []))
    by (vm_compute; reflexivity).
  split; [reflexivity|]. split; [exact H1|]. split; [exact H2|].
  apply (repopulation_keeps_selection Demo.world ifilter_user
           Demo.g_default Demo.g_resorting Demo.g_by_time Demo.browsing
           Demo.browsing (Demo.key_of SEL_MTIME) Demo.e_b [] []);
    [ now left | reflexivity | vm_compute; reflexivity
    | vm_compute; reflexivity | exact H1 | exact H2 | | ].
  - intros e' [<-|[<-|[<-|[]]]]; vm_compute; reflexivity.
  - exists Demo.e_b. split; [|reflexivity]. right. now left.
Defined.

Lemma populate_congr (w : World) (g g1 gq : globals) (ev : list event) :
  path g1 = path g -> fltr g1 = fltr g -> mtimeorder g1 = mtimeorder g ->
  populate w g = Done (0, gq, ev) ->
  populate w g1
  = Done (0, mkglobals (dents gq)
                       (dentfind (dents gq) (n gq) (path g) (oldpath g1))
                       (path g) None (fltr g) (totalsize gq) (mtimeorder g),
          ev).
Proof.
  intros Hp Hf Hm H.
  destruct (populate_ok_inv _ _ _ _ H)
    as (re & ds & total & Hopen & Hre & Hfill & -> & ->).
  unfold populate, setfilter. rewrite Hp, Hf, Hm, Hopen, Hre. cbn [negb].
  rewrite Hfill. reflexivity.
Qed.

(** X21. Force redraw changes nothing when nothing changed on disk: in
    a state with an empty history slot, a path in the form [redraw]
    leaves, entries with pairwise different joined paths, whose list
    and total are what [populate] produces, and a cursor that is a
    valid index, or 0 on an empty list, [SEL_REDRAW] gives the same
    state back and shows nothing. On an empty list with the cursor at
    -1 it puts the cursor at 0 and changes nothing else. *)
Theorem force_redraw_is_idempotent (w : World) (ifilter : cstring)
    (g gq : globals) (l : locals) (i : input) (ev : list event) :
  nowtyping l = false -> sel i = Some SEL_REDRAW ->
  oldpath g = None -> strip_slashes (path g) = path g ->
  cursor_ok g ->
  NoDup (map (fun e => mkpath (path g) (name e)) (dents g)) ->
  populate w g = Done (0, gq, ev) ->
  dents gq = dents g -> totalsize gq = totalsize g ->
  (0 <= cur g < n g \/ (n g = 0 /\ cur g = 0) ->
   step w ifilter g l i = Done (Some (g, l), [])) /\
  (n g = 0 /\ cur g = -1 ->
   step w ifilter g l i = Done (Some (set_cur g 0, l), [])).
Proof.
  intros Hl Hs Hold Hstrip Hok Hnd Hpop Hd Ht.
  assert (Hev : ev = []).
  { destruct (populate_ok_inv _ _ _ _ Hpop)
      as (_ & _ & _ & _ & _ & _ & Hev & _). exact Hev. }
  subst ev.
  assert (Hfin : forall g1 c,
            path g1 = path g -> fltr g1 = fltr g ->
            mtimeorder g1 = mtimeorder g ->
            dentfind (dents g) (n g) (path g) (oldpath g1) = c ->
            (r2 <- begin_ w g1 l ;;
             let '(g2, l2, ev2) := r2 in Done (Some (g2, l2), [] ++ ev2))
            = Done (Some (set_cur g c, l), [])).
  { intros g1 c Hp Hf Hm Hfind. unfold begin_.
    rewrite (populate_congr w g g1 gq [] Hp Hf Hm Hpop). cbn [bind].
    rewrite Hl. cbn [Z.eqb andb app bind]. unfold redraw, set_path, set_cur.
    cbn [dents cur path oldpath fltr totalsize mtimeorder].
    unfold n in *. now rewrite Hd, Ht, Hfind, Hstrip, Hold. }
  assert (Hsame : set_cur g (cur g) = g)
    by (destruct g; reflexivity).
  unfold step, switch. rewrite Hl, Hs. unfold save_current.
  split.
  - intros [Hcur|[Hn Hc]].
    + assert (Hpos : (0 <? n g) = true) by (apply Z.ltb_lt; lia).
      rewrite Hpos.
      destruct (nth_error (dents g) (Z.to_nat (cur g))) as [e|] eqn:E;
        [|apply nth_error_None in E; unfold n in *; lia].
      rewrite (selected_nth g e Hcur E). cbn [bind].
      match goal with
      | |- ?lhs = _ =>
          enough (Hx : lhs = Done (Some (set_cur g (cur g), l), []))
            by (now rewrite Hsame in Hx)
      end.
      apply Hfin; try reflexivity.
      cbn [oldpath set_oldpath]. unfold dentfind, n.
      rewrite firstn_length_all.
      rewrite (dentfind_loop_nodup (dents g) (path g) Hnd 0 _ e E). lia.
    + assert (Hpos : (0 <? n g) = false) by (apply Z.ltb_ge; lia).
      rewrite Hpos. cbn [bind].
      match goal with
      | |- ?lhs = _ =>
          enough (Hx : lhs = Done (Some (set_cur g (cur g), l), []))
            by (now rewrite Hsame in Hx)
      end.
      apply Hfin; try reflexivity.
      now rewrite Hold, Hc.
  - intros [Hn Hc].
    assert (Hpos : (0 <? n g) = false) by (apply Z.ltb_ge; lia).
    rewrite Hpos. cbn [bind]. apply Hfin; try reflexivity.
    now rewrite Hold.
Qed.

Lemma force_redraw_is_idempotent_witness :
  populate Demo.world Demo.g_default = Done (0, set_cur Demo.g_default 0, [])
  /\
  step Demo.world ifilter_user Demo.g_default Demo.browsing
       (Demo.key_of SEL_REDRAW)
  = Done (Some (Demo.g_default, Demo.browsing), []).
Proof.
  assert (H : populate Demo.world Demo.g_default
              = Done (0, set_cur Demo.g_default 0, []))
    by (vm_compute; reflexivity).
  split; [exact H|].
  apply (force_redraw_is_idempotent Demo.world ifilter_user Demo.g_default
           (set_cur Demo.g_default 0) Demo.browsing
           (Demo.key_of SEL_REDRAW) []);
    [ reflexivity | reflexivity | reflexivity | vm_compute; reflexivity
    | split; cbn; lia | | exact H | reflexivity | reflexivity
    | left; cbn; lia ].
  repeat constructor; cbn [map In]; intros Hin;
    repeat destruct Hin as [Hin|Hin]; try discriminate Hin; exact Hin.
Defined.

(** ** A filter set while the directory is gone *)

(** X22. When the current directory can no longer be opened, a
    set-filter action with a pattern that compiles is not undone: the
    filter is replaced and the selected entry goes to the history slot,
    while the entry list, the cursor and the total stay as they were;
    a warning is shown. *)
Theorem set_filter_on_unreadable_directory (w : World) (ifilter : cstring)
    (g g1 : globals) (l : locals) (i : input) (s : cstring)
    (re : regex_t) :
  nowtyping l = false -> sel i = Some SEL_FLTR -> line i = Some s ->
  regcomp w s = Some re ->
  canopendir w (path g) = false ->
  save_current (set_fltr g s) = Done g1 ->
  step w ifilter g l i
  = Done (Some (g1, l), [Printprompt (str "filter: "); Printwarn]) /\
  fltr g1 = s /\ dents g1 = dents g /\ cur g1 = cur g /\
  totalsize g1 = totalsize g /\
  (0 < n g -> oldpath g1 <> None).
Proof.
  intros Hl Hs Hline Hre Hopen Hsave.
  pose proof (save_current_inv _ _ Hsave)
    as (Hd & Hc & Hp & Hf & Ht & _ & _ & Ho).
  split.
  - unfold step, switch, setfilter. rewrite Hl, Hs, Hline, Hre, Hsave.
    cbn [bind]. unfold begin_, populate.
    rewrite Hp. cbn [path set_fltr]. rewrite Hopen. cbn [negb bind].
    now rewrite Hl.
  - repeat split; auto.
    intros Hn. destruct (Ho Hn) as (e & _ & ->). discriminate.
Qed.

Lemma set_filter_on_unreadable_directory_witness :
  canopendir Demo.world (path (set_path Demo.g_default (str "/gone")))
  = false /\
  step Demo.world ifilter_user (set_path Demo.g_default (str "/gone"))
       Demo.browsing (Demo.prompt_of SEL_FLTR (Some (str ".")))
  = Done (Some (mkglobals [Demo.e_a; Demo.e_b; Demo.e_sub] 1 (str "/gone")
                          (Some (str "/gone/b.log")) (str ".") 30 false,
                Demo.browsing),
          [Printprompt (str "filter: "); Printwarn]).
Proof.
  split; [reflexivity|].
  apply (proj1 (set_filter_on_unreadable_directory Demo.world ifilter_user
                  (set_path Demo.g_default (str "/gone")) _ Demo.browsing
                  (Demo.prompt_of SEL_FLTR (Some (str "."))) (str ".")
                  Demo.match_any eq_refl eq_refl eq_refl eq_refl eq_refl
                  eq_refl)).
Defined.

(** ** [openwith] *)

Lemma openwith_loop_find (w : World) (l : list (cstring * cstring))
    (file : cstring) :
  openwith_loop w l file
  = option_map snd (find (assoc_applies w file) l).
Proof.
  induction l as [|[regex bin] l IH]; [reflexivity|].
  cbn [openwith_loop find]. unfold assoc_applies at 1. cbn [fst].
  destruct (regcomp w regex) as [re|]; [|exact IH].
  destruct (re file); [reflexivity | exact IH].
Qed.

(** X23. [openwith] returns the program of the first association whose
    pattern compiles and accepts the file; associations whose pattern
    does not compile are passed over, and there is no program exactly
    when no association applies. *)
Theorem openwith_first_match (w : World) (file : cstring) :
  (forall bin, openwith w file = Some bin <->
     exists l1 regex l2,
       assocs w = l1 ++ (regex, bin) :: l2 /\
       assoc_applies w file (regex, bin) = true /\
       forall a, In a l1 -> assoc_applies w file a = false) /\
  (openwith w file = None <->
   forall a, In a (assocs w) -> assoc_applies w file a = false).
Proof.
  unfold openwith. rewrite openwith_loop_find.
  generalize (assocs w). intros l. split.
  - intros bin. split.
    + induction l as [|a l IH]; [discriminate|]. cbn [find].
      destruct (assoc_applies w file a) eqn:E.
      * destruct a as [regex b]. cbn. intros [= ->].
        exists [], regex, l. repeat split; auto. intros a [].
      * intros H. destruct (IH H) as (l1 & regex & l2 & -> & Ha & Hl1).
        exists (a :: l1), regex, l2. repeat split; auto.
        intros x [<-|Hx]; auto.
    + intros (l1 & regex & l2 & -> & Ha & Hl1).
      induction l1 as [|a l1 IH]; cbn [app find].
      * now rewrite Ha.
      * rewrite (Hl1 a) by now left. apply IH.
        intros x Hx. apply Hl1. now right.
  - split.
    + intros H a Hin. destruct (find (assoc_applies w file) l) eqn:F;
        [discriminate|].
      now apply (find_none _ _ F).
    + intros H. destruct (find (assoc_applies w file) l) as [a|] eqn:F;
        [|reflexivity].
      apply find_some in F. destruct F as [Hin Ha].
      rewrite (H a Hin) in Ha. discriminate.
Qed.

(** ** [filemode] *)

(** X24. Which entries count towards the total size: every entry that
    is not a directory, a link, a socket or a FIFO, whatever its
    permission bits, device nodes included; and none of those four,
    executable or not. A regular file is marked [*] exactly when its
    owner may execute it. *)
Theorem counted_by_file_type (e : entry) :
  (counted e = true <->
   Z.land (mode e) S_IFMT <> S_IFDIR /\ Z.land (mode e) S_IFMT <> S_IFLNK
   /\ Z.land (mode e) S_IFMT <> S_IFSOCK
   /\ Z.land (mode e) S_IFMT <> S_IFIFO) /\
  (Z.land (mode e) S_IFMT = S_IFREG ->
   filemode (mode e)
   = if Z.land (mode e) S_IXUSR =? 0 then 0 else code "*"%char).
Proof.
  unfold counted, filemode, S_ISDIR, S_ISLNK, S_ISSOCK, S_ISFIFO.
  split.
  - destruct (Z.land (mode e) S_IFMT =? S_IFDIR) eqn:E1;
      [apply Z.eqb_eq in E1; split; [discriminate | tauto]|].
    destruct (Z.land (mode e) S_IFMT =? S_IFLNK) eqn:E2;
      [apply Z.eqb_eq in E2; split; [discriminate | tauto]|].
    destruct (Z.land (mode e) S_IFMT =? S_IFSOCK) eqn:E3;
      [apply Z.eqb_eq in E3; split; [discriminate | tauto]|].
    destruct (Z.land (mode e) S_IFMT =? S_IFIFO) eqn:E4;
      [apply Z.eqb_eq in E4; split; [discriminate | tauto]|].
    apply Z.eqb_neq in E1, E2, E3, E4.
    destruct (Z.land (mode e) S_IXUSR =? 0); cbn; tauto.
  - intros ->. cbn. now destruct (Z.land (mode e) S_IXUSR =? 0).
Qed.

(** ** Moving down and back up *)

Lemma redraw_redraw (g : globals) : redraw (redraw g) = redraw g.
Proof.
  unfold redraw, set_path. cbn [path dents cur oldpath fltr totalsize
                               mtimeorder].
  destruct (strip_rev_spec (rev (path g))) as (_ & _ & _ & Hid).
  unfold strip_slashes. now rewrite rev_involutive, Hid.
Qed.

(** X25. Moving down and back up returns to the same entry. One line
    down from an entry that is not the last and one line up give the
    state back; so do half a page down and half a page up, unless the
    way down was cut short by the end of the list. What remains of the
    two passes is the trimming of the path by [redraw]. *)
Theorem down_then_up (w : World) (ifilter : cstring) (g : globals)
    (l : locals) (i1 i2 : input) :
  nowtyping l = false -> 0 <= cur g ->
  (sel i1 = Some SEL_NEXT -> sel i2 = Some SEL_PREV ->
   cur g < n g - 1 ->
   exists g1, step w ifilter g l i1 = Done (Some (g1, l), []) /\
              cur g1 = cur g + 1 /\
              step w ifilter g1 l i2 = Done (Some (redraw g, l), []))
  /\
  (sel i1 = Some SEL_PGDN -> sel i2 = Some SEL_PGUP ->
   0 < (LINES w - 4) ÷ 2 -> cur g + (LINES w - 4) ÷ 2 <= n g - 1 ->
   exists g1, step w ifilter g l i1 = Done (Some (g1, l), []) /\
              cur g1 = cur g + (LINES w - 4) ÷ 2 /\
              step w ifilter g1 l i2 = Done (Some (redraw g, l), [])).
Proof.
  intros Hl Hc.
  assert (Hback : forall c, redraw (set_cur (redraw (set_cur g c)) (cur g))
                            = redraw g).
  { intros c. rewrite <- (redraw_redraw g). reflexivity. }
  split.
  - intros H1 H2 Hlt. eexists. split; [|split].
    + unfold step, switch. rewrite Hl, H1. cbn [bind].
      assert (E : (cur g <? n g - 1) = true) by (apply Z.ltb_lt; lia).
      rewrite E. reflexivity.
    + reflexivity.
    + unfold step, switch. rewrite Hl, H2. cbn [bind].
      cbn [cur redraw set_cur set_path].
      assert (E : (0 <? cur g + 1) = true) by (apply Z.ltb_lt; lia).
      rewrite E. replace (cur g + 1 - 1) with (cur g) by lia.
      now rewrite <- (Hback (cur g + 1)).
  - intros H1 H2 Hh Hfit. eexists. split; [|split].
    + unfold step, switch. rewrite Hl, H1. cbn [bind].
      assert (E : (cur g <? n g - 1) = true) by (apply Z.ltb_lt; lia).
      rewrite E. reflexivity.
    + cbn [cur redraw set_cur set_path]. rewrite MIN_spec. lia.
    + unfold step, switch. rewrite Hl, H2. cbn [bind].
      cbn [cur redraw set_cur set_path]. rewrite !MIN_spec.
      assert (E : (0 <? cur g + Z.min ((LINES w - 4) ÷ 2) (n g - 1 - cur g))
                  = true) by (apply Z.ltb_lt; lia).
      rewrite E.
      replace (cur g + Z.min ((LINES w - 4) ÷ 2) (n g - 1 - cur g)
               - Z.min ((LINES w - 4) ÷ 2)
                       (cur g + Z.min ((LINES w - 4) ÷ 2)
                                      (n g - 1 - cur g)))
        with (cur g) by lia.
      now rewrite <- (Hback (cur g + Z.min ((LINES w - 4) ÷ 2)
                                           (n g - 1 - cur g))).
Qed.

Lemma down_then_up_witness :
  nowtyping Demo.browsing = false /\ 0 <= cur Demo.g_default /\
  cur Demo.g_default < n Demo.g_default - 1 /\
  exists g1,
    step Demo.world ifilter_user Demo.g_default Demo.browsing
         (Demo.key_of SEL_NEXT) = Done (Some (g1, Demo.browsing), []) /\
    cur g1 = cur Demo.g_default + 1 /\
    step Demo.world ifilter_user g1 Demo.browsing (Demo.key_of SEL_PREV)
    = Done (Some (redraw Demo.g_default, Demo.browsing), []).
Proof.
  assert (Hc : 0 <= cur Demo.g_default) by (cbn; lia).
  assert (Hn : cur Demo.g_default < n Demo.g_default - 1) by (cbn; lia).
  split; [reflexivity|]. split; [exact Hc|]. split; [exact Hn|].
  exact (proj1 (down_then_up Demo.world ifilter_user Demo.g_default
                  Demo.browsing (Demo.key_of SEL_NEXT)
                  (Demo.key_of SEL_PREV) eq_refl Hc)
               eq_refl eq_refl Hn).
Defined.

(** ** Idling *)

Lemma timeout_pass_spec (bindings : list key_binding) (idletimeout : Z)
    (idle : Z) :
  0 < idletimeout -> 0 <= idle < idletimeout ->
  timeout_pass bindings idletimeout idle
  = if idle + 1 =? idletimeout then (0, true) else (idle + 1, false).
Proof.
  intros Ht Hi. unfold timeout_pass, nextsel, screensaver. cbn [fst].
  assert (E : (idletimeout =? 0) = false) by (apply Z.eqb_neq; lia).
  now rewrite E.
Qed.

Lemma timeout_passes_spec (bindings : list key_binding) (idletimeout : Z)
    (k : nat) :
  0 < idletimeout ->
  timeout_passes bindings idletimeout k 0
  = (Z.of_nat k mod idletimeout,
     (0 <? Z.of_nat k) && (Z.of_nat k mod idletimeout =? 0)).
Proof.
  intros Ht. induction k as [|k IH].
  - cbn [timeout_passes]. now rewrite Z.mod_0_l by lia.
  - cbn [timeout_passes]. rewrite IH. cbn [fst].
    pose proof (Z.mod_pos_bound (Z.of_nat k) idletimeout Ht) as Hb.
    rewrite timeout_pass_spec by assumption.
    replace (Z.of_nat (S k)) with (Z.of_nat k + 1) by lia.
    assert (Hpos : (0 <? Z.of_nat k + 1) = true) by (apply Z.ltb_lt; lia).
    rewrite Hpos. cbn [andb].
    rewrite <- (Zplus_mod_idemp_l (Z.of_nat k) 1 idletimeout).
    destruct (Z.of_nat k mod idletimeout + 1 =? idletimeout) eqn:E.
    + apply Z.eqb_eq in E. rewrite E, Z_mod_same_full. reflexivity.
    + apply Z.eqb_neq in E.
      rewrite (Z.mod_small (Z.of_nat k mod idletimeout + 1)) by lia.
      assert (E0 : (Z.of_nat k mod idletimeout + 1 =? 0) = false)
        by (apply Z.eqb_neq; lia).
      now rewrite E0.
Qed.

(** X26. Idling, where the timeout value -1 is bound to no action. A
    key other than a timeout sets the idle counter to 0, whatever it
    was. With a positive [idletimeout], after [k] timeouts in a row
    from there the counter is [k] modulo [idletimeout], and the
    idle command has just been started exactly when [k] is a positive
    multiple of [idletimeout]; with [idletimeout] 0 it never is. *)
Theorem screensaver_after_idletimeout (bindings : list key_binding)
    (idletimeout idle c : Z) (k : nat) :
  c <> -1 ->
  snd (nextsel bindings idle (-1)) = None ->
  fst (nextsel bindings idle c) = 0 /\
  (0 < idletimeout ->
   timeout_passes bindings idletimeout k
                  (fst (nextsel bindings idle c))
   = (Z.of_nat k mod idletimeout,
      (0 <? Z.of_nat k) && (Z.of_nat k mod idletimeout =? 0))) /\
  snd (screensaver 0 idle) = false.
Proof.
  intros Hc _.
  assert (E : (c =? -1) = false) by now apply Z.eqb_neq.
  unfold nextsel at 1. rewrite E. cbn [fst snd].
  repeat split.
  intros Ht. unfold nextsel. rewrite E. cbn [fst].
  now apply timeout_passes_spec.
Qed.

Lemma screensaver_after_idletimeout_witness :
  13 <> -1 /\
  timeout_passes [] 3 6 (fst (nextsel [] 2 13)) = (0, true) /\
  timeout_passes [] 3 5 (fst (nextsel [] 2 13)) = (2, false).
Proof.
  assert (H : 13 <> -1) by discriminate.
  split; [exact H|].
  destruct (screensaver_after_idletimeout [] 3 2 13 6 H eq_refl)
    as (_ & H6 & _).
  destruct (screensaver_after_idletimeout [] 3 2 13 5 H eq_refl)
    as (_ & H5 & _).
  split; [rewrite H6 by lia | rewrite H5 by lia]; reflexivity.
Defined.

(** ** The comparator by time *)

(** X27. Under time order [entrycmp] has the sign of the difference of
    the two times as long as that difference fits in an [int]; when the
    second entry is newer by 2^31 seconds or more, and by less than
    2^32, the result is negative, as if it were older; and two times
    that differ by a multiple of 2^32 compare as equal. *)
Theorem entrycmp_time_sign (a b : entry) :
  (- 2 ^ 31 <= t b - t a < 2 ^ 31 ->
   entrycmp true a b = t b - t a) /\
  (2 ^ 31 <= t b - t a < 2 ^ 32 -> entrycmp true a b < 0) /\
  (forall k, t b - t a = k * 2 ^ 32 -> entrycmp true a b = 0).
Proof.
  unfold entrycmp. split; [|split].
  - apply to_int_small.
  - intros H. unfold to_int.
    replace (t b - t a + 2 ^ 31)
      with (t b - t a - 2 ^ 31 + 1 * 2 ^ 32) by lia.
    rewrite Z_mod_plus_full, Z.mod_small; lia.
  - intros k ->. unfold to_int.
    replace (k * 2 ^ 32 + 2 ^ 31) with (2 ^ 31 + k * 2 ^ 32) by lia.
    rewrite Z_mod_plus_full, Z.mod_small; lia.
Qed.

(** ** Toggling the dot files twice *)

(** X28. Two toggles in a row give back the filter that was active before
    them if that was the default filter or ["."], whether or not the
    listings in between succeed. *)
Theorem toggledot_twice (w1 w2 : World) (ifilter : cstring)
    (g g1 g2 : globals) (l l1 l2 : locals) (i1 i2 : input)
    (ev1 ev2 : list event) :
  nowtyping l = false ->
  sel i1 = Some SEL_TOGGLEDOT -> sel i2 = Some SEL_TOGGLEDOT ->
  fltr g = ifilter \/ fltr g = str "." ->
  step w1 ifilter g l i1 = Done (Some (g1, l1), ev1) ->
  step w2 ifilter g1 l1 i2 = Done (Some (g2, l2), ev2) ->
  fltr g2 = fltr g /\
  fltr g1 = (if strcmp (fltr g) ifilter =? 0 then str "." else ifilter).
Proof.
  intros Hl Hs1 Hs2 Hf H1 H2.
  assert (Htog : forall w g0 l0 i0 g' l' ev,
            nowtyping l0 = false -> sel i0 = Some SEL_TOGGLEDOT ->
            step w ifilter g0 l0 i0 = Done (Some (g', l'), ev) ->
            l' = l0 /\
            fltr g' = (if strcmp (fltr g0) ifilter =? 0 then str "."
                       else ifilter)).
  { intros w g0 l0 i0 g' l' ev Hl0 Hs0. unfold step, switch.
    rewrite Hl0, Hs0.
    destruct (strcmp (fltr g0) ifilter =? 0); cbn [negb bind];
      match goal with
      | |- context [begin_ w ?x l0] =>
          destruct (begin_ w x l0) as [[[g3 l3] ev3]| |] eqn:B;
          cbn [bind]; try discriminate;
          apply begin_keeps_fltr in B; destruct B as [B ->];
          intros [= <- <- _]; split; [reflexivity | exact B]
      end. }
  destruct (Htog w1 g l i1 g1 l1 ev1 Hl Hs1 H1) as [-> Hf1].
  destruct (Htog w2 g1 l i2 g2 l2 ev2 Hl Hs2 H2) as [_ Hf2].
  split; [|exact Hf1].
  rewrite Hf2, Hf1.
  destruct (strcmp (fltr g) ifilter =? 0) eqn:E.
  - apply strcmp_eqb in E.
    destruct (strcmp (str ".") ifilter =? 0) eqn:E2.
    + apply strcmp_eqb in E2. congruence.
    + congruence.
  - apply strcmp_eqb_false in E.
    destruct Hf as [Hf|Hf]; [contradiction|].
    rewrite strcmp_refl. cbn. now rewrite Hf.
Qed.

Lemma toggledot_twice_witness :
  step Demo.world ifilter_user Demo.g_default Demo.browsing
       (Demo.key_of SEL_TOGGLEDOT)
  = Done (Some (set_cur Demo.g_all 0, Demo.browsing), []) /\
  step Demo.world ifilter_user (set_cur Demo.g_all 0) Demo.browsing
       (Demo.key_of SEL_TOGGLEDOT)
  = Done (Some (set_cur Demo.g_default 0, Demo.browsing), []) /\
  fltr (set_cur Demo.g_default 0) = fltr Demo.g_default.
Proof.
  assert (H1 : step Demo.world ifilter_user Demo.g_default Demo.browsing
                 (Demo.key_of SEL_TOGGLEDOT)
               = Done (Some (set_cur Demo.g_all 0, Demo.browsing), []))
    by (vm_compute; reflexivity).
  assert (H2 : step Demo.world ifilter_user (set_cur Demo.g_all 0)
                 Demo.browsing (Demo.key_of SEL_TOGGLEDOT)
               = Done (Some (set_cur Demo.g_default 0, Demo.browsing), []))
    by (vm_compute; reflexivity).
  split; [exact H1|]. split; [exact H2|].
  exact (proj1 (toggledot_twice Demo.world Demo.world ifilter_user
                  Demo.g_default (set_cur Demo.g_all 0)
                  (set_cur Demo.g_default 0) Demo.browsing Demo.browsing
                  Demo.browsing (Demo.key_of SEL_TOGGLEDOT)
                  (Demo.key_of SEL_TOGGLEDOT) [] [] eq_refl eq_refl eq_refl
                  (or_introl eq_refl) H1 H2)).
Defined.

(** ** The fatal exit *)









